(** * GenericLinearTransport: a shallow embedding

    The class [GenericLinearTransport] of [openpnm/algorithms] assembles a
    conductance weighted graph Laplacian, edits it for Dirichlet conditions,
    builds the right-hand side, and derives rates and an effective property
    from a solved quantity field.

    Conventions of the embedding:
    - a Python float is a [scalar]: an exact rational or [NaN].  Rounding and
      infinities are outside the model; every operation with a [NaN] operand
      yields [NaN], comparisons with [NaN] are false, and a division by zero
      (non finite in IEEE arithmetic) is represented by [NaN];
    - the object is a dictionary of arrays plus a few attributes; methods are
      computations in a state and exception monad, so that an exception
      raised half way leaves the mutations made so far in place;
    - numpy arrays are lists; index arrays are lists of [nat];
    - what [setup] and [run] establish enters the statements about the
      other methods as [conductance_is] and [quantity_is]; [setup] and [run]
      themselves take the name parser of the base class and the sparse
      solver, which are not part of the sources, as parameters. *)

From Stdlib Require Import QArith Qcanon Sorted.
From stdpp Require Import gmap strings list fin_maps.

Open Scope Qc_scope.
Open Scope nat_scope.

(** ** Scalars *)

Inductive scalar : Type :=
  | NaN
  | Num (q : Qc).

#[global] Instance scalar_eq_dec : EqDecision scalar.
Proof. solve_decision. Defined.

Definition sadd (x y : scalar) : scalar :=
  match x, y with Num a, Num b => Num (a + b)%Qc | _, _ => NaN end.

Definition ssub (x y : scalar) : scalar :=
  match x, y with Num a, Num b => Num (a - b)%Qc | _, _ => NaN end.

Definition smul (x y : scalar) : scalar :=
  match x, y with Num a, Num b => Num (a * b)%Qc | _, _ => NaN end.

Definition sneg (x : scalar) : scalar :=
  match x with Num a => Num (- a)%Qc | NaN => NaN end.

Definition sdiv (x y : scalar) : scalar :=
  match x, y with
  | Num a, Num b => if decide (b = 0%Qc) then NaN else Num (a / b)%Qc
  | _, _ => NaN
  end.

(** [x == y] on floats: [NaN] is equal to nothing, itself included. *)
Definition seqb (x y : scalar) : bool :=
  match x, y with Num a, Num b => bool_decide (a = b) | _, _ => false end.

(** The order used by sorting: numbers by value, [NaN] after every number. *)
Definition sleb (x y : scalar) : bool :=
  match x, y with
  | Num a, Num b => bool_decide (a <= b)%Qc
  | Num _, NaN => true
  | NaN, NaN => true
  | NaN, Num _ => false
  end.

Definition finite (x : scalar) : Prop := exists q, x = Num q.

Declare Scope scalar_scope.
Delimit Scope scalar_scope with S.
Infix "+" := sadd : scalar_scope.
Infix "-" := ssub : scalar_scope.
Infix "*" := smul : scalar_scope.
Infix "/" := sdiv : scalar_scope.
Notation "- x" := (sneg x) : scalar_scope.

Definition zero : scalar := Num 0%Qc.
Definition one : scalar := Num 1%Qc.

(** ** Exceptions and results *)

(** [raise Exception(...)] of the transport class is reported under the
    category its message belongs to; the other constructors are the built-in
    exceptions of Python and numpy. *)
Inductive exn : Type :=
  | InvalidArgument
  | PreconditionViolation
  | KeyError
  | IndexError
  | ValueError
  | UnboundLocalError.

#[global] Instance exn_eq_dec : EqDecision exn.
Proof. solve_decision. Defined.

Inductive result (A : Type) : Type :=
  | Ok (a : A)
  | Raise (e : exn).
Arguments Ok {A} a.
Arguments Raise {A} e.

#[global] Instance result_eq_dec {A} `{EqDecision A} : EqDecision (result A).
Proof. solve_decision. Defined.

Definition rbind {A B} (r : result A) (f : A -> result B) : result B :=
  match r with Ok a => f a | Raise e => Raise e end.

Notation "x <~ r ;; k" := (rbind r (fun x => k))
  (at level 100, r at next level, right associativity).

Fixpoint mapR {A B} (f : A -> result B) (l : list A) : result (list B) :=
  match l with
  | [] => Ok []
  | x :: l' => y <~ f x ;; ys <~ mapR f l' ;; Ok (y :: ys)
  end.

(** ** numpy arrays *)

Inductive ndarray : Type :=
  | BoolArr (l : list bool)
  | FloatArr (l : list scalar).

#[global] Instance ndarray_eq_dec : EqDecision ndarray.
Proof. solve_decision. Defined.

(** Casts performed by numpy when a value is stored into an array of the
    other dtype. *)
Definition of_bool (b : bool) : scalar := if b then one else zero.
Definition cast_bool (x : scalar) : bool := negb (seqb x zero).

Definition as_bools (a : ndarray) : list bool :=
  match a with BoolArr l => l | FloatArr l => map cast_bool l end.

Definition as_floats (a : ndarray) : list scalar :=
  match a with BoolArr l => map of_bool l | FloatArr l => l end.

(** The array that a scalar is broadcast to: [ones(n, dtype) * value]. *)
Definition full (n : nat) (v : ndarray) : ndarray :=
  match v with
  | BoolArr l => BoolArr (replicate n (default false (head l)))
  | FloatArr l => FloatArr (replicate n (default NaN (head l)))
  end.

(** [l[idx] = vals] for an index list and as many values, in order: a later
    assignment to the same index wins. *)
Fixpoint put {A} (l : list A) (idx : list nat) (vals : list A) : list A :=
  match idx, vals with
  | i :: idx', v :: vals' => put (<[i := v]> l) idx' vals'
  | _, _ => l
  end.

(** [l[idx] = vals] with numpy's checks: every index in range, and [vals] of
    size one (broadcast) or of the size of [idx]. *)
Definition setitem_list {A} (l : list A) (idx : list nat) (vals : list A)
  : result (list A) :=
  if forallb (fun i => i <? length l) idx then
    match vals with
    | [v] => Ok (put l idx (replicate (length idx) v))
    | _ => if length vals =? length idx then Ok (put l idx vals)
           else Raise ValueError
    end
  else Raise IndexError.

Definition setitem_array (a : ndarray) (idx : list nat) (vals : ndarray)
  : result ndarray :=
  match a with
  | BoolArr l => l' <~ setitem_list l idx (as_bools vals) ;; Ok (BoolArr l')
  | FloatArr l => l' <~ setitem_list l idx (as_floats vals) ;; Ok (FloatArr l')
  end.

(** [l[i]] for one index, and [l[idx]] for an index list. *)
Definition index {A} (l : list A) (i : nat) : result A :=
  match l !! i with Some x => Ok x | None => Raise IndexError end.
Definition take_idx {A} (l : list A) (idx : list nat) : result (list A) :=
  mapR (index l) idx.

(** [l[mask]] for a boolean mask of the length of [l]. *)
Fixpoint compress {A} (mask : list bool) (l : list A) : list A :=
  match mask, l with
  | m :: mask', x :: l' => if m then x :: compress mask' l' else compress mask' l'
  | _, _ => []
  end.

(** [sp.where(mask)[0]], also [toindices]: the positions holding [True]. *)
Fixpoint where_from (i : nat) (mask : list bool) : list nat :=
  match mask with
  | [] => []
  | m :: mask' => if m then i :: where_from (S i) mask' else where_from (S i) mask'
  end.
Definition where_ (mask : list bool) : list nat := where_from 0 mask.

(** [sp.in1d(a, b)]: for each element of [a], whether it occurs in [b]. *)
Definition in1d (a b : list nat) : list bool :=
  map (fun x => bool_decide (x ∈ b)) a.

(** [l[mask]] and [l[mask] = vals] with numpy's checks: the mask has the
    length of [l]. *)
Definition getitem_mask {A} (l : list A) (mask : list bool) : result (list A) :=
  if length mask =? length l then Ok (compress mask l) else Raise IndexError.

Definition setitem_mask {A} (l : list A) (mask : list bool) (vals : list A)
  : result (list A) :=
  if length mask =? length l then setitem_list l (where_ mask) vals
  else Raise IndexError.

(** An array used as a mask has to be of boolean dtype. *)
Definition as_mask (a : ndarray) : result (list bool) :=
  match a with BoolArr l => Ok l | FloatArr _ => Raise IndexError end.

(** [sp.sum]: in exact arithmetic the order of summation is immaterial. *)
Definition sp_sum (l : list scalar) : scalar := foldr sadd zero l.

(** [sp.unique]: the sorted distinct values; [NaN] sorts last and, being
    equal to nothing, is never merged. *)
Fixpoint insert_unique (x : scalar) (l : list scalar) : list scalar :=
  match l with
  | [] => [x]
  | y :: l' =>
      if seqb x y then l
      else if sleb x y then x :: l
      else y :: insert_unique x l'
  end.
Definition sp_unique (l : list scalar) : list scalar :=
  foldr insert_unique [] l.

(** [sp.amax] and [sp.amin]: a [NaN] anywhere gives [NaN]; an empty array is
    an error. *)
Definition smax (x y : scalar) : scalar :=
  match x, y with
  | Num a, Num b => if bool_decide (a <= b)%Qc then y else x
  | _, _ => NaN
  end.
Definition smin (x y : scalar) : scalar :=
  match x, y with
  | Num a, Num b => if bool_decide (a <= b)%Qc then x else y
  | _, _ => NaN
  end.
Definition amax (l : list scalar) : result scalar :=
  match l with [] => Raise ValueError | x :: l' => Ok (foldl smax x l') end.
Definition amin (l : list scalar) : result scalar :=
  match l with [] => Raise ValueError | x :: l' => Ok (foldl smin x l') end.

(** ** Sparse matrices in coordinate format *)

(** A [coo_matrix]: three parallel arrays of one size; entry [(i, j)] of
    the matrix is the sum of the [data] of the triples at [(i, j)]. *)
Record coo_matrix : Type := mk_coo {
  row : list nat;
  col : list nat;
  data : list scalar;
  shape : nat
}.

Definition set_row (m : coo_matrix) (r : list nat) : coo_matrix :=
  mk_coo r (col m) (data m) (shape m).
Definition set_col (m : coo_matrix) (c : list nat) : coo_matrix :=
  mk_coo (row m) c (data m) (shape m).
Definition set_data (m : coo_matrix) (d : list scalar) : coo_matrix :=
  mk_coo (row m) (col m) d (shape m).

Definition triples (m : coo_matrix) : list (nat * nat * scalar) :=
  zip (zip (row m) (col m)) (data m).

(** The data of the triples selected by a test on (row, column). *)
Definition select (p : nat -> nat -> bool) (m : coo_matrix) : list scalar :=
  map snd (filter (fun t => p (fst (fst t)) (snd (fst t))) (triples m)).

Definition entry (m : coo_matrix) (i j : nat) : scalar :=
  sp_sum (select (fun r c => bool_decide (r = i) && bool_decide (c = j)) m).

Definition row_sum (m : coo_matrix) (i : nat) : scalar :=
  sp_sum (select (fun r _ => bool_decide (r = i)) m).

Definition offdiag_row_sum (m : coo_matrix) (i : nat) : scalar :=
  sp_sum (select (fun r c => bool_decide (r = i) && negb (bool_decide (c = i))) m).

(** The triples of one row, in storage order. *)
Definition row_entries (m : coo_matrix) (i : nat) : list (nat * nat * scalar) :=
  filter (fun t => fst (fst t) = i) (triples m).

(** [m.sum(axis=0)]: the column sums, and [m.diagonal()]. *)
Definition col_sums (m : coo_matrix) : list scalar :=
  map (fun j => sp_sum (select (fun _ c => bool_decide (c = j)) m))
      (seq 0 (shape m)).
Definition diagonal (m : coo_matrix) : list scalar :=
  map (fun j => entry m j j) (seq 0 (shape m)).

(** [scipy.sparse.csgraph.laplacian(m)] for a sparse [m], not normed, with
    the default in-degree: [L = D - m], where [D] is the diagonal matrix of
    the column sums of [m] without its diagonal.  As in the library,
    [w = m.sum(axis=0) - m.diagonal()], then [data *= -1], then [setdiag(w)],
    which drops the stored diagonal triples and appends [(i, i, w i)] for
    every [i]. *)
Definition laplacian (m : coo_matrix) : coo_matrix :=
  let w := zip_with ssub (col_sums m) (diagonal m) in
  let neg := map sneg (data m) in
  let keep := zip_with (fun r c => negb (bool_decide (c = r)) || (shape m <=? r))
                       (row m) (col m) in
  {| row := compress keep (row m) ++ seq 0 (shape m);
     col := compress keep (col m) ++ seq 0 (shape m);
     data := compress keep neg ++ w;
     shape := shape m |}.

(** ** The network, the phase and the algorithm object *)

(** The network is an external collaborator: [conns] is its
    ['throat.conns'] array, [domain_area] and [domain_length] its geometric
    queries, which the transport class only calls. *)
Record Network : Type := mk_network {
  net_Np : nat;
  conns : list (nat * nat);
  domain_area : list nat -> scalar;
  domain_length : list nat -> list nat -> scalar
}.

Record Simulation : Type := mk_simulation {
  network : Network;
  phases : gmap string (gmap string ndarray)
}.

(** [self.settings]: the entries the transport methods read. *)
Record Settings : Type := mk_settings {
  phase : string;
  conductance : option string;
  quantity : option string
}.

(** The object: its dictionary part [items] and the attributes [A], [b]. *)
Record GenericLinearTransport : Type := mk_alg {
  simulation : Simulation;
  settings : Settings;
  items : gmap string ndarray;
  attr_A : option coo_matrix;
  attr_b : option (list scalar)
}.

Definition Np (self : GenericLinearTransport) : nat :=
  net_Np (network (simulation self)).

Definition with_items (self : GenericLinearTransport) (d : gmap string ndarray)
  : GenericLinearTransport :=
  mk_alg (simulation self) (settings self) d (attr_A self) (attr_b self).

Definition with_A (self : GenericLinearTransport) (m : coo_matrix)
  : GenericLinearTransport :=
  mk_alg (simulation self) (settings self) (items self) (Some m) (attr_b self).

Definition with_b (self : GenericLinearTransport) (v : list scalar)
  : GenericLinearTransport :=
  mk_alg (simulation self) (settings self) (items self) (attr_A self) (Some v).

(** ** The method monad: state and exceptions *)

Definition M (A : Type) : Type :=
  GenericLinearTransport -> GenericLinearTransport * result A.

Definition ret {A} (a : A) : M A := fun self => (self, Ok a).
Definition raise {A} (e : exn) : M A := fun self => (self, Raise e).
Definition bind {A B} (m : M A) (f : A -> M B) : M B :=
  fun self =>
    match m self with
    | (self', Ok a) => f a self'
    | (self', Raise e) => (self', Raise e)
    end.
Definition lift {A} (r : result A) : M A := fun self => (self, r).
Definition get : M GenericLinearTransport := fun self => (self, Ok self).

Notation "x <- m ;; k" := (bind m (fun x => k))
  (at level 100, m at next level, right associativity).
Notation "m ;;; k" := (bind m (fun _ => k))
  (at level 100, right associativity).

Definition when (c : bool) (m : M unit) : M unit := if c then m else ret tt.

(** [key in self.keys()] *)
Definition contains (key : string) : M bool :=
  fun self => (self, Ok (bool_decide (is_Some (items self !! key)))).

(** [self[key]] *)
Definition getitem (key : string) : M ndarray :=
  fun self =>
    match items self !! key with
    | Some a => (self, Ok a)
    | None => (self, Raise KeyError)
    end.

(** Modelled from the spec: [__setitem__] of the base class is not part of
    the sources; a scalar stored under a pore key is (re)initialised to an
    array holding that value over every node. *)
Definition setitem (key : string) (v : ndarray) : M unit :=
  fun self => (with_items self (<[key := full (Np self) v]> (items self)), Ok tt).

(** [dict.__setitem__]: the plain store of an array under a key. *)
Definition setitem_full (key : string) (a : ndarray) : M unit :=
  fun self => (with_items self (<[key := a]> (items self)), Ok tt).

(** [self[key][idx] = vals]: the stored array is updated in place. *)
Definition setitem_at (key : string) (idx : list nat) (vals : ndarray) : M unit :=
  a <- getitem key ;;
  a' <- lift (setitem_array a idx vals) ;;
  setitem_full key a'.

(** Modelled from the spec: [_parse_mode] of the base class is not part of
    the sources; it validates a string against the allowed enumeration and
    fails with [InvalidArgument] otherwise. *)
Definition _parse_mode (mode : string) (allowed : list string) : M string :=
  if bool_decide (mode ∈ allowed) then ret mode else raise InvalidArgument.

(** Modelled from the spec: [_parse_indices] of the base class is not part
    of the sources; it resolves the nodes to a concrete index set and fails
    with [InvalidArgument] if any index is out of range. *)
Definition _parse_indices (pores : list nat) : M (list nat) :=
  fun self =>
    if forallb (fun i => i <? Np self) pores then (self, Ok pores)
    else (self, Raise InvalidArgument).

(** [self.Ps] *)
Definition Ps : M (list nat) := fun self => (self, Ok (seq 0 (Np self))).

(** ** Boundary condition store *)

Definition remove_BC (pores : option (list nat)) : M unit :=
  pores <- match pores with None => Ps | Some p => ret p end ;;
  has_dirichlet <- contains "pore.dirichlet" ;;
  when has_dirichlet
    (setitem_at "pore.dirichlet" pores (BoolArr [false]) ;;;
     setitem_at "pore.dirichlet_value" pores (FloatArr [NaN])) ;;;
  has_neumann <- contains "pore.neumann" ;;
  when has_neumann
    (setitem_at "pore.neumann" pores (BoolArr [false]) ;;;
     setitem_at "pore.neumann_value" pores (FloatArr [NaN])).

(** Lines 103 to 105, and with the same pattern lines 108 to 111: the array
    under [key] is (re)initialised to [init] over every node if it does not
    exist yet or the mode is overwrite, then [vals] are stored at the given
    nodes. *)
Definition store_at (key : string) (init vals : ndarray) (pores : list nat)
    (mode : string) : M unit :=
  present <- contains key ;;
  when (negb present || bool_decide (mode = "overwrite")) (setitem key init) ;;;
  setitem_at key pores vals.

Definition set_boundary_conditions (pores : list nat) (bctype : string)
    (bcvalues : list scalar) (mode : string) : M unit :=
  bctype <- _parse_mode bctype ["dirichlet"; "neumann"; "neumann_group"] ;;
  mode <- _parse_mode mode ["merge"; "overwrite"; "remove"] ;;
  pores <- _parse_indices pores ;;
  if bool_decide (mode = "remove") then remove_BC (Some pores)
  else
    let values := bcvalues in
    if (1 <? length values) && negb (length values =? length pores)
    then raise InvalidArgument
    else
      store_at ("pore." +:+ bctype) (BoolArr [false]) (BoolArr [true])
        pores mode ;;;
      store_at ("pore." +:+ bctype +:+ "_value") (FloatArr [NaN])
        (FloatArr values) pores mode.

Definition set_dirchlet_BC (pores : list nat) (values : list scalar) : M unit :=
  set_boundary_conditions pores "dirichlet" values "merge".

Definition set_neumann_BC (pores : list nat) (values : list scalar) : M unit :=
  set_boundary_conditions pores "neumann" values "merge".

(** ** Network queries used by the transport class *)

Definition inside (P : list nat) (p : nat) : bool := bool_decide (p ∈ P).

(** An edge crosses the boundary of [P]: exactly one endpoint is inside. *)
Definition crosses (P : list nat) (e : nat * nat) : bool :=
  xorb (inside P (fst e)) (inside P (snd e)).

(** Modelled from the spec: [find_neighbor_throats] of the network is not
    part of the sources; in the "not-intersection" mode it finds all edges
    with exactly one endpoint inside the group and the other strictly
    outside; flattened it answers for the node set as one group, otherwise
    for one group per given node. *)
Definition find_neighbor_throats_flat (net : Network) (pores : list nat)
  : list nat :=
  where_ (map (crosses pores) (conns net)).
Definition find_neighbor_throats (net : Network) (pores : list nat)
  : list (list nat) :=
  map (fun p => find_neighbor_throats_flat net [p]) pores.

(** Modelled from the spec: [find_connected_pores] of the network is not part
    of the sources; it returns the pairs of node indices of the edges. *)
Definition find_connected_pores (net : Network) (throats : list nat)
  : result (list (nat * nat)) :=
  take_idx (conns net) throats.

(** Modelled from the spec: [create_adjacency_matrix] of the network is not
    part of the sources; it builds a symmetric weighted adjacency structure
    in which every edge contributes its weight in both directions.  The three
    arrays of a coordinate matrix have one size. *)
Definition create_adjacency_matrix (net : Network) (weights : list scalar)
  : result coo_matrix :=
  if length weights =? length (conns net) then
    Ok {| row := map fst (conns net) ++ map snd (conns net);
          col := map snd (conns net) ++ map fst (conns net);
          data := weights ++ weights;
          shape := net_Np net |}
  else Raise ValueError.

(** Modelled from the spec: [toindices] and [pores] of the base class are not
    part of the sources; they give the indices of the nodes at which a mask,
    or the label array stored under a key, holds. *)
Definition toindices (mask : ndarray) : list nat := where_ (as_bools mask).
Definition pores_ (label : string) : M (list nat) :=
  a <- getitem label ;; ret (toindices a).

(** ** Reading the settings *)

Definition phase_item (key : option string) : M ndarray :=
  fun self =>
    match phases (simulation self) !! phase (settings self) with
    | None => (self, Raise KeyError)
    | Some ph =>
        match key with
        | None => (self, Raise KeyError)
        | Some k =>
            match ph !! k with
            | Some a => (self, Ok a)
            | None => (self, Raise KeyError)
            end
        end
    end.

Definition getitem_opt (key : option string) : M ndarray :=
  match key with None => raise KeyError | Some k => getitem k end.

Definition contains_opt (key : option string) : M bool :=
  match key with None => ret false | Some k => contains k end.

Definition get_network : M Network :=
  fun self => (self, Ok (network (simulation self))).

Definition set_A (m : coo_matrix) : M unit := fun self => (with_A self m, Ok tt).
Definition set_b (v : list scalar) : M unit := fun self => (with_b self v, Ok tt).

(** ** Matrix and right-hand side *)

(** Lines 162 to 166 of [build_A]: the matrix before the rows of Dirichlet
    nodes are edited. *)
Definition build_A_laplacian : M coo_matrix :=
  network <- get_network ;;
  self <- get ;;
  g <- phase_item (conductance (settings self)) ;;
  am <- lift (create_adjacency_matrix network (map sneg (as_floats g))) ;;
  ret (laplacian am).

(** Lines 169 to 180 of [build_A]: the triples on the rows of Dirichlet nodes
    are removed, then one unit diagonal triple per Dirichlet node is
    appended. *)
Definition build_A_dirichlet (A : coo_matrix) : M coo_matrix :=
  label <- getitem "pore.dirichlet" ;;
  let P_bc := toindices label in
  let indr := map negb (in1d (row A) P_bc) in
  let A := set_col A (compress indr (col A)) in
  let A := set_row A (compress indr (row A)) in
  let A := set_data A (compress indr (data A)) in
  let A := set_row A (row A ++ P_bc) in
  let A := set_col A (col A ++ P_bc) in
  let A := set_data A (data A ++ map (fun _ => one) P_bc) in
  ret A.

Definition build_A : M coo_matrix :=
  A <- build_A_laplacian ;;
  has_neumann <- contains "pore.neumann" ;;
  when has_neumann (ret tt) ;;;
  has_dirichlet <- contains "pore.dirichlet" ;;
  A <- (if has_dirichlet then build_A_dirichlet A else ret A) ;;
  set_A A ;;;
  ret A.

Definition build_b : M (list scalar) :=
  self <- get ;;
  let b := replicate (Np self) zero in
  has_dirichlet <- contains "pore.dirichlet" ;;
  b <- (if has_dirichlet then
          ind <- getitem "pore.dirichlet" ;;
          values <- getitem "pore.dirichlet_value" ;;
          ind <- lift (as_mask ind) ;;
          rhs <- lift (getitem_mask (as_floats values) ind) ;;
          lift (setitem_mask b ind rhs)
        else ret b) ;;
  has_neumann <- contains "pore.neumann" ;;
  b <- (if has_neumann then
          ind <- getitem "pore.neumann" ;;
          values <- getitem "pore.neumann_value" ;;
          ind <- lift (as_mask ind) ;;
          rhs <- lift (getitem_mask (map sneg (as_floats values)) ind) ;;
          lift (setitem_mask b ind rhs)
        else ret b) ;;
  set_b b ;;;
  ret b.

(** ** Rates and the effective property *)

(** The body of the loop of [rate] for the throats and the pores of one
    group. *)
Definition rate_of_group (network : Network) (cond quant : list scalar)
    (throats P : list nat) : result scalar :=
  cn <~ find_connected_pores network throats ;;
  let p1 := map fst cn in
  let p2 := map snd cn in
  let outer := map negb (in1d p1 P) in
  p2o <~ getitem_mask p2 outer ;;
  pores1 <~ setitem_mask p1 outer p2o ;;
  p1o <~ getitem_mask p1 outer ;;
  pores2 <~ setitem_mask p2 outer p1o ;;
  X1 <~ take_idx quant pores1 ;;
  X2 <~ take_idx quant pores2 ;;
  g <~ take_idx cond throats ;;
  Ok (sp_sum (zip_with smul g (zip_with ssub X2 X1))).

Definition rate (pores : list nat) (mode : string) : M (list scalar) :=
  network <- get_network ;;
  self <- get ;;
  conductance <- phase_item (conductance (settings self)) ;;
  quantity <- getitem_opt (quantity (settings self)) ;;
  pores <- _parse_indices pores ;;
  if bool_decide (mode = "group") then
    let t := find_neighbor_throats_flat network pores in
    lift (mapR (fun _ => rate_of_group network (as_floats conductance)
                           (as_floats quantity) t pores)
               (seq 0 1))
  else if bool_decide (mode = "single") then
    let t := find_neighbor_throats network pores in
    lift (mapR (fun i =>
                  match t !! i, pores !! i with
                  | Some throats, Some P =>
                      rate_of_group network (as_floats conductance)
                        (as_floats quantity) throats [P]
                  | _, _ => Raise IndexError
                  end)
               (seq 0 (length t)))
  else raise UnboundLocalError.

Definition _calc_eff_prop : M scalar :=
  network <- get_network ;;
  self <- get ;;
  solved <- contains_opt (quantity (settings self)) ;;
  if negb solved then raise PreconditionViolation
  else
    Ps <- pores_ "pore.dirichlet" ;;
    values <- getitem "pore.dirichlet_value" ;;
    let values := as_floats values in
    at_Ps <- lift (take_idx values Ps) ;;
    let BCs := sp_unique at_Ps in
    hi <- lift (amax BCs) ;;
    let inlets := where_ (map (fun v => seqb v hi) values) in
    lo <- lift (amin BCs) ;;
    let outlets := where_ (map (fun v => seqb v lo) values) in
    let A := domain_area network inlets in
    let L := domain_length network inlets outlets in
    flow <- rate inlets "group" ;;
    BCs0 <- lift (index BCs 0) ;;
    BCs1 <- lift (index BCs 1) ;;
    ret (sp_sum flow * L / A / (BCs0 - BCs1))%S.

(** ** Observations and invariants of the object *)

(** The label and the value a node carries for one kind of condition; a
    missing array reads as unset. *)
Definition label_at (self : GenericLinearTransport) (kind : string) (p : nat)
  : bool :=
  match items self !! ("pore." +:+ kind) with
  | Some a => default false (as_bools a !! p)
  | None => false
  end.

Definition value_at (self : GenericLinearTransport) (kind : string) (p : nat)
  : scalar :=
  match items self !! ("pore." +:+ kind +:+ "_value") with
  | Some a => default NaN (as_floats a !! p)
  | None => NaN
  end.

Definition has_key (self : GenericLinearTransport) (key : string) : Prop :=
  is_Some (items self !! key).

(** The label array of a kind is stored exactly when its value array is. *)
Definition paired (self : GenericLinearTransport) : Prop :=
  forall kind, kind ∈ ["dirichlet"; "neumann"] ->
    (has_key self ("pore." +:+ kind) <->
     has_key self ("pore." +:+ kind +:+ "_value")).

(** An object on which no boundary condition was ever set. *)
Definition fresh (self : GenericLinearTransport) : Prop :=
  forall kind, kind ∈ ["dirichlet"; "neumann"] ->
    items self !! ("pore." +:+ kind) = None /\
    items self !! ("pore." +:+ kind +:+ "_value") = None.

(** The stored arrays of a kind, when present, are a boolean and a float
    array over every node. *)
Definition kind_wf (self : GenericLinearTransport) (kind : string) : Prop :=
  (forall a, items self !! ("pore." +:+ kind) = Some a ->
     exists l, a = BoolArr l /\ length l = Np self) /\
  (forall a, items self !! ("pore." +:+ kind +:+ "_value") = Some a ->
     exists l, a = FloatArr l /\ length l = Np self).

Definition wf (self : GenericLinearTransport) : Prop :=
  paired self /\ kind_wf self "dirichlet" /\ kind_wf self "neumann".

(** The calls of the boundary condition store, and a run of them; a call
    that raises leaves behind the state it reached. *)
Inductive call : Type :=
  | SetBC (pores : list nat) (bctype : string) (bcvalues : list scalar)
          (mode : string)
  | RemoveBC (pores : option (list nat)).

Definition exec (self : GenericLinearTransport) (c : call)
  : GenericLinearTransport :=
  match c with
  | SetBC pores bctype bcvalues mode =>
      fst (set_boundary_conditions pores bctype bcvalues mode self)
  | RemoveBC pores => fst (remove_BC pores self)
  end.

Definition exec_all (self : GenericLinearTransport) (cs : list call)
  : GenericLinearTransport :=
  foldl exec self cs.

(** The conductance array bound by [setup], one value per edge. *)
Definition conductance_is (self : GenericLinearTransport) (g : list scalar)
  : Prop :=
  exists ph k,
    phases (simulation self) !! phase (settings self) = Some ph /\
    conductance (settings self) = Some k /\
    ph !! k = Some (FloatArr g) /\
    length g = length (conns (network (simulation self))).

(** The quantity field written by [run], one value per node. *)
Definition quantity_is (self : GenericLinearTransport) (x : list scalar)
  : Prop :=
  exists k,
    quantity (settings self) = Some k /\
    items self !! k = Some (FloatArr x) /\
    length x = Np self.

(** Every edge of the network joins two of its nodes. *)
Definition valid_network (net : Network) : Prop :=
  Forall (fun e => fst e < net_Np net /\ snd e < net_Np net) (conns net).

(** The nodes holding a Dirichlet condition. *)
Definition dirichlet_nodes (self : GenericLinearTransport) : list nat :=
  match items self !! "pore.dirichlet" with
  | Some a => toindices a
  | None => []
  end.

(** ** The statements of the specification, in its own terms *)

(** The conductances of the edges joining [i] and [j]. *)
Definition joins (i j : nat) (e : nat * nat) : bool :=
  bool_decide (e = (i, j)) || bool_decide (e = (j, i)).
Definition conductance_between (net : Network) (g : list scalar) (i j : nat)
  : scalar :=
  sp_sum (compress (map (joins i j) (conns net)) g).

(** The endpoint of a boundary edge inside the group, and the one outside. *)
Definition inner (P : list nat) (e : nat * nat) : nat :=
  if inside P (fst e) then fst e else snd e.
Definition outer (P : list nat) (e : nat * nat) : nat :=
  if inside P (fst e) then snd e else fst e.

(** The net rate of a group: the sum over its boundary edges of
    conductance times (outer quantity minus inner quantity). *)
Definition boundary_rate (net : Network) (g x : list scalar) (P : list nat)
  : scalar :=
  sp_sum
    (map (fun eg =>
            (snd eg * (default NaN (x !! outer P (fst eg))
                       - default NaN (x !! inner P (fst eg))))%S)
         (filter (fun eg => crosses P (fst eg) = true) (zip (conns net) g))).

(** ** A three node chain *)

Module Chain.

(** Nodes 0, 1, 2 in a row, unit conductances, unit area, length two. *)
Definition net : Network :=
  mk_network 3 [(0, 1); (1, 2)] (fun _ => one) (fun _ _ => (one + one)%S).

Definition water : gmap string ndarray :=
  {[ "throat.conductance" := FloatArr [one; one] ]}.

Definition sim : Simulation := mk_simulation net {[ "water" := water ]}.

Definition alg0 : GenericLinearTransport :=
  mk_alg sim
    (mk_settings "water" (Some "throat.conductance") (Some "pore.quantity"))
    ∅ None None.

(** Dirichlet value one at node 0 and zero at node 2. *)
Definition alg1 : GenericLinearTransport :=
  exec_all alg0 [SetBC [0] "dirichlet" [one] "merge";
                 SetBC [2] "dirichlet" [zero] "merge"].

Definition half : scalar := (one / (one + one))%S.

(** The solved field: linear between the two ends. *)
Definition alg2 : GenericLinearTransport :=
  fst (setitem_full "pore.quantity" (FloatArr [one; half; zero]) alg1).

End Chain.

(** ** Auxiliary notions for the store *)

(** The array that [store_at] writes into: the stored one, or a fresh one. *)
Definition target (key : string) (init : ndarray) (mode : string)
    (self : GenericLinearTransport) : ndarray :=
  match items self !! key with
  | Some a => if bool_decide (mode = "overwrite") then full (Np self) init else a
  | None => full (Np self) init
  end.

Definition reinit (key : string) (mode : string)
    (self : GenericLinearTransport) : bool :=
  negb (bool_decide (is_Some (items self !! key)))
  || bool_decide (mode = "overwrite").

(** A computation every run of which relates the state before to the state
    after, whether it returns or raises. *)
Definition preserves {A} (R : relation GenericLinearTransport) (m : M A)
  : Prop :=
  forall self, R self (fst (m self)).

(** No key of the dictionary is added or dropped. *)
Definition same_keys : relation GenericLinearTransport :=
  fun self self' => forall k, has_key self' k <-> has_key self k.

(** The object with one array of the dictionary replaced. *)
Definition upd (key : string) (a : ndarray) (self : GenericLinearTransport)
  : GenericLinearTransport :=
  with_items self (<[key := a]> (items self)).

(** One value stored at every index of a list. *)
Definition mark {A} (l : list A) (idx : list nat) (v : A) : list A :=
  put l idx (replicate (length idx) v).

(** The values numpy stores for [l[idx] = vals]: [vals], broadcast if it
    has a single element. *)
Definition broadcast {A} (idx : list nat) (vals : list A) : list A :=
  match vals with [v] => replicate (length idx) v | _ => vals end.

(** The conditions of one kind cleared at the given nodes. *)
Definition cleared (kind : string) (pores : list nat)
    (self : GenericLinearTransport) : GenericLinearTransport :=
  match items self !! ("pore." +:+ kind),
        items self !! ("pore." +:+ kind +:+ "_value") with
  | Some (BoolArr l), Some (FloatArr v) =>
      upd ("pore." +:+ kind +:+ "_value") (FloatArr (mark v pores NaN))
        (upd ("pore." +:+ kind) (BoolArr (mark l pores false)) self)
  | _, _ => self
  end.

(** The label and value lists of a kind, read as all unset when missing. *)
Definition labels_of (self : GenericLinearTransport) (kind : string)
  : list bool :=
  match items self !! ("pore." +:+ kind) with
  | Some a => as_bools a
  | None => replicate (Np self) false
  end.

Definition values_of (self : GenericLinearTransport) (kind : string)
  : list scalar :=
  match items self !! ("pore." +:+ kind +:+ "_value") with
  | Some a => as_floats a
  | None => replicate (Np self) NaN
  end.

(** ** Auxiliary notions for masks and matrices *)

(** [b] with the entries of [v] at the positions where the mask holds. *)
Fixpoint overlay {A} (b : list A) (mask : list bool) (v : list A) : list A :=
  match b, mask, v with
  | x :: b', m :: mask', y :: v' => (if m then y else x) :: overlay b' mask' v'
  | _, _, _ => []
  end.

(** The adjacency structure built for edge weights [w]. *)
Definition adjacency (net : Network) (w : list scalar) : coo_matrix :=
  {| row := map fst (conns net) ++ map snd (conns net);
     col := map snd (conns net) ++ map fst (conns net);
     data := w ++ w;
     shape := net_Np net |}.

(** The three arrays of a coordinate matrix have one size. *)
Definition coo_wf (m : coo_matrix) : Prop :=
  length (row m) = length (data m) /\ length (col m) = length (data m).

(** A triple with its value negated, the triples [setdiag] keeps, and the
    value it puts on the diagonal. *)
Definition negate_triple (t : nat * nat * scalar) : nat * nat * scalar :=
  (fst t, sneg (snd t)).

Definition kept (n : nat) (t : nat * nat * scalar) : bool :=
  negb (bool_decide (snd (fst t) = fst (fst t))) || (n <=? fst (fst t)).

Definition degree (m : coo_matrix) (j : nat) : scalar :=
  (sp_sum (select (fun _ c => bool_decide (c = j)) m) - entry m j j)%S.

(** The sum of the values of the triples that satisfy a test. *)
Definition tsum (P : nat * nat * scalar -> Prop) `{!forall t, Decision (P t)}
    (T : list (nat * nat * scalar)) : scalar :=
  sp_sum (map snd (filter P T)).

Definition swap_triple (t : nat * nat * scalar) : nat * nat * scalar :=
  (snd (fst t), fst (fst t), snd t).

(** The edges with their conductances, as triples, and with both
    orientations. *)
Definition edges (net : Network) (g : list scalar)
  : list (nat * nat * scalar) :=
  zip (conns net) g.
Definition both_ways (net : Network) (g : list scalar)
  : list (nat * nat * scalar) :=
  edges net g ++ map swap_triple (edges net g).

(** The strict order in which [sp_unique] lists its values. *)
Definition slt (x y : scalar) : Prop := sleb x y = true /\ seqb x y = false.

(** The inlet and outlet node sets of [_calc_eff_prop]: the nodes holding
    the largest, respectively the smallest, Dirichlet value. *)
Definition nodes_at (values : list scalar) (v : scalar) : list nat :=
  where_ (map (fun u => seqb u v) values).

(** The arrays of both kinds are well-formed; the exceptions a computation
    can raise. *)
Definition arrays_wf (self : GenericLinearTransport) : Prop :=
  kind_wf self "dirichlet" /\ kind_wf self "neumann".

Definition keeps_arrays : relation GenericLinearTransport :=
  fun self self' => arrays_wf self -> arrays_wf self'.

Definition raises_only {A} (E : exn -> Prop) (m : M A) : Prop :=
  forall self e, snd (m self) = Raise e -> E e.

Definition numpy_error (e : exn) : Prop :=
  e = KeyError \/ e = IndexError \/ e = ValueError.

(** ** Auxiliary notions for the frame of the store and the right-hand side *)

(** The keys the boundary condition store writes. *)
Definition bc_keys : list string :=
  ["pore.dirichlet"; "pore.dirichlet_value";
   "pore.neumann"; "pore.neumann_value";
   "pore.neumann_group"; "pore.neumann_group_value"].

(** Nothing but the arrays under the given keys differs. *)
Definition same_outside (keys : list string)
  : relation GenericLinearTransport :=
  fun self self' =>
    simulation self' = simulation self /\
    settings self' = settings self /\
    attr_A self' = attr_A self /\
    attr_b self' = attr_b self /\
    forall k, k ∉ keys -> items self' !! k = items self !! k.

(** The vector [build_b] assembles: zeros, overlaid with the Dirichlet
    values, then with the negated Neumann values. *)
Definition rhs (self : GenericLinearTransport) : list scalar :=
  overlay
    (overlay (replicate (Np self) zero) (labels_of self "dirichlet")
       (values_of self "dirichlet"))
    (labels_of self "neumann") (map sneg (values_of self "neumann")).

(** ** Auxiliary notions for rates *)

(** What one edge contributes to the net rate of a group: its conductance
    times (outer quantity minus inner quantity) if it crosses the boundary
    of the group, nothing otherwise. *)
Definition flux (x : list scalar) (P : list nat) (eg : nat * nat * scalar)
  : scalar :=
  if crosses P (fst eg)
  then (snd eg * (default NaN (x !! outer P (fst eg))
                  - default NaN (x !! inner P (fst eg))))%S
  else zero.

(** ** More states of the chain *)

(** The chain after the given calls of the store, with a quantity field
    written as [run] writes it. *)
Definition solved_chain (cs : list call) (x : list scalar)
  : GenericLinearTransport :=
  fst (setitem_full "pore.quantity" (FloatArr x) (exec_all Chain.alg0 cs)).

(** ** The linear system *)

(** Row [i] of the product of a coordinate matrix with a vector: over the
    triples of the row, the sum of value times the entry of the vector at
    the column of the triple. *)
Definition row_product (A : coo_matrix) (x : list scalar) (i : nat) : scalar :=
  sp_sum (map (fun t => (snd t * default NaN (x !! snd (fst t)))%S)
              (row_entries A i)).

Definition matvec (A : coo_matrix) (x : list scalar) : list scalar :=
  map (row_product A x) (seq 0 (shape A)).

(** [x] is an exact solution of [A x = b]. *)
Definition solves (A : coo_matrix) (b x : list scalar) : Prop :=
  length x = shape A /\ matvec A x = b.

(** The triples of the matrix [build_A] returns: those of the Laplacian
    outside the rows of the Dirichlet nodes, then a unit diagonal triple for
    each Dirichlet node. *)
Definition system_triples (self : GenericLinearTransport) (g : list scalar)
  : list (nat * nat * scalar) :=
  filter (fun t => fst (fst t) ∉ dirichlet_nodes self)
    (triples (laplacian (adjacency (network (simulation self)) (map sneg g))))
  ++ map (fun p => (p, p, one)) (dirichlet_nodes self).

(** The value a computation returned, or a default. *)
Definition returned {A} (d : A) (r : result A) : A :=
  match r with Ok a => a | Raise _ => d end.

(** ** Setup and the solve *)

Definition with_settings (self : GenericLinearTransport) (s : Settings)
  : GenericLinearTransport :=
  mk_alg (simulation self) s (items self) (attr_A self) (attr_b self).

(** [self.settings['conductance'] = key] and [self.settings['quantity'] = key] *)
Definition set_conductance (key : string) : M unit :=
  fun self =>
    (with_settings self
       (mk_settings (phase (settings self)) (Some key)
          (quantity (settings self))), Ok tt).

Definition set_quantity (key : string) : M unit :=
  fun self =>
    (with_settings self
       (mk_settings (phase (settings self)) (conductance (settings self))
          (Some key)), Ok tt).

(** [sp.isnan] *)
Definition isnan (x : scalar) : bool :=
  match x with NaN => true | Num _ => false end.

(** [self[key] = a] for the key read from the settings. *)
Definition setitem_opt (key : option string) (a : ndarray) : M unit :=
  match key with None => raise KeyError | Some k => setitem_full k a end.

Section Setup.

(** Modelled from the spec: [_parse_prop] of the base class is not part of
    the sources; it validates a property name against the element it lives
    on.  It is taken as a parameter: a function of the name and the element
    that returns the name to bind, or raises. *)
Variable _parse_prop : string -> string -> result string.

Definition setup (conductance_name quantity_name : string) : M unit :=
  c <- lift (_parse_prop conductance_name "throat") ;;
  set_conductance c ;;;
  q <- lift (_parse_prop quantity_name "pore") ;;
  set_quantity q ;;;
  self <- get ;;
  g <- phase_item (conductance (settings self)) ;;
  if existsb isnan (as_floats g) then raise PreconditionViolation
  else ret tt.

End Setup.

Section Run.

(** Modelled from the spec: the sparse solver is not part of the sources;
    any solver that, given a square sparse matrix and a dense vector,
    returns a dense solution vector or fails.  It is taken as a
    parameter. *)
Variable spsolve : coo_matrix -> list scalar -> result (list scalar).

(** [self.A] and [self.b], read for the solver, are what [build_A] and
    [build_b] have just stored, which is what they return. *)
Definition run : M unit :=
  A <- build_A ;;
  b <- build_b ;;
  x <- lift (spsolve A b) ;;
  self <- get ;;
  setitem_opt (quantity (settings self)) (FloatArr x).

End Run.

(** * Proofs *)

(** ** Scalars: a commutative monoid with an absorbing [NaN] *)

Ltac by_compute := apply (bool_decide_unpack _); vm_compute; exact I.

Ltac scalar_cases :=
  unfold sadd, ssub, smul, sneg, zero, one;
  repeat match goal with x : scalar |- _ => destruct x end;
  try reflexivity; try (f_equal; ring).

Lemma sadd_comm (x y : scalar) : (x + y)%S = (y + x)%S.
Proof. scalar_cases. Qed.

Lemma sadd_assoc (x y z : scalar) : (x + (y + z))%S = ((x + y) + z)%S.
Proof. scalar_cases. Qed.

Lemma sadd_zero_l (x : scalar) : (zero + x)%S = x.
Proof. scalar_cases. Qed.

Lemma sadd_zero_r (x : scalar) : (x + zero)%S = x.
Proof. scalar_cases. Qed.

Lemma sneg_sadd (x y : scalar) : (- (x + y))%S = (- x + - y)%S.
Proof. scalar_cases. Qed.

Lemma sneg_involutive (x : scalar) : (- - x)%S = x.
Proof. scalar_cases. Qed.

Lemma finite_sadd (x y : scalar) : finite x -> finite y -> finite (x + y)%S.
Proof. intros [a ->] [b ->]. eexists. reflexivity. Qed.

Lemma finite_zero : finite zero.
Proof. eexists. reflexivity. Qed.

(** Dividing twice is dividing by the product, also at zero and [NaN]. *)
Lemma sdiv_sdiv (x y z : scalar) : (x / y / z)%S = (x / (y * z))%S.
Proof.
  destruct x as [|a], y as [|b], z as [|c]; unfold sdiv, smul; try reflexivity.
  - destruct (decide (b = 0%Qc)); reflexivity.
  - destruct (decide (b = 0%Qc)) as [->|Hb].
    + destruct (decide ((0 * c)%Qc = 0%Qc)) as [_|H]; [reflexivity|].
      exfalso. apply H. ring.
    + destruct (decide (c = 0%Qc)) as [->|Hc].
      * destruct (decide ((b * 0)%Qc = 0%Qc)) as [_|H]; [reflexivity|].
        exfalso. apply H. ring.
      * destruct (decide ((b * c)%Qc = 0%Qc)) as [H|_].
        -- apply Qcmult_integral in H. tauto.
        -- f_equal. field. split; assumption.
Qed.

(** ** Sums *)

Lemma sp_sum_nil : sp_sum [] = zero.
Proof. reflexivity. Qed.

Lemma sp_sum_cons (x : scalar) (l : list scalar) :
  sp_sum (x :: l) = (x + sp_sum l)%S.
Proof. reflexivity. Qed.

Lemma sp_sum_app (l1 l2 : list scalar) :
  sp_sum (l1 ++ l2) = (sp_sum l1 + sp_sum l2)%S.
Proof.
  induction l1 as [|x l1 IH].
  - rewrite sp_sum_nil, sadd_zero_l. reflexivity.
  - rewrite <- app_comm_cons, !sp_sum_cons, IH. apply sadd_assoc.
Qed.

Lemma sp_sum_map_sneg (l : list scalar) :
  sp_sum (map sneg l) = (- sp_sum l)%S.
Proof.
  induction l as [|x l IH].
  - reflexivity.
  - rewrite map_cons, !sp_sum_cons, IH, sneg_sadd. reflexivity.
Qed.

Lemma finite_sp_sum (l : list scalar) : Forall finite l -> finite (sp_sum l).
Proof.
  induction 1 as [|x l Hx _ IH].
  - apply finite_zero.
  - rewrite sp_sum_cons. apply finite_sadd; assumption.
Qed.

Lemma sp_sum_Permutation (l1 l2 : list scalar) :
  l1 ≡ₚ l2 -> sp_sum l1 = sp_sum l2.
Proof.
  induction 1 as [|x l1 l2 _ IH|x y l|l1 l2 l3 _ IH1 _ IH2].
  - reflexivity.
  - rewrite !sp_sum_cons, IH. reflexivity.
  - rewrite !sp_sum_cons, !sadd_assoc. f_equal. apply sadd_comm.
  - congruence.
Qed.

(** ** The method monad *)

Lemma bind_Ok {A B} (m : M A) (f : A -> M B) self self' a :
  m self = (self', Ok a) -> bind m f self = f a self'.
Proof. intros H. unfold bind. rewrite H. reflexivity. Qed.

Lemma bind_Raise {A B} (m : M A) (f : A -> M B) self self' e :
  m self = (self', Raise e) -> bind m f self = (self', Raise e).
Proof. intros H. unfold bind. rewrite H. reflexivity. Qed.

Lemma _parse_mode_accepts mode allowed self :
  mode ∈ allowed -> _parse_mode mode allowed self = (self, Ok mode).
Proof. intros H. unfold _parse_mode. rewrite bool_decide_eq_true_2; done. Qed.

Lemma _parse_mode_rejects mode allowed self :
  mode ∉ allowed -> _parse_mode mode allowed self = (self, Raise InvalidArgument).
Proof. intros H. unfold _parse_mode. rewrite bool_decide_eq_false_2; done. Qed.

Lemma _parse_indices_accepts pores self :
  Forall (fun i => i < Np self) pores ->
  _parse_indices pores self = (self, Ok pores).
Proof.
  intros H. unfold _parse_indices.
  replace (forallb _ pores) with true; [reflexivity|].
  symmetry. apply forallb_forall. intros i Hi.
  apply Nat.ltb_lt. rewrite Forall_forall in H. apply H.
  apply list_elem_of_In. exact Hi.
Qed.

(** ** Validation of kind and mode (C4) *)

(** C4, as amended: [set_boundary_conditions] fails with [InvalidArgument],
    leaving the object as it was, whenever the kind is not one of
    dirichlet, neumann, neumann_group, and whenever the mode is not one of
    merge, overwrite, remove. *)
Theorem set_boundary_conditions_rejects pores bctype bcvalues mode self :
  bctype ∉ ["dirichlet"; "neumann"; "neumann_group"] \/
  mode ∉ ["merge"; "overwrite"; "remove"] ->
  set_boundary_conditions pores bctype bcvalues mode self
  = (self, Raise InvalidArgument).
Proof.
  intros H. unfold set_boundary_conditions.
  destruct (decide (bctype ∈ ["dirichlet"; "neumann"; "neumann_group"]))
    as [Hk|Hk].
  - destruct H as [H|H]; [contradiction|].
    rewrite (bind_Ok _ _ _ _ _ (_parse_mode_accepts _ _ self Hk)).
    apply bind_Raise, _parse_mode_rejects, H.
  - apply bind_Raise, _parse_mode_rejects, Hk.
Qed.

Lemma set_boundary_conditions_rejects_witness :
  ("flux" ∉ ["dirichlet"; "neumann"; "neumann_group"] \/
   "merge" ∉ ["merge"; "overwrite"; "remove"]) /\
  set_boundary_conditions [0] "flux" [one] "merge" Chain.alg0
  = (Chain.alg0, Raise InvalidArgument).
Proof.
  assert (H : "flux" ∉ ["dirichlet"; "neumann"; "neumann_group"])
    by by_compute.
  split; [left; exact H|].
  apply set_boundary_conditions_rejects. left. exact H.
Defined.

(** The kind neumann_group, outside dirichlet and neumann, is accepted. *)
Lemma neumann_group_is_accepted :
  ~ (forall pores bctype bcvalues mode self,
       bctype ∉ ["dirichlet"; "neumann"] ->
       snd (set_boundary_conditions pores bctype bcvalues mode self)
       = Raise InvalidArgument).
Proof.
  intros H.
  specialize (H [0] "neumann_group" [one] "merge" Chain.alg0).
  assert (Hk : "neumann_group" ∉ ["dirichlet"; "neumann"]) by by_compute.
  specialize (H Hk). vm_compute in H. discriminate H.
Qed.

(** ** Index assignment on lists *)

Lemma length_put {A} (l : list A) idx vals : length (put l idx vals) = length l.
Proof.
  revert l vals. induction idx as [|i idx IH]; intros l [|v vals]; simpl;
    try reflexivity.
  rewrite IH. apply length_insert.
Qed.

Lemma put_lookup_notin {A} (l : list A) idx vals p :
  p ∉ idx -> put l idx vals !! p = l !! p.
Proof.
  revert l vals. induction idx as [|i idx IH]; intros l [|v vals] Hp; simpl;
    try reflexivity.
  apply not_elem_of_cons in Hp as [Hne Hp].
  rewrite IH by exact Hp. apply list_lookup_insert_ne. congruence.
Qed.

Lemma put_replicate_lookup {A} (l : list A) idx (v : A) p :
  p ∈ idx -> p < length l ->
  put l idx (replicate (length idx) v) !! p = Some v.
Proof.
  revert l. induction idx as [|i idx IH]; intros l Hp Hlt; simpl.
  - inversion Hp.
  - destruct (decide (p ∈ idx)) as [Hin|Hnin].
    + apply IH; [exact Hin|]. rewrite length_insert. exact Hlt.
    + apply elem_of_cons in Hp as [->|Hp]; [|contradiction].
      rewrite put_lookup_notin by exact Hnin.
      apply list_lookup_insert_eq. exact Hlt.
Qed.

Lemma forallb_ltb (n : nat) (idx : list nat) :
  forallb (fun i => i <? n) idx = true <-> Forall (fun i => i < n) idx.
Proof.
  rewrite forallb_forall, Forall_forall. split; intros H i Hi.
  - apply Nat.ltb_lt, H, list_elem_of_In, Hi.
  - apply Nat.ltb_lt, H, list_elem_of_In, Hi.
Qed.

Lemma setitem_list_broadcast {A} (l : list A) idx (v : A) :
  Forall (fun i => i < length l) idx ->
  setitem_list l idx [v] = Ok (put l idx (replicate (length idx) v)).
Proof.
  intros H. unfold setitem_list.
  apply forallb_ltb in H. rewrite H. reflexivity.
Qed.

Lemma setitem_list_Ok {A} (l l' : list A) idx vals :
  setitem_list l idx vals = Ok l' ->
  length l' = length l /\ forall p, p ∉ idx -> l' !! p = l !! p.
Proof.
  unfold setitem_list. destruct (forallb _ idx); [|discriminate].
  assert (Hput : forall w, Ok (put l idx w) = Ok l' ->
            length l' = length l /\ forall p, p ∉ idx -> l' !! p = l !! p).
  { intros w [= <-]. split; [apply length_put|].
    intros p Hp. apply put_lookup_notin, Hp. }
  destruct vals as [|v [|v' vals]].
  - destruct (_ =? _); [apply (Hput [])|discriminate].
  - apply (Hput (replicate (length idx) v)).
  - destruct (_ =? _); [apply (Hput (v :: v' :: vals))|discriminate].
Qed.

(** ** The primitives of the store *)

Lemma contains_run key self :
  contains key self = (self, Ok (bool_decide (is_Some (items self !! key)))).
Proof. reflexivity. Qed.

Lemma setitem_at_run key idx vals self :
  setitem_at key idx vals self =
  match items self !! key with
  | None => (self, Raise KeyError)
  | Some a =>
      match setitem_array a idx vals with
      | Ok a' => (with_items self (<[key := a']> (items self)), Ok tt)
      | Raise e => (self, Raise e)
      end
  end.
Proof.
  unfold setitem_at, bind, getitem, lift, setitem_full.
  destruct (items self !! key) as [a|]; [|reflexivity].
  destruct (setitem_array a idx vals); reflexivity.
Qed.

Lemma store_at_run key init vals pores mode self :
  store_at key init vals pores mode self =
  match setitem_array (target key init mode self) pores vals with
  | Ok a' => (with_items self (<[key := a']> (items self)), Ok tt)
  | Raise e =>
      (if reinit key mode self
       then with_items self (<[key := full (Np self) init]> (items self))
       else self, Raise e)
  end.
Proof.
  unfold store_at, target, reinit.
  unfold bind at 1. rewrite contains_run.
  destruct (items self !! key) as [a|] eqn:Ha.
  - rewrite bool_decide_eq_true_2 by eauto. simpl.
    destruct (bool_decide (mode = "overwrite")); simpl.
    + unfold bind, setitem. rewrite setitem_at_run. simpl.
      rewrite lookup_insert_eq.
      destruct (setitem_array _ pores vals); [|reflexivity].
      unfold with_items. simpl. rewrite insert_insert_eq. reflexivity.
    + unfold bind, ret. rewrite setitem_at_run, Ha.
      destruct (setitem_array _ pores vals); reflexivity.
  - rewrite bool_decide_eq_false_2 by (intros [? ?]; discriminate). simpl.
    unfold bind, setitem. rewrite setitem_at_run. simpl.
    rewrite lookup_insert_eq.
    destruct (setitem_array _ pores vals); [|reflexivity].
    unfold with_items. simpl. rewrite insert_insert_eq. reflexivity.
Qed.

(** ** Preservation through the monad *)

#[local] Instance same_keys_refl : Reflexive same_keys.
Proof. intros s k. reflexivity. Qed.
#[local] Instance same_keys_trans : Transitive same_keys.
Proof. intros s1 s2 s3 H12 H23 k. etransitivity; [apply H23|apply H12]. Qed.
Section Preserves.
Context (R : relation GenericLinearTransport).
Context `{!Reflexive R, !Transitive R}.

Lemma preserves_pure {A} (m : M A) :
  (forall self, fst (m self) = self) -> preserves R m.
Proof. intros H self. rewrite H. reflexivity. Qed.

Lemma preserves_bind {A B} (m : M A) (f : A -> M B) :
  preserves R m -> (forall a, preserves R (f a)) -> preserves R (bind m f).
Proof.
  intros Hm Hf self. unfold bind.
  specialize (Hm self). destruct (m self) as [self' [a|e]]; simpl in *.
  - etransitivity; [exact Hm|]. apply Hf.
  - exact Hm.
Qed.

Lemma preserves_when c (m : M unit) : preserves R m -> preserves R (when c m).
Proof. intros H. destruct c; [exact H|]. apply preserves_pure. reflexivity. Qed.

Lemma preserves_if {A} (c : bool) (m1 m2 : M A) :
  preserves R m1 -> preserves R m2 -> preserves R (if c then m1 else m2).
Proof. destruct c; tauto. Qed.
End Preserves.

Lemma same_keys_setitem_at key idx vals :
  preserves same_keys (setitem_at key idx vals).
Proof.
  intros self k. rewrite setitem_at_run.
  destruct (items self !! key) as [a|] eqn:Ha; [|reflexivity].
  destruct (setitem_array a idx vals); [|reflexivity].
  unfold has_key. simpl.
  destruct (decide (key = k)) as [->|Hne].
  - rewrite lookup_insert_eq, Ha. split; eauto.
  - rewrite lookup_insert_ne by done. reflexivity.
Qed.

Ltac preserves_steps lem :=
  repeat lazymatch goal with
    | |- preserves _ (bind _ _) =>
        apply preserves_bind; [typeclasses eauto..| |intros ?]
    | |- preserves _ (when _ _) => apply preserves_when; [typeclasses eauto..|]
    | |- preserves _ (if _ then _ else _) =>
        apply preserves_if; [typeclasses eauto..| |]
    | |- preserves _ (match ?x with _ => _ end) => destruct x
    | |- preserves _ _ =>
        first
          [ lem
          | apply preserves_pure;
            [typeclasses eauto..
            |intros ?; unfold _parse_mode, _parse_indices, raise, ret;
             repeat case_match; reflexivity] ]
    end.

Lemma same_keys_remove_BC pores : preserves same_keys (remove_BC pores).
Proof. unfold remove_BC. preserves_steps ltac:(apply same_keys_setitem_at). Qed.

(** ** Keys of the store (C10) *)

Lemma setitem_array_exn a idx vals e :
  setitem_array a idx vals = Raise e -> e = IndexError \/ e = ValueError.
Proof.
  unfold setitem_array, rbind, setitem_list.
  repeat case_match; intros; simplify_eq; auto.
Qed.

Lemma store_at_keys key init vals pores mode self k :
  has_key (fst (store_at key init vals pores mode self)) k
  <-> has_key self k \/ k = key.
Proof.
  rewrite store_at_run. unfold reinit, has_key.
  destruct (setitem_array _ pores vals) as [a'|e]; simpl.
  - destruct (decide (key = k)) as [->|Hne].
    + rewrite lookup_insert_eq. split; eauto.
    + rewrite lookup_insert_ne by done. split; [auto|]. intros [H|H]; [exact H|].
      congruence.
  - destruct (items self !! key) as [a|] eqn:Ha.
    + rewrite bool_decide_eq_true_2 by eauto. simpl.
      destruct (bool_decide (mode = "overwrite")); simpl.
      * destruct (decide (key = k)) as [->|Hne].
        -- rewrite lookup_insert_eq. split; eauto.
        -- rewrite lookup_insert_ne by done. split; [auto|].
           intros [H|H]; [exact H|]. congruence.
      * split; [auto|]. intros [H| ->]; [exact H|]. rewrite Ha. eauto.
    + rewrite bool_decide_eq_false_2 by (intros [? ?]; discriminate). simpl.
      destruct (decide (key = k)) as [->|Hne].
      * rewrite lookup_insert_eq. split; eauto.
      * rewrite lookup_insert_ne by done. split; [auto|].
        intros [H|H]; [exact H|]. congruence.
Qed.

(** Marking validated nodes cannot fail on a freshly initialised array, so
    a failure leaves the object untouched. *)
Lemma store_label_raise key pores mode self self' e :
  Forall (fun i => i < Np self) pores ->
  store_at key (BoolArr [false]) (BoolArr [true]) pores mode self
  = (self', Raise e) ->
  self' = self.
Proof.
  intros Hp. rewrite store_at_run. unfold target, reinit.
  assert (Hfresh : setitem_array (full (Np self) (BoolArr [false])) pores
                     (BoolArr [true])
                   = Ok (BoolArr (put (replicate (Np self) false) pores
                                      (replicate (length pores) true)))).
  { simpl. rewrite setitem_list_broadcast; [reflexivity|].
    rewrite length_replicate. exact Hp. }
  destruct (items self !! key) as [a|] eqn:Ha.
  - rewrite (bool_decide_eq_true_2 (is_Some (Some a))) by (eexists; reflexivity).
    destruct (bool_decide (mode = "overwrite")); simpl negb; simpl orb.
    + rewrite Hfresh. discriminate.
    + destruct (setitem_array a pores _); [discriminate|]. congruence.
  - rewrite Hfresh. discriminate.
Qed.

Lemma paired_same_keys self self' :
  same_keys self self' -> paired self -> paired self'.
Proof.
  intros H HP kind Hk. unfold same_keys in H.
  etransitivity; [apply H|]. etransitivity; [|symmetry; apply H].
  apply HP, Hk.
Qed.

Ltac kind_cases H :=
  repeat (apply elem_of_cons in H as [->|H]); [..|inversion H].

Lemma paired_set_boundary_conditions pores bctype bcvalues mode self :
  paired self ->
  paired (fst (set_boundary_conditions pores bctype bcvalues mode self)).
Proof.
  intros HP. unfold set_boundary_conditions.
  unfold bind at 1. unfold _parse_mode at 1.
  case_bool_decide as Hk; [|exact HP]. simpl.
  unfold bind at 1. unfold _parse_mode at 1.
  case_bool_decide as Hm; [|exact HP]. simpl.
  unfold bind at 1. unfold _parse_indices at 1.
  destruct (forallb _ pores) eqn:Hp; [|exact HP].
  apply forallb_ltb in Hp.
  case_bool_decide as Hr.
  { eapply paired_same_keys; [|exact HP]. apply same_keys_remove_BC. }
  destruct (_ && _); [exact HP|].
  unfold bind.
  destruct (store_at _ (BoolArr [false]) _ pores mode self)
    as [self1 [?|e]] eqn:H1.
  - pose proof (store_at_keys ("pore." +:+ bctype) (BoolArr [false])
                  (BoolArr [true]) pores mode self) as K1.
    rewrite H1 in K1. simpl in K1.
    intros kind Hkind. rewrite !store_at_keys, !K1.
    specialize (HP kind Hkind).
    kind_cases Hk; kind_cases Hkind; simpl in *;
      intuition (try discriminate; auto).
  - apply store_label_raise in H1; [|exact Hp]. subst self1. exact HP.
Qed.

Lemma paired_exec self c : paired self -> paired (exec self c).
Proof.
  intros HP. destruct c as [pores bctype bcvalues mode|pores]; simpl.
  - apply paired_set_boundary_conditions, HP.
  - eapply paired_same_keys; [|exact HP]. apply same_keys_remove_BC.
Qed.

Lemma paired_exec_all self cs : paired self -> paired (exec_all self cs).
Proof.
  revert self. induction cs as [|c cs IH]; intros self HP; simpl.
  - exact HP.
  - apply IH, paired_exec, HP.
Qed.

Lemma fresh_paired self : fresh self -> paired self.
Proof.
  intros H kind Hk. destruct (H kind Hk) as [H1 H2]. unfold has_key.
  rewrite H1, H2. reflexivity.
Qed.

Lemma setitem_at_no_KeyError key idx vals self :
  has_key self key -> snd (setitem_at key idx vals self) <> Raise KeyError.
Proof.
  intros [a Ha]. rewrite setitem_at_run, Ha.
  destruct (setitem_array a idx vals) as [a'|e] eqn:He; simpl; [discriminate|].
  apply setitem_array_exn in He as [->| ->]; discriminate.
Qed.

(** Clearing the two arrays of one kind finds both keys. *)
Lemma clear_no_KeyError label value pores (u v : ndarray) self :
  has_key self label -> has_key self value ->
  snd ((setitem_at label pores u ;;; setitem_at value pores v) self)
  <> Raise KeyError.
Proof.
  intros HL HV. unfold bind.
  pose proof (setitem_at_no_KeyError label pores u self HL) as H1.
  pose proof (same_keys_setitem_at label pores u self value) as K.
  destruct (setitem_at label pores u self) as [self1 [?|e]]; simpl in *.
  - apply setitem_at_no_KeyError, K, HV.
  - exact H1.
Qed.

Lemma remove_BC_no_KeyError pores self :
  paired self -> snd (remove_BC pores self) <> Raise KeyError.
Proof.
  intros HP. unfold remove_BC.
  unfold bind at 1.
  assert (Hps : exists p, (match pores with None => Ps | Some p => ret p end) self
                          = (self, Ok p)).
  { destruct pores; eexists; reflexivity. }
  destruct Hps as [p ->].
  unfold bind at 1. rewrite contains_run.
  set (clearD := (setitem_at "pore.dirichlet" p (BoolArr [false]) ;;;
                  setitem_at "pore.dirichlet_value" p (FloatArr [NaN]))).
  set (clearN := (setitem_at "pore.neumann" p (BoolArr [false]) ;;;
                  setitem_at "pore.neumann_value" p (FloatArr [NaN]))).
  assert (HD : has_key self "pore.dirichlet" ->
               snd (clearD self) <> Raise KeyError).
  { intros H. apply clear_no_KeyError; [exact H|].
    apply (HP "dirichlet"); [by_compute|exact H]. }
  assert (KD : same_keys self (fst (when (bool_decide
                 (is_Some (items self !! "pore.dirichlet"))) clearD self))).
  { apply preserves_when; [typeclasses eauto|].
    subst clearD. preserves_steps ltac:(apply same_keys_setitem_at). }
  unfold bind at 1.
  assert (HD' : snd (when (bool_decide (is_Some (items self !! "pore.dirichlet")))
                       clearD self) <> Raise KeyError).
  { case_bool_decide as Hd; simpl; [apply HD, Hd|discriminate]. }
  destruct (when _ clearD self) as [self1 [?|e]]; simpl in *; [|exact HD'].
  unfold bind at 1. rewrite contains_run.
  case_bool_decide as Hn; simpl; [|discriminate].
  apply clear_no_KeyError; [exact Hn|].
  apply KD. apply (HP "neumann"); [by_compute|]. apply KD. exact Hn.
Qed.

(** C10: on an object that starts without boundary conditions, after any
    sequence of [set_boundary_conditions] and [remove_BC] calls, failed ones
    included, the label array of a kind is stored exactly when its value
    array is, and [remove_BC] never fails on a missing key. *)
Theorem label_and_value_keys_paired self cs :
  fresh self ->
  paired (exec_all self cs) /\
  forall pores, snd (remove_BC pores (exec_all self cs)) <> Raise KeyError.
Proof.
  intros H. apply fresh_paired in H.
  pose proof (paired_exec_all self cs H) as HP.
  split; [exact HP|]. intros pores. apply remove_BC_no_KeyError, HP.
Qed.

Lemma label_and_value_keys_paired_witness :
  fresh Chain.alg0 /\
  (paired (exec_all Chain.alg0
             [SetBC [0] "dirichlet" [one] "merge";
              SetBC [1] "neumann" [] "overwrite";
              RemoveBC None]) /\
   forall pores,
     snd (remove_BC pores
            (exec_all Chain.alg0
               [SetBC [0] "dirichlet" [one] "merge";
                SetBC [1] "neumann" [] "overwrite";
                RemoveBC None]))
     <> Raise KeyError).
Proof.
  assert (H : fresh Chain.alg0)
    by (intros kind Hk; kind_cases Hk; split; reflexivity).
  split; [exact H|].
  exact (label_and_value_keys_paired Chain.alg0 _ H).
Defined.

(** ** Validation precedes mutation *)

Lemma raises_only_bind {A B} (E : exn -> Prop) (m : M A) (f : A -> M B) :
  raises_only E m -> (forall a, raises_only E (f a)) ->
  raises_only E (bind m f).
Proof.
  intros Hm Hf self e. unfold bind.
  specialize (Hm self). destruct (m self) as [self' [a|e']]; simpl in *.
  - apply Hf.
  - intros [= <-]. apply Hm. reflexivity.
Qed.

Lemma raises_only_returns {A} (E : exn -> Prop) (m : M A) :
  (forall self, exists a, snd (m self) = Ok a) -> raises_only E m.
Proof. intros H self e He. destruct (H self) as [a Ha]. congruence. Qed.

Lemma raises_only_when (E : exn -> Prop) c (m : M unit) :
  raises_only E m -> raises_only E (when c m).
Proof.
  intros H. destruct c; [exact H|].
  apply raises_only_returns. intros self. eexists. reflexivity.
Qed.

Lemma raises_only_setitem_at key idx vals :
  raises_only numpy_error (setitem_at key idx vals).
Proof.
  intros self e. rewrite setitem_at_run. unfold numpy_error.
  destruct (items self !! key) as [a|]; simpl; [|intros [= <-]; auto].
  destruct (setitem_array a idx vals) as [a'|e'] eqn:E; simpl; [discriminate|].
  intros [= <-]. apply setitem_array_exn in E. tauto.
Qed.

Lemma raises_only_store_at key init vals pores mode :
  raises_only numpy_error (store_at key init vals pores mode).
Proof.
  intros self e. rewrite store_at_run. unfold numpy_error.
  destruct (setitem_array _ pores vals) as [a'|e'] eqn:E; simpl; [discriminate|].
  intros [= <-]. apply setitem_array_exn in E. tauto.
Qed.

Ltac raises_steps :=
  repeat lazymatch goal with
    | |- raises_only _ (bind _ _) => apply raises_only_bind; [|intros ?]
    | |- raises_only _ (when _ _) => apply raises_only_when
    | |- raises_only _ (match ?x with _ => _ end) => destruct x
    | |- raises_only _ (setitem_at _ _ _) => apply raises_only_setitem_at
    | |- raises_only _ (store_at _ _ _ _ _) => apply raises_only_store_at
    | |- raises_only _ _ =>
        apply raises_only_returns; intros ?; eexists; reflexivity
    end.

Lemma raises_only_remove_BC pores : raises_only numpy_error (remove_BC pores).
Proof. unfold remove_BC. raises_steps. Qed.

(** The stages of [set_boundary_conditions]. *)
Lemma set_boundary_conditions_stages pores bctype bcvalues mode self :
  set_boundary_conditions pores bctype bcvalues mode self
  = if negb (bool_decide (bctype ∈ ["dirichlet"; "neumann"; "neumann_group"]))
    then (self, Raise InvalidArgument)
    else if negb (bool_decide (mode ∈ ["merge"; "overwrite"; "remove"]))
    then (self, Raise InvalidArgument)
    else if negb (forallb (fun i => i <? Np self) pores)
    then (self, Raise InvalidArgument)
    else if bool_decide (mode = "remove") then remove_BC (Some pores) self
    else if (1 <? length bcvalues) && negb (length bcvalues =? length pores)
    then (self, Raise InvalidArgument)
    else (store_at ("pore." +:+ bctype) (BoolArr [false]) (BoolArr [true])
            pores mode ;;;
          store_at ("pore." +:+ bctype +:+ "_value") (FloatArr [NaN])
            (FloatArr bcvalues) pores mode) self.
Proof.
  unfold set_boundary_conditions.
  unfold bind at 1. unfold _parse_mode at 1.
  case_bool_decide as Hk; [|reflexivity]. simpl.
  unfold bind at 1. unfold _parse_mode at 1.
  case_bool_decide as Hm; [|reflexivity]. simpl.
  unfold bind at 1. unfold _parse_indices at 1.
  destruct (forallb _ pores); [|reflexivity]. simpl.
  case_bool_decide as Hr; [reflexivity|].
  destruct (_ && _); reflexivity.
Qed.

(** X10: a call of [set_boundary_conditions] that fails with
    [InvalidArgument] failed in the validation of its arguments and has not
    touched the object. *)
Lemma set_boundary_conditions_InvalidArgument pores bctype bcvalues mode self :
  snd (set_boundary_conditions pores bctype bcvalues mode self)
  = Raise InvalidArgument ->
  fst (set_boundary_conditions pores bctype bcvalues mode self) = self.
Proof.
  assert (Hno : ~ numpy_error InvalidArgument)
    by (intros [H|[H|H]]; discriminate H).
  rewrite set_boundary_conditions_stages.
  destruct (negb (bool_decide (bctype ∈ _))); [reflexivity|].
  destruct (negb (bool_decide (mode ∈ _))); [reflexivity|].
  destruct (negb (forallb _ pores)); [reflexivity|].
  case_bool_decide as Hr.
  { intros H. exfalso. apply Hno.
    apply (raises_only_remove_BC (Some pores) self), H. }
  destruct (_ && _); [reflexivity|].
  intros H. exfalso. apply Hno.
  eapply (raises_only_bind numpy_error); [| |exact H].
  - apply raises_only_store_at.
  - intros ?. apply raises_only_store_at.
Qed.

(** ** Failure after mutation (C8) *)

Lemma set_boundary_conditions_size_mismatch pores bctype bcvalues mode self :
  1 < length bcvalues -> length bcvalues <> length pores ->
  mode = "merge" \/ mode = "overwrite" ->
  set_boundary_conditions pores bctype bcvalues mode self
  = (self, Raise InvalidArgument).
Proof.
  intros H1 Hne Hmode. unfold set_boundary_conditions.
  unfold bind at 1. unfold _parse_mode at 1.
  case_bool_decide as Hk; [|reflexivity]. simpl.
  unfold bind at 1. unfold _parse_mode at 1.
  case_bool_decide as Hm; [|reflexivity]. simpl.
  unfold bind at 1. unfold _parse_indices at 1.
  destruct (forallb _ pores); [|reflexivity].
  rewrite bool_decide_eq_false_2 by (destruct Hmode; subst; discriminate).
  apply Nat.ltb_lt in H1. rewrite H1.
  apply Nat.eqb_neq in Hne. rewrite Hne. reflexivity.
Qed.

(** C8, at the failing input: an empty value array passes the size check,
    the Dirichlet label of node 0 is set and the value array created, and
    only then the assignment of the values raises. *)
Theorem set_boundary_conditions_fails_after_marking :
  let r := set_boundary_conditions [0] "dirichlet" [] "merge" Chain.alg0 in
  snd r = Raise ValueError /\
  items Chain.alg0 !! "pore.dirichlet" = None /\
  items (fst r) !! "pore.dirichlet" = Some (BoolArr [true; false; false]) /\
  items (fst r) !! "pore.dirichlet_value" = Some (FloatArr [NaN; NaN; NaN]).
Proof. vm_compute. repeat split; reflexivity. Qed.

(** ** Observations through an update of the dictionary *)

Lemma mark_lookup_in {A} (l : list A) idx (v : A) p :
  p ∈ idx -> p < length l -> mark l idx v !! p = Some v.
Proof. apply put_replicate_lookup. Qed.

Lemma mark_lookup_notin {A} (l : list A) idx (v : A) p :
  p ∉ idx -> mark l idx v !! p = l !! p.
Proof. apply put_lookup_notin. Qed.

Lemma length_mark {A} (l : list A) idx (v : A) :
  length (mark l idx v) = length l.
Proof. apply length_put. Qed.

Lemma setitem_list_run {A} (l : list A) idx vals :
  Forall (fun i => i < length l) idx ->
  length vals = 1 \/ length vals = length idx ->
  setitem_list l idx vals = Ok (put l idx (broadcast idx vals)).
Proof.
  intros H Hsz. unfold setitem_list, broadcast.
  apply forallb_ltb in H. rewrite H.
  destruct vals as [|v [|v' vals]]; simpl in *.
  - destruct Hsz as [Hsz|Hsz]; [discriminate|]. rewrite <- Hsz. reflexivity.
  - reflexivity.
  - destruct Hsz as [Hsz|Hsz]; [discriminate|]. rewrite <- Hsz.
    simpl. rewrite Nat.eqb_refl. reflexivity.
Qed.

Lemma setitem_at_bool key l idx (b : bool) self :
  items self !! key = Some (BoolArr l) ->
  Forall (fun i => i < length l) idx ->
  setitem_at key idx (BoolArr [b]) self
  = (upd key (BoolArr (mark l idx b)) self, Ok tt).
Proof.
  intros Hk Hidx. rewrite setitem_at_run, Hk. simpl.
  rewrite setitem_list_broadcast by exact Hidx. reflexivity.
Qed.

Lemma setitem_at_float key l idx vals self :
  items self !! key = Some (FloatArr l) ->
  Forall (fun i => i < length l) idx ->
  length vals = 1 \/ length vals = length idx ->
  setitem_at key idx (FloatArr vals) self
  = (upd key (FloatArr (put l idx (broadcast idx vals))) self, Ok tt).
Proof.
  intros Hk Hidx Hsz. rewrite setitem_at_run, Hk. simpl.
  rewrite setitem_list_run by assumption. reflexivity.
Qed.

Ltac kinds2 Hk Hk' := kind_cases Hk; kind_cases Hk'.

Ltac map_steps :=
  unfold upd, label_at, value_at, labels_of, values_of, has_key; simpl;
  repeat first
    [ rewrite lookup_insert_eq
    | rewrite lookup_insert_ne by discriminate ];
  repeat (case_decide; try discriminate; try congruence);
  try reflexivity.

Section Upd.
Context (K k : string).
Context (HK : K ∈ ["dirichlet"; "neumann"]) (Hk : k ∈ ["dirichlet"; "neumann"]).

Lemma labels_of_upd_label a self :
  labels_of (upd ("pore." +:+ K) a self) k
  = if decide (k = K) then as_bools a else labels_of self k.
Proof using HK Hk. kinds2 HK Hk; map_steps. Qed.

Lemma labels_of_upd_value a self :
  labels_of (upd ("pore." +:+ K +:+ "_value") a self) k = labels_of self k.
Proof using HK Hk. kinds2 HK Hk; map_steps. Qed.

Lemma values_of_upd_label a self :
  values_of (upd ("pore." +:+ K) a self) k = values_of self k.
Proof using HK Hk. kinds2 HK Hk; map_steps. Qed.

Lemma values_of_upd_value a self :
  values_of (upd ("pore." +:+ K +:+ "_value") a self) k
  = if decide (k = K) then as_floats a else values_of self k.
Proof using HK Hk. kinds2 HK Hk; map_steps. Qed.

Lemma kind_wf_upd_label l self :
  length l = Np self -> kind_wf self k ->
  kind_wf (upd ("pore." +:+ K) (BoolArr l) self) k.
Proof using HK Hk.
  intros Hl [H1 H2]. split; intros a; specialize (H1 a); specialize (H2 a);
    revert H1 H2; kinds2 HK Hk; map_steps; intros H1 H2 Ha;
    simplify_eq; eauto.
Qed.

Lemma kind_wf_upd_value l self :
  length l = Np self -> kind_wf self k ->
  kind_wf (upd ("pore." +:+ K +:+ "_value") (FloatArr l) self) k.
Proof using HK Hk.
  intros Hl [H1 H2]. split; intros a; specialize (H1 a); specialize (H2 a);
    revert H1 H2; kinds2 HK Hk; map_steps; intros H1 H2 Ha;
    simplify_eq; eauto.
Qed.
End Upd.

Lemma label_at_labels_of self k p :
  label_at self k p = default false (labels_of self k !! p).
Proof.
  unfold label_at, labels_of.
  destruct (items self !! ("pore." +:+ k)); [reflexivity|].
  destruct (replicate (Np self) false !! p) as [b|] eqn:Hb; [|reflexivity].
  apply lookup_replicate in Hb as [-> _]. reflexivity.
Qed.

Lemma value_at_values_of self k p :
  value_at self k p = default NaN (values_of self k !! p).
Proof.
  unfold value_at, values_of.
  destruct (items self !! ("pore." +:+ k +:+ "_value")); [reflexivity|].
  destruct (replicate (Np self) NaN !! p) as [b|] eqn:Hb; [|reflexivity].
  apply lookup_replicate in Hb as [-> _]. reflexivity.
Qed.

Lemma length_labels_of self k :
  kind_wf self k -> length (labels_of self k) = Np self.
Proof.
  intros [H _]. unfold labels_of.
  destruct (items self !! ("pore." +:+ k)) as [a|].
  - destruct (H a eq_refl) as (l & -> & Hl). exact Hl.
  - apply length_replicate.
Qed.

Lemma length_values_of self k :
  kind_wf self k -> length (values_of self k) = Np self.
Proof.
  intros [_ H]. unfold values_of.
  destruct (items self !! ("pore." +:+ k +:+ "_value")) as [a|].
  - destruct (H a eq_refl) as (l & -> & Hl). exact Hl.
  - apply length_replicate.
Qed.

(** ** Setting and clearing on a well-formed store *)

Lemma labels_of_lookup self k a :
  kind_wf self k -> items self !! ("pore." +:+ k) = Some a ->
  a = BoolArr (labels_of self k).
Proof.
  intros [H _] Ha. destruct (H a Ha) as (l & -> & _).
  unfold labels_of. rewrite Ha. reflexivity.
Qed.

Lemma values_of_lookup self k a :
  kind_wf self k -> items self !! ("pore." +:+ k +:+ "_value") = Some a ->
  a = FloatArr (values_of self k).
Proof.
  intros [_ H] Ha. destruct (H a Ha) as (l & -> & _).
  unfold values_of. rewrite Ha. reflexivity.
Qed.

Lemma target_label self k :
  kind_wf self k ->
  target ("pore." +:+ k) (BoolArr [false]) "merge" self
  = BoolArr (labels_of self k).
Proof.
  intros Hwf. unfold target.
  destruct (items self !! ("pore." +:+ k)) as [a|] eqn:Ha.
  - rewrite bool_decide_eq_false_2 by discriminate.
    apply labels_of_lookup; assumption.
  - unfold labels_of. rewrite Ha. reflexivity.
Qed.

Lemma target_value self k :
  kind_wf self k ->
  target ("pore." +:+ k +:+ "_value") (FloatArr [NaN]) "merge" self
  = FloatArr (values_of self k).
Proof.
  intros Hwf. unfold target.
  destruct (items self !! ("pore." +:+ k +:+ "_value")) as [a|] eqn:Ha.
  - rewrite bool_decide_eq_false_2 by discriminate.
    apply values_of_lookup; assumption.
  - unfold values_of. rewrite Ha. reflexivity.
Qed.

Lemma store_merge_label self k pores :
  kind_wf self k -> Forall (fun i => i < Np self) pores ->
  store_at ("pore." +:+ k) (BoolArr [false]) (BoolArr [true]) pores "merge" self
  = (upd ("pore." +:+ k) (BoolArr (mark (labels_of self k) pores true)) self,
     Ok tt).
Proof.
  intros Hwf Hp. rewrite store_at_run, target_label by exact Hwf. simpl.
  rewrite setitem_list_broadcast; [reflexivity|].
  rewrite length_labels_of by exact Hwf. exact Hp.
Qed.

Lemma store_merge_value self k pores vals :
  kind_wf self k -> Forall (fun i => i < Np self) pores ->
  length vals = 1 \/ length vals = length pores ->
  store_at ("pore." +:+ k +:+ "_value") (FloatArr [NaN]) (FloatArr vals)
    pores "merge" self
  = (upd ("pore." +:+ k +:+ "_value")
       (FloatArr (put (values_of self k) pores (broadcast pores vals))) self,
     Ok tt).
Proof.
  intros Hwf Hp Hsz. rewrite store_at_run, target_value by exact Hwf. simpl.
  rewrite setitem_list_run; [reflexivity| |exact Hsz].
  rewrite length_values_of by exact Hwf. exact Hp.
Qed.

Lemma sized_check (vals : list scalar) (pores : list nat) :
  length vals = 1 \/ length vals = length pores ->
  (1 <? length vals) && negb (length vals =? length pores) = false.
Proof.
  intros [H|H]; rewrite H.
  - reflexivity.
  - rewrite Nat.eqb_refl. apply andb_false_r.
Qed.

(** A merge on a well-formed store: the labels are marked, then the values
    stored. *)
Lemma set_boundary_conditions_merge self K pores vals :
  K ∈ ["dirichlet"; "neumann"] -> kind_wf self K ->
  Forall (fun i => i < Np self) pores ->
  length vals = 1 \/ length vals = length pores ->
  set_boundary_conditions pores K vals "merge" self
  = (upd ("pore." +:+ K +:+ "_value")
       (FloatArr (put (values_of self K) pores (broadcast pores vals)))
       (upd ("pore." +:+ K)
          (BoolArr (mark (labels_of self K) pores true)) self),
     Ok tt).
Proof.
  intros HK Hwf Hp Hsz. unfold set_boundary_conditions.
  assert (HK3 : K ∈ ["dirichlet"; "neumann"; "neumann_group"])
    by (clear -HK; kind_cases HK; by_compute).
  erewrite bind_Ok; [|apply _parse_mode_accepts, HK3].
  erewrite bind_Ok; [|apply _parse_mode_accepts; by_compute].
  erewrite bind_Ok; [|apply _parse_indices_accepts, Hp].
  rewrite bool_decide_eq_false_2 by discriminate.
  rewrite sized_check by exact Hsz.
  erewrite bind_Ok; [|apply store_merge_label; assumption].
  rewrite store_merge_value; [| |exact Hp|exact Hsz].
  - rewrite values_of_upd_label by (exact HK). reflexivity.
  - apply kind_wf_upd_label; [exact HK|exact HK| |exact Hwf].
    rewrite length_mark. apply length_labels_of, Hwf.
Qed.

(** The block of [remove_BC] for one kind. *)
Lemma clear_block K pores self :
  K ∈ ["dirichlet"; "neumann"] -> kind_wf self K ->
  (has_key self ("pore." +:+ K) <-> has_key self ("pore." +:+ K +:+ "_value")) ->
  Forall (fun i => i < Np self) pores ->
  (present <- contains ("pore." +:+ K) ;;
   when present
     (setitem_at ("pore." +:+ K) pores (BoolArr [false]) ;;;
      setitem_at ("pore." +:+ K +:+ "_value") pores (FloatArr [NaN]))) self
  = (cleared K pores self, Ok tt).
Proof.
  intros HK Hwf Hpair Hp. unfold bind at 1. rewrite contains_run.
  unfold cleared.
  destruct (items self !! ("pore." +:+ K)) as [a|] eqn:Ha.
  - rewrite bool_decide_eq_true_2 by (eexists; reflexivity). simpl when.
    assert (HV : has_key self ("pore." +:+ K +:+ "_value"))
      by (apply Hpair; eexists; exact Ha).
    destruct HV as [v Hv].
    pose proof (labels_of_lookup _ _ _ Hwf Ha) as ->.
    pose proof (values_of_lookup _ _ _ Hwf Hv) as ->.
    rewrite Hv.
    erewrite bind_Ok; [|apply setitem_at_bool; [exact Ha|]].
    2:{ rewrite length_labels_of by exact Hwf. exact Hp. }
    rewrite (setitem_at_float _ (values_of self K)).
    + reflexivity.
    + unfold upd. simpl. rewrite lookup_insert_ne; [exact Hv|].
      clear -HK. kind_cases HK; discriminate.
    + rewrite length_values_of by exact Hwf. exact Hp.
    + left. reflexivity.
  - rewrite bool_decide_eq_false_2 by (intros [? ?]; discriminate).
    reflexivity.
Qed.

Lemma same_keys_upd key a self :
  has_key self key -> same_keys self (upd key a self).
Proof.
  intros [b Hb] k. unfold has_key, upd. simpl.
  destruct (decide (key = k)) as [->|Hne].
  - rewrite lookup_insert_eq, Hb. split; eauto.
  - rewrite lookup_insert_ne by done. reflexivity.
Qed.

Lemma same_keys_cleared K pores self : same_keys self (cleared K pores self).
Proof.
  unfold cleared.
  destruct (items self !! ("pore." +:+ K)) as [[l|l]|] eqn:HL;
    try reflexivity.
  destruct (items self !! ("pore." +:+ K +:+ "_value")) as [[v|v]|] eqn:HV;
    try reflexivity.
  etransitivity; [apply same_keys_upd; eexists; exact HL|].
  apply same_keys_upd. apply same_keys_upd; eexists; eauto.
Qed.

Lemma kind_wf_cleared K k pores self :
  K ∈ ["dirichlet"; "neumann"] -> k ∈ ["dirichlet"; "neumann"] ->
  kind_wf self K -> kind_wf self k -> kind_wf (cleared K pores self) k.
Proof.
  intros HK Hk HwfK Hwf. unfold cleared.
  destruct (items self !! ("pore." +:+ K)) as [a|] eqn:HL; [|exact Hwf].
  pose proof (labels_of_lookup _ _ _ HwfK HL) as ->.
  destruct (items self !! ("pore." +:+ K +:+ "_value")) as [a|] eqn:HV;
    [|exact Hwf].
  pose proof (values_of_lookup _ _ _ HwfK HV) as ->.
  apply kind_wf_upd_value; [exact HK|exact Hk| |].
  - rewrite length_mark. change (Np (upd _ _ self)) with (Np self).
    apply length_values_of, HwfK.
  - apply kind_wf_upd_label; [exact HK|exact Hk| |exact Hwf].
    rewrite length_mark. apply length_labels_of, HwfK.
Qed.

Lemma wf_cleared K pores self :
  K ∈ ["dirichlet"; "neumann"] -> wf self -> wf (cleared K pores self).
Proof.
  intros HK (HP & HD & HN).
  assert (HwfK : kind_wf self K) by (kind_cases HK; assumption).
  split; [|split].
  - eapply paired_same_keys; [apply same_keys_cleared|exact HP].
  - apply kind_wf_cleared; [exact HK|by_compute|exact HwfK|exact HD].
  - apply kind_wf_cleared; [exact HK|by_compute|exact HwfK|exact HN].
Qed.

(** [remove_BC] on a well-formed store clears the Dirichlet, then the
    Neumann conditions at the given nodes, and returns. *)
Lemma remove_BC_run pores self :
  wf self -> Forall (fun i => i < Np self) pores ->
  remove_BC (Some pores) self
  = (cleared "neumann" pores (cleared "dirichlet" pores self), Ok tt).
Proof.
  intros Hwf Hp.
  assert (H1 := wf_cleared "dirichlet" pores self ltac:(by_compute) Hwf).
  destruct Hwf as (HP & HD & HN). destruct H1 as (HP1 & HD1 & HN1).
  unfold remove_BC. rewrite (bind_Ok _ _ self self pores eq_refl).
  pose proof (clear_block "dirichlet" pores self ltac:(by_compute) HD
                (HP "dirichlet" ltac:(by_compute)) Hp) as E1.
  pose proof (clear_block "neumann" pores (cleared "dirichlet" pores self)
                ltac:(by_compute) HN1
                (HP1 "neumann" ltac:(by_compute))) as E2.
  assert (HNp : Np (cleared "dirichlet" pores self) = Np self)
    by (unfold cleared; repeat case_match; reflexivity).
  rewrite HNp in E2. specialize (E2 Hp).
  change ("pore." +:+ "dirichlet" +:+ "_value")
    with "pore.dirichlet_value" in E1.
  change ("pore." +:+ "dirichlet") with "pore.dirichlet" in E1.
  unfold bind at 1. unfold bind at 1 in E1.
  rewrite contains_run in E1. rewrite contains_run.
  unfold bind at 1. rewrite E1. exact E2.
Qed.

Section Cleared.
Context (K k : string) (pores : list nat) (self : GenericLinearTransport).
Context (HK : K ∈ ["dirichlet"; "neumann"]) (Hk : k ∈ ["dirichlet"; "neumann"]).
Context (Hwf : kind_wf self K).
Context (Hpair : has_key self ("pore." +:+ K)
                 <-> has_key self ("pore." +:+ K +:+ "_value")).
Context (Hp : Forall (fun i => i < Np self) pores).

Lemma cleared_present a :
  items self !! ("pore." +:+ K) = Some a ->
  cleared K pores self
  = upd ("pore." +:+ K +:+ "_value")
      (FloatArr (mark (values_of self K) pores NaN))
      (upd ("pore." +:+ K) (BoolArr (mark (labels_of self K) pores false))
         self).
Proof using Hwf Hpair.
  intros HL. unfold cleared.
  destruct (proj1 Hpair (ex_intro _ a HL)) as [v HV].
  pose proof (labels_of_lookup _ _ _ Hwf HL) as ->.
  pose proof (values_of_lookup _ _ _ Hwf HV) as ->.
  rewrite HL, HV. reflexivity.
Qed.

Lemma cleared_absent :
  items self !! ("pore." +:+ K) = None -> cleared K pores self = self.
Proof. intros HL. unfold cleared. rewrite HL. reflexivity. Qed.

Lemma label_at_cleared p :
  label_at (cleared K pores self) k p
  = if decide (k = K /\ p ∈ pores) then false else label_at self k p.
Proof using HK Hk Hwf Hpair Hp.
  destruct (items self !! ("pore." +:+ K)) as [a|] eqn:HL.
  - rewrite (cleared_present a HL).
    rewrite !label_at_labels_of, labels_of_upd_value, labels_of_upd_label
      by assumption.
    destruct (decide (k = K)) as [->|Hne]; simpl.
    + destruct (decide (p ∈ pores)) as [Hin|Hnin].
      * rewrite decide_True by (split; [reflexivity|exact Hin]).
        rewrite mark_lookup_in; [reflexivity|exact Hin|].
        rewrite length_labels_of by exact Hwf.
        rewrite Forall_forall in Hp. apply Hp, Hin.
      * rewrite decide_False by tauto.
        rewrite mark_lookup_notin by exact Hnin. reflexivity.
    + rewrite decide_False by tauto. reflexivity.
  - rewrite (cleared_absent HL).
    case_decide as Hd; [|reflexivity]. destruct Hd as [-> _].
    unfold label_at. rewrite HL. reflexivity.
Qed.

Lemma value_at_cleared p :
  value_at (cleared K pores self) k p
  = if decide (k = K /\ p ∈ pores) then NaN else value_at self k p.
Proof using HK Hk Hwf Hpair Hp.
  destruct (items self !! ("pore." +:+ K)) as [a|] eqn:HL.
  - rewrite (cleared_present a HL).
    rewrite !value_at_values_of, values_of_upd_value by assumption.
    destruct (decide (k = K)) as [->|Hne]; simpl.
    + destruct (decide (p ∈ pores)) as [Hin|Hnin].
      * rewrite decide_True by (split; [reflexivity|exact Hin]).
        rewrite mark_lookup_in; [reflexivity|exact Hin|].
        rewrite length_values_of by exact Hwf.
        rewrite Forall_forall in Hp. apply Hp, Hin.
      * rewrite decide_False by tauto.
        rewrite mark_lookup_notin by exact Hnin. reflexivity.
    + rewrite decide_False by tauto.
      rewrite values_of_upd_label by assumption. reflexivity.
  - rewrite (cleared_absent HL).
    case_decide as Hd; [|reflexivity]. destruct Hd as [-> _].
    assert (HV : items self !! ("pore." +:+ K +:+ "_value") = None).
    { destruct (items self !! ("pore." +:+ K +:+ "_value")) eqn:E;
        [|reflexivity].
      destruct (proj2 Hpair (ex_intro _ _ E)) as [? ?]. congruence. }
    unfold value_at. rewrite HV. reflexivity.
Qed.
End Cleared.

Lemma Np_cleared K pores self : Np (cleared K pores self) = Np self.
Proof. unfold cleared. repeat case_match; reflexivity. Qed.

(** What [remove_BC] leaves at each node of a well-formed store. *)
Lemma observe_removed self pores k p :
  wf self -> Forall (fun i => i < Np self) pores ->
  k ∈ ["dirichlet"; "neumann"] ->
  let self' := cleared "neumann" pores (cleared "dirichlet" pores self) in
  label_at self' k p = (if decide (p ∈ pores) then false else label_at self k p)
  /\ value_at self' k p = (if decide (p ∈ pores) then NaN else value_at self k p).
Proof.
  intros Hwf Hp Hk self'. subst self'.
  assert (H1 := wf_cleared "dirichlet" pores self ltac:(by_compute) Hwf).
  destruct Hwf as (HP & HD & HN). destruct H1 as (HP1 & HD1 & HN1).
  assert (Hp1 : Forall (fun i => i < Np (cleared "dirichlet" pores self)) pores)
    by (rewrite Np_cleared; exact Hp).
  rewrite (label_at_cleared "neumann" k pores _ ltac:(by_compute) Hk HN1
             (HP1 "neumann" ltac:(by_compute)) Hp1).
  rewrite (value_at_cleared "neumann" k pores _ ltac:(by_compute) Hk HN1
             (HP1 "neumann" ltac:(by_compute)) Hp1).
  rewrite (label_at_cleared "dirichlet" k pores _ ltac:(by_compute) Hk HD
             (HP "dirichlet" ltac:(by_compute)) Hp).
  rewrite (value_at_cleared "dirichlet" k pores _ ltac:(by_compute) Hk HD
             (HP "dirichlet" ltac:(by_compute)) Hp).
  destruct (decide (p ∈ pores)) as [Hin|Hnin].
  - kind_cases Hk; repeat case_decide; try reflexivity; try tauto;
      split; reflexivity.
  - rewrite !decide_False by tauto. split; reflexivity.
Qed.

(** What a merge leaves at each node of a well-formed store. *)
Lemma wf_merged self K pores vals :
  wf self -> K ∈ ["dirichlet"; "neumann"] ->
  length vals = 1 \/ length vals = length pores ->
  wf (upd ("pore." +:+ K +:+ "_value")
        (FloatArr (put (values_of self K) pores (broadcast pores vals)))
        (upd ("pore." +:+ K)
           (BoolArr (mark (labels_of self K) pores true)) self)).
Proof.
  intros (HP & HD & HN) HK Hsz.
  assert (HwfK : kind_wf self K) by (kind_cases HK; assumption).
  assert (Hkw : forall k, k ∈ ["dirichlet"; "neumann"] -> kind_wf self k ->
            kind_wf (upd ("pore." +:+ K +:+ "_value")
              (FloatArr (put (values_of self K) pores (broadcast pores vals)))
              (upd ("pore." +:+ K)
                 (BoolArr (mark (labels_of self K) pores true)) self)) k).
  { intros k Hk Hwf. apply kind_wf_upd_value; [exact HK|exact Hk| |].
    - rewrite length_put. change (Np (upd _ _ self)) with (Np self).
      apply length_values_of, HwfK.
    - apply kind_wf_upd_label; [exact HK|exact Hk| |exact Hwf].
      rewrite length_mark. apply length_labels_of, HwfK. }
  split; [|split].
  - intros k Hk. specialize (HP k Hk). revert HP.
    kinds2 HK Hk; map_steps; intros HP; try exact HP;
      split; intros _; eexists; reflexivity.
  - apply Hkw; [by_compute|exact HD].
  - apply Hkw; [by_compute|exact HN].
Qed.

(** X27: on a well-formed store, for nodes that carry no condition, a merge
    of a Dirichlet or Neumann condition followed by [remove_BC] on the same
    nodes returns both times, marks the nodes in between, and leaves every
    label false and every value [NaN] at those nodes: the labels and values
    of all nodes are as they were before. *)
Theorem set_then_remove_restores self K pores vals :
  wf self ->
  K ∈ ["dirichlet"; "neumann"] ->
  Forall (fun i => i < Np self) pores ->
  length vals = 1 \/ length vals = length pores ->
  (forall k p, k ∈ ["dirichlet"; "neumann"] -> p ∈ pores ->
     label_at self k p = false /\ value_at self k p = NaN) ->
  let r1 := set_boundary_conditions pores K vals "merge" self in
  let r2 := remove_BC (Some pores) (fst r1) in
  snd r1 = Ok tt /\ snd r2 = Ok tt /\
  (forall p, p ∈ pores -> label_at (fst r1) K p = true) /\
  forall k p, k ∈ ["dirichlet"; "neumann"] ->
    (p ∈ pores ->
       label_at (fst r2) k p = false /\ value_at (fst r2) k p = NaN) /\
    label_at (fst r2) k p = label_at self k p /\
    value_at (fst r2) k p = value_at self k p.
Proof.
  intros Hwf HK Hp Hsz Hunset r1 r2. subst r1 r2.
  assert (HwfK : kind_wf self K)
    by (destruct Hwf as (_ & ? & ?); kind_cases HK; assumption).
  rewrite (set_boundary_conditions_merge self K pores vals HK HwfK Hp Hsz).
  simpl fst. simpl snd.
  set (self1 := upd _ _ (upd _ _ self)).
  assert (Hwf1 : wf self1) by (apply wf_merged; assumption).
  rewrite (remove_BC_run pores self1 Hwf1 Hp). simpl fst. simpl snd.
  split; [reflexivity|]. split; [reflexivity|]. split.
  - intros p Hin. subst self1.
    rewrite label_at_labels_of, labels_of_upd_value, labels_of_upd_label
      by assumption.
    rewrite decide_True by reflexivity. simpl.
    rewrite mark_lookup_in; [reflexivity|exact Hin|].
    rewrite length_labels_of by exact HwfK.
    rewrite Forall_forall in Hp. apply Hp, Hin.
  - intros k p Hk.
    destruct (observe_removed self1 pores k p Hwf1 Hp Hk) as [EL EV].
    rewrite EL, EV. clear EL EV.
    destruct (decide (p ∈ pores)) as [Hin|Hnin].
    + destruct (Hunset k p Hk Hin) as [-> ->]. auto.
    + split; [tauto|]. subst self1.
      rewrite !label_at_labels_of, !value_at_values_of.
      rewrite labels_of_upd_value, labels_of_upd_label,
        values_of_upd_value by assumption.
      destruct (decide (k = K)) as [->|Hne]; simpl.
      * rewrite mark_lookup_notin, put_lookup_notin by exact Hnin.
        split; reflexivity.
      * rewrite values_of_upd_label by assumption. split; reflexivity.
Qed.

Lemma set_then_remove_restores_witness :
  wf Chain.alg1 /\
  "neumann" ∈ ["dirichlet"; "neumann"] /\
  Forall (fun i => i < Np Chain.alg1) [1] /\
  (length [one] = 1 \/ length [one] = length [1]) /\
  (forall k p, k ∈ ["dirichlet"; "neumann"] -> p ∈ [1] ->
     label_at Chain.alg1 k p = false /\ value_at Chain.alg1 k p = NaN) /\
  let r1 := set_boundary_conditions [1] "neumann" [one] "merge" Chain.alg1 in
  let r2 := remove_BC (Some [1]) (fst r1) in
  snd r1 = Ok tt /\ snd r2 = Ok tt /\
  (forall p, p ∈ [1] -> label_at (fst r1) "neumann" p = true) /\
  forall k p, k ∈ ["dirichlet"; "neumann"] ->
    (p ∈ [1] ->
       label_at (fst r2) k p = false /\ value_at (fst r2) k p = NaN) /\
    label_at (fst r2) k p = label_at Chain.alg1 k p /\
    value_at (fst r2) k p = value_at Chain.alg1 k p.
Proof.
  assert (H1 : wf Chain.alg1).
  { split; [|split].
    - intros k Hk. kind_cases Hk; vm_compute; split; intros [a Ha];
        try discriminate Ha; eexists; reflexivity.
    - split; intros a Ha; vm_compute in Ha; injection Ha as <-;
        eexists; split; reflexivity.
    - split; intros a Ha; vm_compute in Ha; discriminate Ha. }
  assert (H2 : "neumann" ∈ ["dirichlet"; "neumann"]) by by_compute.
  assert (H3 : Forall (fun i => i < Np Chain.alg1) [1]).
  { constructor; [vm_compute; lia|constructor]. }
  assert (H4 : length [one] = 1 \/ length [one] = length [1])
    by (left; reflexivity).
  assert (H5 : forall k p, k ∈ ["dirichlet"; "neumann"] -> p ∈ [1] ->
            label_at Chain.alg1 k p = false /\ value_at Chain.alg1 k p = NaN).
  { intros k p Hk Hp. apply list_elem_of_singleton in Hp as ->.
    kind_cases Hk; vm_compute; split; reflexivity. }
  repeat (split; [assumption|]).
  exact (set_then_remove_restores Chain.alg1 "neumann" [1] [one] H1 H2 H3 H4 H5).
Defined.

(** C9, at the failing input: the kind neumann_group is accepted by
    [set_boundary_conditions] and never cleared by [remove_BC].  On the
    chain with Dirichlet conditions at its two ends, node 1 carries no
    condition; after a merge of a neumann_group condition at node 1 and
    [remove_BC] on node 1, both of which return, node 1 still holds the
    label and the value of the condition. *)
Theorem remove_BC_leaves_neumann_group :
  let r1 := set_boundary_conditions [1] "neumann_group" [one] "merge"
              Chain.alg1 in
  let r2 := remove_BC (Some [1]) (fst r1) in
  (forall k, k ∈ ["dirichlet"; "neumann"; "neumann_group"] ->
     label_at Chain.alg1 k 1 = false /\ value_at Chain.alg1 k 1 = NaN) /\
  snd r1 = Ok tt /\ snd r2 = Ok tt /\
  items (fst r2) !! "pore.neumann_group"
  = Some (BoolArr [false; true; false]) /\
  items (fst r2) !! "pore.neumann_group_value"
  = Some (FloatArr [NaN; one; NaN]) /\
  label_at (fst r2) "neumann_group" 1 = true /\
  value_at (fst r2) "neumann_group" 1 = one.
Proof.
  split.
  - intros k Hk. kind_cases Hk; vm_compute; split; reflexivity.
  - vm_compute. repeat split; reflexivity.
Qed.

(** ** Well-formedness is an invariant of the store *)

#[local] Instance keeps_arrays_refl : Reflexive keeps_arrays.
Proof. intros s H. exact H. Qed.
#[local] Instance keeps_arrays_trans : Transitive keeps_arrays.
Proof. intros s1 s2 s3 H12 H23 H. apply H23, H12, H. Qed.

Lemma setitem_array_shape a idx vals a' :
  setitem_array a idx vals = Ok a' ->
  (forall l, a = BoolArr l -> exists l', a' = BoolArr l' /\ length l' = length l)
  /\ (forall l, a = FloatArr l ->
        exists l', a' = FloatArr l' /\ length l' = length l).
Proof.
  destruct a as [l|l]; simpl; unfold rbind;
    destruct (setitem_list l idx _) as [l'|e] eqn:E; intros [= <-];
    apply setitem_list_Ok in E as [E _];
    split; intros l0 [= <-]; eauto.
Qed.

Lemma kind_wf_insert key a self k :
  kind_wf self k ->
  (key = "pore." +:+ k -> exists l, a = BoolArr l /\ length l = Np self) ->
  (key = "pore." +:+ k +:+ "_value" ->
     exists l, a = FloatArr l /\ length l = Np self) ->
  kind_wf (upd key a self) k.
Proof.
  intros [H1 H2] HL HV. split; intros b; unfold upd; simpl.
  - destruct (decide (key = "pore." +:+ k)) as [->|Hne].
    + rewrite lookup_insert_eq. intros [= <-]. apply HL. reflexivity.
    + rewrite lookup_insert_ne by exact Hne. apply H1.
  - destruct (decide (key = "pore." +:+ k +:+ "_value")) as [->|Hne].
    + rewrite lookup_insert_eq. intros [= <-]. apply HV. reflexivity.
    + rewrite lookup_insert_ne by exact Hne. apply H2.
Qed.

Lemma kind_wf_setitem_at key idx vals self k :
  kind_wf self k -> kind_wf (fst (setitem_at key idx vals self)) k.
Proof.
  intros Hwf. rewrite setitem_at_run.
  destruct (items self !! key) as [a|] eqn:Ha; [|exact Hwf].
  destruct (setitem_array a idx vals) as [a'|e] eqn:E; [|exact Hwf].
  apply setitem_array_shape in E as [EB EF]. simpl.
  apply (kind_wf_insert key a' self k Hwf).
  - intros ->. destruct Hwf as [H1 _].
    destruct (H1 a Ha) as (l & -> & Hl).
    destruct (EB l eq_refl) as (l' & -> & Hl'). exists l'. split; congruence.
  - intros ->. destruct Hwf as [_ H2].
    destruct (H2 a Ha) as (l & -> & Hl).
    destruct (EF l eq_refl) as (l' & -> & Hl'). exists l'. split; congruence.
Qed.

Lemma keeps_arrays_setitem_at key idx vals :
  preserves keeps_arrays (setitem_at key idx vals).
Proof. intros self [HD HN]. split; apply kind_wf_setitem_at; assumption. Qed.

Lemma keeps_arrays_remove_BC pores : preserves keeps_arrays (remove_BC pores).
Proof. unfold remove_BC. preserves_steps ltac:(apply keeps_arrays_setitem_at). Qed.

(** The array [store_at] writes into keeps the dtype and the size of the
    initial value or of the stored array. *)
Lemma kind_wf_store_at key init vals pores mode self k :
  kind_wf self k ->
  (key = "pore." +:+ k -> exists b, init = BoolArr [b]) ->
  (key = "pore." +:+ k +:+ "_value" -> exists v, init = FloatArr [v]) ->
  kind_wf (fst (store_at key init vals pores mode self)) k.
Proof.
  intros Hwf HL HV.
  assert (Hfull : kind_wf (upd key (full (Np self) init) self) k).
  { apply kind_wf_insert; [exact Hwf| |].
    - intros E. destruct (HL E) as [b ->]. simpl. eexists. split; [reflexivity|].
      apply length_replicate.
    - intros E. destruct (HV E) as [v ->]. simpl. eexists. split; [reflexivity|].
      apply length_replicate. }
  rewrite store_at_run.
  destruct (setitem_array _ pores vals) as [a'|e] eqn:E; simpl.
  - apply setitem_array_shape in E as [EB EF].
    apply (kind_wf_insert key a' self k Hwf).
    + intros Ek. unfold target in EB.
      destruct (HL Ek) as [b ->]. subst key.
      destruct (items self !! ("pore." +:+ k)) as [a|] eqn:Ha.
      * destruct (bool_decide (mode = "overwrite")).
        -- destruct (EB _ eq_refl) as (l' & -> & Hl'). exists l'.
           split; [reflexivity|]. rewrite Hl'. apply length_replicate.
        -- destruct Hwf as [H1 _]. destruct (H1 a Ha) as (l & -> & Hl).
           destruct (EB l eq_refl) as (l' & -> & Hl'). exists l'.
           split; congruence.
      * destruct (EB _ eq_refl) as (l' & -> & Hl'). exists l'.
        split; [reflexivity|]. rewrite Hl'. apply length_replicate.
    + intros Ek. unfold target in EF.
      destruct (HV Ek) as [v ->]. subst key.
      destruct (items self !! ("pore." +:+ k +:+ "_value")) as [a|] eqn:Ha.
      * destruct (bool_decide (mode = "overwrite")).
        -- destruct (EF _ eq_refl) as (l' & -> & Hl'). exists l'.
           split; [reflexivity|]. rewrite Hl'. apply length_replicate.
        -- destruct Hwf as [_ H2]. destruct (H2 a Ha) as (l & -> & Hl).
           destruct (EF l eq_refl) as (l' & -> & Hl'). exists l'.
           split; congruence.
      * destruct (EF _ eq_refl) as (l' & -> & Hl'). exists l'.
        split; [reflexivity|]. rewrite Hl'. apply length_replicate.
  - destruct (reinit key mode self); [exact Hfull|exact Hwf].
Qed.

Lemma keeps_arrays_store_label K vals pores mode :
  K ∈ ["dirichlet"; "neumann"; "neumann_group"] ->
  preserves keeps_arrays
    (store_at ("pore." +:+ K) (BoolArr [false]) vals pores mode).
Proof.
  intros HK self [HD HN].
  split; apply kind_wf_store_at; try assumption;
    try (intros _; eexists; reflexivity);
    kind_cases HK; discriminate.
Qed.

Lemma keeps_arrays_store_value K vals pores mode :
  K ∈ ["dirichlet"; "neumann"; "neumann_group"] ->
  preserves keeps_arrays
    (store_at ("pore." +:+ K +:+ "_value") (FloatArr [NaN]) vals pores mode).
Proof.
  intros HK self [HD HN].
  split; apply kind_wf_store_at; try assumption;
    try (intros _; eexists; reflexivity);
    kind_cases HK; discriminate.
Qed.

Lemma keeps_arrays_set_boundary_conditions pores bctype bcvalues mode :
  preserves keeps_arrays (set_boundary_conditions pores bctype bcvalues mode).
Proof.
  unfold set_boundary_conditions. unfold _parse_mode at 1.
  case_bool_decide as HK;
    [|apply preserves_pure; [typeclasses eauto|intros ?; reflexivity]].
  lazymatch goal with
  | |- preserves _ (bind (ret ?a) ?f) =>
      change (preserves keeps_arrays (f a)); cbv beta
  end.
  preserves_steps ltac:(first [ apply (keeps_arrays_store_label _ _ _ _ HK)
                              | apply (keeps_arrays_store_value _ _ _ _ HK)
                              | apply keeps_arrays_remove_BC ]).
Qed.

Lemma wf_exec self c : wf self -> wf (exec self c).
Proof.
  intros (HP & HA). split.
  - apply paired_exec, HP.
  - destruct c as [pores bctype bcvalues mode|pores]; simpl.
    + apply keeps_arrays_set_boundary_conditions, HA.
    + apply keeps_arrays_remove_BC, HA.
Qed.

(** Every state reached from an object without boundary conditions is a
    well-formed store. *)
Lemma wf_exec_all self cs : fresh self -> wf (exec_all self cs).
Proof.
  intros Hf.
  assert (Hwf : wf self).
  { split; [apply fresh_paired, Hf|].
    split; split; intros a Ha.
    - destruct (Hf "dirichlet" ltac:(by_compute)) as [E _].
      simpl in E. congruence.
    - destruct (Hf "dirichlet" ltac:(by_compute)) as [_ E].
      simpl in E. congruence.
    - destruct (Hf "neumann" ltac:(by_compute)) as [E _].
      simpl in E. congruence.
    - destruct (Hf "neumann" ltac:(by_compute)) as [_ E].
      simpl in E. congruence. }
  clear Hf. revert self Hwf.
  induction cs as [|c cs IH]; intros self Hwf; simpl; [exact Hwf|].
  apply IH, wf_exec, Hwf.
Qed.

(** ** Masks *)

Lemma where_from_lt i mask :
  Forall (fun j => i <= j < i + length mask) (where_from i mask).
Proof.
  revert i. induction mask as [|m mask IH]; intros i; simpl; [constructor|].
  assert (H : Forall (fun j => i <= j < i + S (length mask))
                (where_from (S i) mask)).
  { eapply Forall_impl; [apply IH|]. simpl. intros j Hj. lia. }
  destruct m; [constructor; [lia|exact H]|exact H].
Qed.

Lemma where_lt mask : Forall (fun j => j < length mask) (where_ mask).
Proof.
  eapply Forall_impl; [apply (where_from_lt 0)|]. simpl. intros j Hj. lia.
Qed.

Lemma length_where_from i mask (A : Type) (v : list A) :
  length mask = length v ->
  length (where_from i mask) = length (compress mask v).
Proof.
  revert i v. induction mask as [|m mask IH]; intros i [|y v] Hl;
    simpl in *; try reflexivity; try discriminate.
  injection Hl as Hl. destruct m; simpl; rewrite (IH (S i) v Hl); reflexivity.
Qed.

Lemma length_overlay {A} (b : list A) (mask : list bool) (v : list A) :
  length mask = length b -> length v = length b ->
  length (overlay b mask v) = length b.
Proof.
  revert mask v. induction b as [|x b IH]; intros [|m mask] [|y v] H1 H2;
    simpl in *; try reflexivity; try discriminate.
  rewrite IH by congruence. reflexivity.
Qed.

Lemma overlay_lookup {A} (b : list A) (mask : list bool) (v : list A)
    (p : nat) (x : A) (m : bool) (y : A) :
  b !! p = Some x -> mask !! p = Some m -> v !! p = Some y ->
  overlay b mask v !! p = Some (if m then y else x).
Proof.
  revert mask v p. induction b as [|x0 b IH]; intros [|m0 mask] [|y0 v] p;
    try (intros H; rewrite lookup_nil in H; discriminate);
    try (intros _ H; rewrite lookup_nil in H; discriminate);
    try (intros _ _ H; rewrite lookup_nil in H; discriminate).
  destruct p as [|p]; simpl.
  - intros [= ->] [= ->] [= ->]. reflexivity.
  - apply IH.
Qed.

(** Storing the masked values at the masked positions, one position after
    the other, overlays them. *)
Lemma put_where_compress {A} (pre b : list A) (mask : list bool)
    (v : list A) :
  length mask = length b -> length v = length b ->
  put (pre ++ b) (where_from (length pre) mask) (compress mask v)
  = pre ++ overlay b mask v.
Proof.
  revert pre b v. induction mask as [|m mask IH]; intros pre [|x b] [|y v] H1 H2;
    simpl in *; try discriminate.
  - reflexivity.
  - injection H1 as H1. injection H2 as H2.
    destruct m; simpl.
    + replace (<[length pre := y]> (pre ++ x :: b)) with ((pre ++ [y]) ++ b).
      2:{ rewrite insert_app_r_alt by lia. rewrite Nat.sub_diag. simpl.
          rewrite <- app_assoc. reflexivity. }
      replace (S (length pre)) with (length (pre ++ [y]))
        by (rewrite length_app; simpl; lia).
      rewrite IH by assumption. rewrite <- app_assoc. reflexivity.
    + replace (pre ++ x :: b) with ((pre ++ [x]) ++ b)
        by (rewrite <- app_assoc; reflexivity).
      replace (S (length pre)) with (length (pre ++ [x]))
        by (rewrite length_app; simpl; lia).
      rewrite IH by assumption. rewrite <- app_assoc. reflexivity.
Qed.

Lemma setitem_mask_compress {A} (b : list A) (mask : list bool)
    (v : list A) :
  length mask = length b -> length v = length b ->
  setitem_mask b mask (compress mask v) = Ok (overlay b mask v).
Proof.
  intros H1 H2. unfold setitem_mask.
  rewrite H1, Nat.eqb_refl.
  assert (Hput : put b (where_ mask) (compress mask v) = overlay b mask v)
    by (apply (put_where_compress [] b mask v); assumption).
  assert (Hlen : length (compress mask v) = length (where_ mask))
    by (symmetry; apply length_where_from; congruence).
  unfold setitem_list.
  replace (forallb _ (where_ mask)) with true.
  2:{ symmetry. apply forallb_ltb. rewrite <- H1. apply where_lt. }
  destruct (compress mask v) as [|y [|y' w]] eqn:Hc.
  - rewrite Hlen, Nat.eqb_refl, Hput. reflexivity.
  - destruct (where_ mask) as [|i [|i' idx]]; try discriminate Hlen.
    simpl replicate. rewrite Hput. reflexivity.
  - rewrite Hlen, Nat.eqb_refl, Hput. reflexivity.
Qed.

Lemma overlay_replicate_false {A} (b v : list A) (n : nat) :
  length b = n -> length v = n -> overlay b (replicate n false) v = b.
Proof.
  revert v n. induction b as [|x b IH]; intros [|y v] [|n] H1 H2;
    simpl in *; try reflexivity; try discriminate.
  rewrite IH by congruence. reflexivity.
Qed.

(** ** The right-hand side (C6) *)

Lemma getitem_run key self a :
  items self !! key = Some a -> getitem key self = (self, Ok a).
Proof. intros H. unfold getitem. rewrite H. reflexivity. Qed.

(** One block of [build_b]: the values of a kind, transformed by [f],
    overlaid on [b] where its label holds. *)
Lemma build_b_block K (f : list scalar -> list scalar) b self :
  K ∈ ["dirichlet"; "neumann"] -> kind_wf self K ->
  (has_key self ("pore." +:+ K) <-> has_key self ("pore." +:+ K +:+ "_value")) ->
  length b = Np self -> (forall l, length (f l) = length l) ->
  (if bool_decide (is_Some (items self !! ("pore." +:+ K))) then
     ind <- getitem ("pore." +:+ K) ;;
     values <- getitem ("pore." +:+ K +:+ "_value") ;;
     ind <- lift (as_mask ind) ;;
     rhs <- lift (getitem_mask (f (as_floats values)) ind) ;;
     lift (setitem_mask b ind rhs)
   else ret b) self
  = (self, Ok (overlay b (labels_of self K) (f (values_of self K)))).
Proof.
  intros HK Hwf Hpair Hb Hf.
  pose proof (length_labels_of self K Hwf) as HlL.
  pose proof (length_values_of self K Hwf) as HlV.
  destruct (items self !! ("pore." +:+ K)) as [a|] eqn:HL.
  - rewrite bool_decide_eq_true_2 by (eexists; reflexivity).
    destruct (proj1 Hpair (ex_intro _ a HL)) as [v HV].
    pose proof (labels_of_lookup _ _ _ Hwf HL) as ->.
    pose proof (values_of_lookup _ _ _ Hwf HV) as ->.
    erewrite bind_Ok; [|apply getitem_run, HL].
    erewrite bind_Ok; [|apply getitem_run, HV].
    unfold bind, lift. simpl as_mask. simpl as_floats.
    unfold getitem_mask. rewrite Hf, HlL, HlV, Nat.eqb_refl.
    rewrite setitem_mask_compress; [reflexivity|congruence|].
    rewrite Hf. congruence.
  - rewrite bool_decide_eq_false_2 by (intros [? ?]; discriminate).
    unfold ret. f_equal. f_equal. symmetry.
    unfold labels_of at 1. rewrite HL.
    apply overlay_replicate_false; [exact Hb|]. rewrite Hf. exact HlV.
Qed.

(** C6: on every well-formed store [build_b] returns a vector with one
    entry per node: the negated Neumann value where a Neumann label is set
    (also when a Dirichlet label is set there too), otherwise the Dirichlet
    value where a Dirichlet label is set, and zero elsewhere. *)
Theorem build_b_entries self :
  wf self ->
  exists b,
    build_b self = (with_b self b, Ok b) /\
    length b = Np self /\
    forall p, p < Np self ->
      b !! p = Some (if label_at self "neumann" p
                     then (- value_at self "neumann" p)%S
                     else if label_at self "dirichlet" p
                          then value_at self "dirichlet" p
                          else zero).
Proof.
  intros (HP & HD & HN).
  set (b0 := replicate (Np self) zero).
  set (b1 := overlay b0 (labels_of self "dirichlet")
               (values_of self "dirichlet")).
  set (b2 := overlay b1 (labels_of self "neumann")
               (map sneg (values_of self "neumann"))).
  pose proof (length_labels_of self _ HD) as HlD.
  pose proof (length_values_of self _ HD) as HvD.
  pose proof (length_labels_of self _ HN) as HlN.
  pose proof (length_values_of self _ HN) as HvN.
  assert (Hb0 : length b0 = Np self) by apply length_replicate.
  assert (Hb1 : length b1 = Np self).
  { subst b1. rewrite length_overlay; congruence. }
  assert (Hb2 : length b2 = Np self).
  { subst b2. rewrite length_overlay; [congruence|congruence|].
    rewrite length_map. congruence. }
  exists b2. split; [|split; [exact Hb2|]].
  - unfold build_b.
    rewrite (bind_Ok get _ self self self eq_refl).
    erewrite bind_Ok; [|apply contains_run].
    pose proof (build_b_block "dirichlet" (fun l => l) b0 self
                  ltac:(by_compute) HD (HP "dirichlet" ltac:(by_compute))
                  Hb0 (fun l => eq_refl)) as E1.
    pose proof (build_b_block "neumann" (map sneg) b1 self
                  ltac:(by_compute) HN (HP "neumann" ltac:(by_compute))
                  Hb1 (fun l => length_map sneg l)) as E2.
    change ("pore." +:+ "dirichlet" +:+ "_value")
      with "pore.dirichlet_value" in E1.
    change ("pore." +:+ "dirichlet") with "pore.dirichlet" in E1.
    change ("pore." +:+ "neumann" +:+ "_value")
      with "pore.neumann_value" in E2.
    change ("pore." +:+ "neumann") with "pore.neumann" in E2.
    fold b0. erewrite bind_Ok; [|exact E1]. fold b1.
    erewrite bind_Ok; [|apply contains_run].
    erewrite bind_Ok; [|exact E2]. fold b2.
    reflexivity.
  - intros p Hp.
    rewrite !label_at_labels_of, !value_at_values_of.
    destruct (lookup_lt_is_Some_2 (labels_of self "dirichlet") p
                ltac:(lia)) as [mD HmD].
    destruct (lookup_lt_is_Some_2 (values_of self "dirichlet") p
                ltac:(lia)) as [vD HvD'].
    destruct (lookup_lt_is_Some_2 (labels_of self "neumann") p
                ltac:(lia)) as [mN HmN].
    destruct (lookup_lt_is_Some_2 (values_of self "neumann") p
                ltac:(lia)) as [vN HvN'].
    rewrite HmD, HvD', HmN, HvN'. simpl.
    subst b2.
    erewrite overlay_lookup; [| |exact HmN|].
    2:{ subst b1. erewrite overlay_lookup; [reflexivity| |exact HmD|exact HvD'].
        subst b0. apply lookup_replicate_2. exact Hp. }
    2:{ rewrite list_lookup_fmap, HvN'. reflexivity. }
    destruct mN; reflexivity.
Qed.

Ltac wf_by_compute :=
  split;
  [ intros k Hk; kind_cases Hk; vm_compute; split; intros [a Ha];
    try discriminate Ha; eexists; reflexivity
  | split; split; intros a Ha; vm_compute in Ha;
    first [ discriminate Ha
          | injection Ha as <-; eexists; split; reflexivity ] ].

Lemma build_b_entries_witness :
  let self := exec_all Chain.alg0
                [SetBC [0] "dirichlet" [one] "merge";
                 SetBC [0; 1] "neumann" [one; (one + one)%S] "merge"] in
  wf self /\
  exists b,
    build_b self = (with_b self b, Ok b) /\
    length b = Np self /\
    forall p, p < Np self ->
      b !! p = Some (if label_at self "neumann" p
                     then (- value_at self "neumann" p)%S
                     else if label_at self "dirichlet" p
                          then value_at self "dirichlet" p
                          else zero).
Proof.
  intros self.
  assert (H : wf self) by wf_by_compute.
  split; [exact H|]. exact (build_b_entries self H).
Defined.

(** ** Masks and coordinate triples *)

Lemma compress_map {A} (f : A -> bool) (l : list A) :
  compress (map f l) l = filter (fun x => f x) l.
Proof.
  induction l as [|x l IH]; simpl; [reflexivity|].
  rewrite filter_cons, IH. destruct (f x); reflexivity.
Qed.

Lemma compress_zip {A B} (mask : list bool) (l1 : list A) (l2 : list B) :
  zip (compress mask l1) (compress mask l2) = compress mask (zip l1 l2).
Proof.
  revert l1 l2. induction mask as [|m mask IH]; intros [|x l1] [|y l2];
    simpl; try reflexivity.
  - destruct m; [|destruct (compress mask l1)]; reflexivity.
  - destruct m; simpl; rewrite IH; reflexivity.
Qed.

Lemma length_compress {A B} (mask : list bool) (l1 : list A) (l2 : list B) :
  length l1 = length l2 ->
  length (compress mask l1) = length (compress mask l2).
Proof.
  revert l1 l2. induction mask as [|m mask IH]; intros [|x l1] [|y l2] H;
    simpl in *; try reflexivity; try discriminate.
  injection H as H. destruct m; simpl; rewrite (IH l1 l2 H); reflexivity.
Qed.

Lemma where_from_NoDup i mask : NoDup (where_from i mask).
Proof.
  revert i. induction mask as [|m mask IH]; intros i; simpl; [constructor|].
  destruct m; [|apply IH]. constructor; [|apply IH].
  intros Hin. pose proof (where_from_lt (S i) mask) as H.
  rewrite Forall_forall in H. specialize (H i Hin). lia.
Qed.

Lemma triples_rows (m : coo_matrix) :
  coo_wf m -> row m = map (fun t => fst (fst t)) (triples m).
Proof.
  intros [H1 H2]. unfold triples.
  rewrite <- (fst_zip (row m) (col m)) at 1 by lia.
  rewrite <- (fst_zip (zip (row m) (col m)) (data m)) at 1
    by (rewrite length_zip; lia).
  rewrite <- list_fmap_compose. reflexivity.
Qed.

Lemma filter_diag_NoDup (P : list nat) (f : nat -> scalar) p :
  NoDup P -> p ∈ P ->
  filter (fun t : nat * nat * scalar => fst (fst t) = p)
         (map (fun q => (q, q, f q)) P)
  = [(p, p, f p)].
Proof.
  induction 1 as [|q P Hq HP IH]; intros Hin; [inversion Hin|].
  simpl. rewrite filter_cons. simpl.
  destruct (decide (q = p)) as [->|Hne].
  - f_equal. clear IH Hin. induction P as [|q' P IH]; [reflexivity|].
    simpl. rewrite filter_cons_False.
    + apply IH; [set_solver|]. inversion HP; assumption.
    + simpl. intros ->. apply Hq. left.
  - apply IH. apply elem_of_cons in Hin as [->|Hin]; [contradiction|exact Hin].
Qed.

Lemma filter_diag_notin (P : list nat) (f : nat -> scalar) r :
  r ∉ P ->
  filter (fun t : nat * nat * scalar => fst (fst t) = r)
         (map (fun q => (q, q, f q)) P) = [].
Proof.
  induction P as [|q P IH]; intros Hr; [reflexivity|].
  simpl. apply not_elem_of_cons in Hr as [Hne Hr].
  rewrite filter_cons_False by (simpl; congruence). apply IH, Hr.
Qed.

(** ** The Laplacian as a list of triples *)

Lemma zip_fmap_r {A B C} (f : B -> C) (l : list A) (k : list B) :
  zip l (map f k) = map (fun t => (fst t, f (snd t))) (zip l k).
Proof.
  revert k. induction l as [|x l IH]; intros [|y k]; simpl; try reflexivity.
  rewrite IH. reflexivity.
Qed.

Lemma zip_diag {A} (f : nat -> A) (l : list nat) :
  zip (zip l l) (map f l) = map (fun j => (j, j, f j)) l.
Proof. induction l as [|x l IH]; simpl; [reflexivity|]. rewrite IH. reflexivity. Qed.

Lemma zip_with_map_seq {A B C} (h : A -> B -> C) (f : nat -> A) (g : nat -> B)
    (l : list nat) :
  zip_with h (map f l) (map g l) = map (fun j => h (f j) (g j)) l.
Proof. induction l as [|x l IH]; simpl; [reflexivity|]. rewrite IH. reflexivity. Qed.

Lemma triples_laplacian (m : coo_matrix) :
  coo_wf m ->
  triples (laplacian m)
  = filter (fun t => kept (shape m) t) (map negate_triple (triples m))
    ++ map (fun j => (j, j, degree m j)) (seq 0 (shape m)).
Proof.
  intros [H1 H2]. unfold triples, laplacian. simpl.
  set (keep := zip_with _ (row m) (col m)).
  assert (Hw : zip_with ssub (col_sums m) (diagonal m)
               = map (degree m) (seq 0 (shape m))).
  { unfold col_sums, diagonal. rewrite zip_with_map_seq. reflexivity. }
  rewrite Hw.
  rewrite !zip_with_app.
  2:{ rewrite length_zip_with.
      rewrite (length_compress keep (row m) (col m)) by congruence.
      rewrite (length_compress keep (col m) (map sneg (data m)))
        by (rewrite length_map; exact H2).
      lia. }
  2:{ apply length_compress. congruence. }
  f_equal; [|apply zip_diag].
  fold (zip (compress keep (row m)) (compress keep (col m))).
  rewrite compress_zip.
  fold (zip (compress keep (zip (row m) (col m)))
            (compress keep (map sneg (data m)))).
  rewrite compress_zip, zip_fmap_r.
  fold (triples m). fold negate_triple.
  change (map (fun t => (t.1, (- t.2)%S)) (triples m))
    with (map negate_triple (triples m)).
  rewrite <- compress_map. f_equal.
  subst keep. rewrite zip_with_zip.
  rewrite <- list_fmap_compose.
  rewrite <- (fst_zip (zip (row m) (col m)) (data m)) at 1
    by (rewrite length_zip; lia).
  fold (triples m). rewrite <- list_fmap_compose.
  apply list_fmap_ext. intros i [[r c] d] _. reflexivity.
Qed.

Lemma coo_wf_adjacency net w :
  length w = length (conns net) -> coo_wf (adjacency net w).
Proof.
  intros H. unfold coo_wf, adjacency. simpl.
  rewrite !length_app, !length_map. lia.
Qed.

Lemma create_adjacency_matrix_run net w :
  length w = length (conns net) ->
  create_adjacency_matrix net w = Ok (adjacency net w).
Proof.
  intros H. unfold create_adjacency_matrix. rewrite H, Nat.eqb_refl.
  reflexivity.
Qed.

Lemma coo_wf_laplacian m : coo_wf m -> coo_wf (laplacian m).
Proof.
  intros [H1 H2]. unfold coo_wf, laplacian. simpl.
  set (keep := zip_with _ (row m) (col m)).
  rewrite !length_app, !length_seq, length_zip_with.
  unfold col_sums, diagonal. rewrite !length_map, length_seq.
  rewrite (length_compress keep (row m) (map sneg (data m)))
    by (rewrite length_map; exact H1).
  rewrite (length_compress keep (col m) (map sneg (data m)))
    by (rewrite length_map; exact H2).
  lia.
Qed.

Lemma phase_item_run self g :
  conductance_is self g ->
  phase_item (conductance (settings self)) self = (self, Ok (FloatArr g)).
Proof.
  intros (ph & k & Hph & Hk & Hg & _). unfold phase_item.
  rewrite Hph, Hk, Hg. reflexivity.
Qed.

Lemma build_A_laplacian_run self g :
  conductance_is self g ->
  build_A_laplacian self
  = (self, Ok (laplacian (adjacency (network (simulation self))
                            (map sneg g)))).
Proof.
  intros Hg. unfold build_A_laplacian.
  rewrite (bind_Ok get_network _ self self _ eq_refl).
  rewrite (bind_Ok get _ self self self eq_refl).
  erewrite bind_Ok; [|apply phase_item_run, Hg].
  unfold bind, lift. simpl as_floats.
  rewrite create_adjacency_matrix_run; [reflexivity|].
  rewrite length_map. destruct Hg as (_ & _ & _ & _ & _ & H). exact H.
Qed.

(** ** Dirichlet rows of the system matrix (C3) *)

Lemma build_A_dirichlet_run A a self :
  items self !! "pore.dirichlet" = Some a -> coo_wf A ->
  exists A',
    build_A_dirichlet A self = (self, Ok A') /\
    triples A'
    = filter (fun t => fst (fst t) ∉ toindices a) (triples A)
      ++ map (fun p => (p, p, one)) (toindices a).
Proof.
  intros Ha [H1 H2]. unfold build_A_dirichlet.
  erewrite bind_Ok; [|apply getitem_run, Ha].
  eexists. split; [reflexivity|].
  set (P := toindices a).
  set (indr := map negb (in1d (row A) P)).
  unfold triples, set_row, set_col, set_data. simpl.
  rewrite !zip_with_app.
  2:{ rewrite length_zip_with.
      rewrite (length_compress indr (row A) (col A)) by congruence.
      rewrite (length_compress indr (col A) (data A)) by congruence. lia. }
  2:{ apply length_compress. congruence. }
  f_equal; [|apply (zip_diag (fun _ => one))].
  fold (zip (compress indr (row A)) (compress indr (col A))).
  rewrite compress_zip.
  fold (zip (compress indr (zip (row A) (col A))) (compress indr (data A))).
  rewrite compress_zip. fold (triples A).
  assert (Hindr : indr = map (fun t => negb (bool_decide (fst (fst t) ∈ P)))
                           (triples A)).
  { subst indr. unfold in1d. rewrite (triples_rows A) by (split; assumption).
    rewrite <- !list_fmap_compose. reflexivity. }
  rewrite Hindr, compress_map.
  apply list_filter_iff. intros t.
  rewrite negb_True, bool_decide_spec. reflexivity.
Qed.

Lemma where_NoDup mask : NoDup (where_ mask).
Proof. apply where_from_NoDup. Qed.

Lemma filter_never {A} (P : A -> Prop) `{!forall x, Decision (P x)}
    (l : list A) :
  (forall x, x ∈ l -> ~ P x) -> filter P l = [].
Proof.
  induction l as [|x l IH]; intros Hl; [reflexivity|].
  rewrite filter_cons_False by (apply Hl; left).
  apply IH. intros y Hy. apply Hl. right. exact Hy.
Qed.

(** C3: when the conductance is bound, [build_A] returns a matrix in which
    the row of every Dirichlet node holds the single triple (row, row, 1),
    and the triples of every other row are those of the Laplacian built
    before the editing, in the same order. *)
Theorem build_A_dirichlet_rows self g :
  conductance_is self g ->
  exists L A,
    build_A_laplacian self = (self, Ok L) /\
    build_A self = (with_A self A, Ok A) /\
    (forall p, p ∈ dirichlet_nodes self -> row_entries A p = [(p, p, one)]) /\
    (forall r, r ∉ dirichlet_nodes self -> row_entries A r = row_entries L r).
Proof.
  intros Hg.
  pose proof (build_A_laplacian_run self g Hg) as HL.
  set (L := laplacian _) in HL.
  assert (HwfL : coo_wf L).
  { apply coo_wf_laplacian, coo_wf_adjacency. rewrite length_map.
    destruct Hg as (_ & _ & _ & _ & _ & H). exact H. }
  unfold build_A, dirichlet_nodes.
  destruct (items self !! "pore.dirichlet") as [a|] eqn:Ha.
  - destruct (build_A_dirichlet_run L a self Ha HwfL) as (A & HA & HT).
    exists L, A. split; [exact HL|]. split.
    + erewrite bind_Ok; [|exact HL].
      erewrite bind_Ok; [|apply contains_run].
      erewrite bind_Ok by (destruct (bool_decide _); reflexivity).
      erewrite bind_Ok; [|apply contains_run].
      rewrite Ha, bool_decide_eq_true_2 by (eexists; reflexivity).
      erewrite bind_Ok; [|exact HA]. reflexivity.
    + unfold row_entries. rewrite HT. split.
      * intros p Hp. rewrite filter_app.
        rewrite (filter_diag_NoDup (toindices a) (fun _ => one) p
                   (where_NoDup _) Hp).
        rewrite list_filter_filter, filter_never; [reflexivity|].
        intros t _ [Ht Hn]. apply Hn. rewrite Ht. exact Hp.
      * intros r Hr. rewrite filter_app.
        rewrite (filter_diag_notin (toindices a) (fun _ => one) r Hr).
        rewrite app_nil_r. apply list_filter_filter_l.
        intros t ->. exact Hr.
  - exists L, L. split; [exact HL|]. split.
    + erewrite bind_Ok; [|exact HL].
      erewrite bind_Ok; [|apply contains_run].
      erewrite bind_Ok by (destruct (bool_decide _); reflexivity).
      erewrite bind_Ok; [|apply contains_run].
      rewrite Ha, bool_decide_eq_false_2 by (intros [? ?]; discriminate).
      reflexivity.
    + split; [intros p Hp; inversion Hp|reflexivity].
Qed.

Ltac conductance_by_compute :=
  eexists _, _; repeat split; vm_compute; reflexivity.

Lemma build_A_dirichlet_rows_witness :
  conductance_is Chain.alg1 [one; one] /\
  exists L A,
    build_A_laplacian Chain.alg1 = (Chain.alg1, Ok L) /\
    build_A Chain.alg1 = (with_A Chain.alg1 A, Ok A) /\
    (forall p, p ∈ dirichlet_nodes Chain.alg1 ->
       row_entries A p = [(p, p, one)]) /\
    (forall r, r ∉ dirichlet_nodes Chain.alg1 ->
       row_entries A r = row_entries L r).
Proof.
  assert (H : conductance_is Chain.alg1 [one; one])
    by conductance_by_compute.
  split; [exact H|]. exact (build_A_dirichlet_rows Chain.alg1 _ H).
Defined.

(** ** Sums over triples *)

Section Tsum.
Implicit Types (P Q : nat * nat * scalar -> Prop).
Implicit Types (T : list (nat * nat * scalar)).

Lemma tsum_app P `{!forall t, Decision (P t)} T1 T2 :
  tsum P (T1 ++ T2) = (tsum P T1 + tsum P T2)%S.
Proof. unfold tsum. rewrite filter_app, map_app. apply sp_sum_app. Qed.

Lemma tsum_ext P Q `{!forall t, Decision (P t), !forall t, Decision (Q t)} T :
  (forall t, t ∈ T -> (P t <-> Q t)) -> tsum P T = tsum Q T.
Proof.
  intros HPQ. unfold tsum. f_equal. f_equal.
  induction T as [|t T IH]; [reflexivity|].
  rewrite !filter_cons.
  rewrite IH by (intros t' Ht'; apply HPQ; right; exact Ht').
  pose proof (HPQ t (list_elem_of_here _ _)) as Ht.
  destruct (decide (P t)) as [HP|HP], (decide (Q t)) as [HQ|HQ];
    try reflexivity; tauto.
Qed.

Lemma tsum_never P `{!forall t, Decision (P t)} T :
  (forall t, t ∈ T -> ~ P t) -> tsum P T = zero.
Proof.
  intros HP. unfold tsum. rewrite filter_never by exact HP. reflexivity.
Qed.

Lemma tsum_filter P Q `{!forall t, Decision (P t), !forall t, Decision (Q t)} T :
  tsum P (filter Q T) = tsum (fun t => P t /\ Q t) T.
Proof. unfold tsum. rewrite list_filter_filter. reflexivity. Qed.

Lemma tsum_split P Q `{!forall t, Decision (P t), !forall t, Decision (Q t)} T :
  tsum P T
  = (tsum (fun t => P t /\ Q t) T + tsum (fun t => P t /\ ~ Q t) T)%S.
Proof.
  unfold tsum. induction T as [|t T IH]; [reflexivity|].
  rewrite !filter_cons.
  destruct (decide (P t)) as [HP|HP].
  - destruct (decide (Q t)) as [HQ|HQ].
    + rewrite decide_True by tauto. rewrite decide_False by tauto.
      rewrite !map_cons, !sp_sum_cons, IH. apply sadd_assoc.
    + rewrite decide_False by tauto. rewrite decide_True by tauto.
      rewrite !map_cons, !sp_sum_cons, IH.
      rewrite !sadd_assoc. f_equal. apply sadd_comm.
  - rewrite !decide_False by tauto. exact IH.
Qed.

Lemma tsum_map (f : nat * nat * scalar -> nat * nat * scalar) P
    `{!forall t, Decision (P t)} T :
  tsum P (map f T) = sp_sum (map (fun t => snd (f t))
                                 (filter (fun t => P (f t)) T)).
Proof.
  unfold tsum. induction T as [|t T IH]; [reflexivity|].
  rewrite map_cons, !filter_cons.
  destruct (decide (P (f t))); rewrite ?map_cons, ?sp_sum_cons, IH;
    reflexivity.
Qed.

Lemma tsum_swap P `{!forall t, Decision (P t)} T :
  tsum P (map swap_triple T) = tsum (fun t => P (swap_triple t)) T.
Proof. rewrite tsum_map. reflexivity. Qed.

Lemma tsum_negate P `{!forall t, Decision (P t)} T :
  (forall t, P (negate_triple t) <-> P t) ->
  tsum P (map negate_triple T) = (- tsum P T)%S.
Proof.
  intros HP. rewrite tsum_map. unfold tsum.
  rewrite <- sp_sum_map_sneg, <- list_fmap_compose.
  f_equal. f_equal. apply list_filter_iff, HP.
Qed.

Lemma finite_tsum P `{!forall t, Decision (P t)} T :
  Forall (fun t => finite (snd t)) T -> finite (tsum P T).
Proof.
  intros HT. apply finite_sp_sum. apply Forall_fmap.
  rewrite Forall_forall in HT |- *. intros t Ht.
  apply list_elem_of_filter in Ht as [_ Ht]. apply HT, Ht.
Qed.
End Tsum.

(** ** The entries of the Laplacian (C2) *)

Lemma negate_negate T : map negate_triple (map negate_triple T) = T.
Proof.
  rewrite <- list_fmap_compose. rewrite <- (list_fmap_id T) at 2.
  apply list_fmap_ext. intros _ [[r c] d] _. unfold negate_triple. simpl.
  rewrite sneg_involutive. reflexivity.
Qed.

Lemma zip_swapped (c : list (nat * nat)) (w : list scalar) :
  zip (zip (map snd c) (map fst c)) w = map swap_triple (zip c w).
Proof.
  revert w. induction c as [|[u v] c IH]; intros [|x w]; simpl;
    try reflexivity.
  rewrite IH. reflexivity.
Qed.

Lemma triples_adjacency net g :
  length g = length (conns net) ->
  triples (adjacency net (map sneg g)) = map negate_triple (both_ways net g).
Proof.
  intros Hl. unfold triples, adjacency, both_ways, edges. simpl.
  rewrite !zip_with_app by (rewrite ?length_zip_with, !length_map; lia).
  rewrite map_app. f_equal.
  - assert (Hz : zip_with pair (map fst (conns net)) (map snd (conns net))
                 = conns net) by exact (zip_fst_snd (conns net)).
    rewrite Hz. apply zip_fmap_r.
  - etransitivity; [exact (zip_swapped _ _)|].
    etransitivity;
      [exact (f_equal (map swap_triple) (zip_fmap_r sneg (conns net) g))|].
    rewrite <- !list_fmap_compose.
    apply list_fmap_ext. intros _ [[u v] x] _. reflexivity.
Qed.

Lemma triples_network_laplacian net g :
  length g = length (conns net) ->
  triples (laplacian (adjacency net (map sneg g)))
  = filter (fun t => kept (net_Np net) t) (both_ways net g)
    ++ map (fun j => (j, j, degree (adjacency net (map sneg g)) j))
           (seq 0 (net_Np net)).
Proof.
  intros Hl. rewrite triples_laplacian
    by (apply coo_wf_adjacency; rewrite length_map; exact Hl).
  rewrite triples_adjacency by exact Hl. rewrite negate_negate. reflexivity.
Qed.

Lemma entry_tsum m i j :
  entry m i j = tsum (fun t => fst (fst t) = i /\ snd (fst t) = j) (triples m).
Proof.
  unfold entry, select. apply (tsum_ext _ _ (triples m)). intros t _.
  rewrite andb_True, !bool_decide_spec. reflexivity.
Qed.

Lemma row_sum_tsum m i :
  row_sum m i = tsum (fun t => fst (fst t) = i) (triples m).
Proof.
  unfold row_sum, select. apply (tsum_ext _ _ (triples m)). intros t _.
  rewrite bool_decide_spec. reflexivity.
Qed.

Lemma offdiag_row_sum_tsum m i :
  offdiag_row_sum m i
  = tsum (fun t => fst (fst t) = i /\ snd (fst t) <> i) (triples m).
Proof.
  unfold offdiag_row_sum, select. apply (tsum_ext _ _ (triples m)).
  intros t _. rewrite andb_True, negb_True, !bool_decide_spec. reflexivity.
Qed.

Lemma degree_tsum m j :
  degree m j
  = (tsum (fun t => snd (fst t) = j) (triples m)
     - tsum (fun t => fst (fst t) = j /\ snd (fst t) = j) (triples m))%S.
Proof.
  unfold degree. rewrite entry_tsum. f_equal.
  unfold select. apply (tsum_ext _ _ (triples m)). intros t _.
  rewrite bool_decide_spec. reflexivity.
Qed.

Lemma conductance_between_tsum net g i j :
  length g = length (conns net) ->
  conductance_between net g i j
  = tsum (fun t => joins i j (fst t)) (edges net g).
Proof.
  intros Hl. unfold conductance_between, tsum, edges. f_equal.
  set (mask := map (joins i j) (conns net)).
  rewrite <- (snd_zip (compress mask (conns net)) (compress mask g)).
  2:{ rewrite (length_compress mask g (conns net)) by exact Hl. lia. }
  rewrite compress_zip.
  replace mask with (map (fun t : nat * nat * scalar => joins i j (fst t))
                         (zip (conns net) g)).
  - rewrite compress_map. reflexivity.
  - subst mask. rewrite <- (fst_zip (conns net) g) at 2 by lia.
    rewrite <- list_fmap_compose. reflexivity.
Qed.

Lemma tsum_diag_never P `{!forall t, Decision (P t)} (f : nat -> scalar) l :
  (forall j, ~ P (j, j, f j)) ->
  tsum P (map (fun j => (j, j, f j)) l) = zero.
Proof.
  intros HP. apply tsum_never. intros t Ht.
  apply list_elem_of_fmap in Ht as (j & -> & _). apply HP.
Qed.

Lemma tsum_diag_row (f : nat -> scalar) n i :
  tsum (fun t => fst (fst t) = i) (map (fun j => (j, j, f j)) (seq 0 n))
  = if decide (i < n) then f i else zero.
Proof.
  unfold tsum. case_decide as Hi.
  - rewrite (filter_diag_NoDup (seq 0 n) f i (NoDup_seq 0 n)).
    + simpl map. rewrite sp_sum_cons, sp_sum_nil. apply sadd_zero_r.
    + apply elem_of_seq. lia.
  - rewrite (filter_diag_notin (seq 0 n) f i); [reflexivity|].
    rewrite elem_of_seq. lia.
Qed.

Lemma offdiag_entry net g i j :
  length g = length (conns net) -> i <> j ->
  entry (laplacian (adjacency net (map sneg g))) i j
  = conductance_between net g i j.
Proof.
  intros Hl Hij. rewrite entry_tsum, triples_network_laplacian by exact Hl.
  rewrite tsum_app.
  rewrite (tsum_diag_never _ _ _) by (simpl; intros k [-> Hk]; congruence).
  rewrite sadd_zero_r, tsum_filter.
  rewrite (tsum_ext _ (fun t => fst (fst t) = i /\ snd (fst t) = j)).
  2:{ intros t _. split; [tauto|]. intros [Hr Hc]. split; [tauto|].
      unfold kept. rewrite Hr, Hc.
      rewrite bool_decide_eq_false_2 by congruence. exact I. }
  unfold both_ways. rewrite tsum_app, tsum_swap.
  rewrite conductance_between_tsum by exact Hl.
  rewrite (tsum_split (fun t => joins i j (fst t))
             (fun t => fst (fst t) = i /\ snd (fst t) = j)).
  f_equal; apply tsum_ext; intros [[u v] x] _; unfold joins; simpl;
    rewrite orb_True, !bool_decide_spec; split.
  - intros [-> ->]. split; [left; reflexivity|tauto].
  - tauto.
  - intros [-> ->]. split; [right; reflexivity|].
    intros [-> _]. congruence.
  - intros [[H|H] Hn]; injection H as -> ->; tauto.
Qed.

Lemma both_ways_symmetric net g i :
  tsum (fun t => snd (fst t) = i) (both_ways net g)
  = tsum (fun t => fst (fst t) = i) (both_ways net g).
Proof.
  unfold both_ways. rewrite !tsum_app, !tsum_swap. simpl. apply sadd_comm.
Qed.

Lemma both_ways_valid net g t :
  valid_network net -> t ∈ both_ways net g ->
  fst (fst t) < net_Np net /\ snd (fst t) < net_Np net.
Proof.
  intros Hv Ht. unfold valid_network in Hv. rewrite Forall_forall in Hv.
  assert (He : forall t', t' ∈ edges net g -> fst t' ∈ conns net).
  { intros [e x] Hin. apply elem_of_zip_l in Hin. exact Hin. }
  unfold both_ways in Ht. apply elem_of_app in Ht as [Ht|Ht].
  - apply Hv, He, Ht.
  - apply list_elem_of_fmap in Ht as (t' & -> & Ht').
    destruct (Hv _ (He _ Ht')) as [H1 H2]. simpl. tauto.
Qed.

Lemma both_ways_finite net g :
  Forall finite g -> Forall (fun t => finite (snd t)) (both_ways net g).
Proof.
  intros Hg.
  assert (He : Forall (fun t : nat * nat * scalar => finite (snd t))
                 (edges net g)).
  { apply Forall_forall. intros [e x] Hin.
    apply elem_of_zip_r in Hin. simpl.
    apply (proj1 (Forall_forall finite g) Hg). exact Hin. }
  unfold both_ways. apply Forall_app. split; [exact He|].
  apply Forall_fmap. eapply Forall_impl; [exact He|].
  intros [[u v] x] H. exact H.
Qed.

(** The algebra behind the zero row sums. *)
Lemma degree_balance (O D : scalar) :
  finite O -> finite D ->
  ((- (D + O) - - D) = - O)%S /\ (O + ((- (D + O) - - D)) = zero)%S.
Proof.
  intros [o ->] [d ->]. unfold sadd, ssub, sneg, zero.
  split; f_equal; ring.
Qed.

Lemma diagonal_entry net g i :
  length g = length (conns net) -> valid_network net -> Forall finite g ->
  let L := laplacian (adjacency net (map sneg g)) in
  entry L i i = (- offdiag_row_sum L i)%S /\ row_sum L i = zero.
Proof.
  intros Hl Hv Hg L. subst L.
  rewrite entry_tsum, offdiag_row_sum_tsum, row_sum_tsum.
  rewrite triples_network_laplacian by exact Hl.
  set (BW := both_ways net g).
  set (am := adjacency net (map sneg g)).
  set (O := tsum (fun t => fst (fst t) = i /\ snd (fst t) <> i) BW).
  set (D := tsum (fun t => fst (fst t) = i /\ snd (fst t) = i) BW).
  assert (HfO : finite O) by (apply finite_tsum, both_ways_finite, Hg).
  assert (HfD : finite D) by (apply finite_tsum, both_ways_finite, Hg).
  (* the three sums over the kept off-diagonal triples *)
  assert (Hkept_diag :
    tsum (fun t => fst (fst t) = i /\ snd (fst t) = i)
         (filter (fun t => kept (net_Np net) t) BW) = zero).
  { rewrite tsum_filter. apply tsum_never. intros t Ht [[Hr Hc] Hk].
    destruct (both_ways_valid net g t Hv Ht) as [Hlt _].
    unfold kept in Hk. rewrite Hr, Hc in Hk.
    rewrite bool_decide_eq_true_2 in Hk by reflexivity.
    rewrite Hr in Hlt. apply Nat.leb_gt in Hlt. rewrite Hlt in Hk. exact Hk. }
  assert (Hkept_off :
    tsum (fun t => fst (fst t) = i /\ snd (fst t) <> i)
         (filter (fun t => kept (net_Np net) t) BW) = O).
  { rewrite tsum_filter. apply tsum_ext. intros t Ht.
    split; [tauto|]. intros [Hr Hc]. split; [tauto|].
    unfold kept. rewrite Hr.
    rewrite bool_decide_eq_false_2 by exact Hc. exact I. }
  assert (Hkept_row :
    tsum (fun t => fst (fst t) = i)
         (filter (fun t => kept (net_Np net) t) BW) = O).
  { rewrite tsum_filter. apply tsum_ext. intros t Ht.
    destruct (both_ways_valid net g t Hv Ht) as [Hlt _].
    unfold kept. split.
    - intros [Hr Hk]. split; [exact Hr|]. intros Hc.
      rewrite Hr, Hc in Hk.
      rewrite bool_decide_eq_true_2 in Hk by reflexivity.
      rewrite Hr in Hlt. apply Nat.leb_gt in Hlt. rewrite Hlt in Hk. exact Hk.
    - intros [Hr Hc]. split; [exact Hr|]. rewrite Hr.
      rewrite bool_decide_eq_false_2 by exact Hc. exact I. }
  (* the degree put on the diagonal *)
  assert (Hdeg : degree am i = (- (D + O) - - D)%S).
  { rewrite degree_tsum. subst am. rewrite triples_adjacency by exact Hl.
    rewrite !tsum_negate by (intros [[r c] x]; reflexivity).
    rewrite both_ways_symmetric.
    rewrite (tsum_split (fun t => fst (fst t) = i)
               (fun t => snd (fst t) = i)).
    reflexivity. }
  rewrite !tsum_app, Hkept_diag, Hkept_off, Hkept_row.
  rewrite (tsum_diag_never (fun t => fst (fst t) = i /\ snd (fst t) <> i))
    by (simpl; intros k [-> Hk]; congruence).
  rewrite (tsum_ext (fun t => fst (fst t) = i /\ snd (fst t) = i)
             (fun t => fst (fst t) = i)).
  2:{ intros t Ht. apply list_elem_of_fmap in Ht as (k & -> & _). simpl.
      tauto. }
  rewrite tsum_diag_row, sadd_zero_l, sadd_zero_r.
  destruct (degree_balance O D HfO HfD) as [E1 E2].
  case_decide as Hi.
  - rewrite Hdeg. split; [exact E1|exact E2].
  - assert (HO : O = zero).
    { apply tsum_never. intros t Ht [Hr _].
      destruct (both_ways_valid net g t Hv Ht) as [Hlt _]. lia. }
    rewrite HO. split; [reflexivity|apply sadd_zero_l].
Qed.

(** C2, as amended: with a bound conductance field without [NaN] on a
    network whose edges join its nodes, the matrix assembled before any
    Dirichlet editing has, for distinct nodes [i] and [j], the entry
    [(i, j)] equal to plus the sum of the conductances of the edges joining
    them, and a diagonal entry equal to the negative sum of the row's
    off-diagonal entries, so that every row sums to zero. *)
Theorem laplacian_entries self g :
  conductance_is self g ->
  valid_network (network (simulation self)) ->
  Forall finite g ->
  exists L,
    build_A_laplacian self = (self, Ok L) /\
    (forall i j, i <> j ->
       entry L i j = conductance_between (network (simulation self)) g i j) /\
    (forall i, entry L i i = (- offdiag_row_sum L i)%S /\ row_sum L i = zero).
Proof.
  intros Hc Hv Hg.
  assert (Hl : length g = length (conns (network (simulation self))))
    by (destruct Hc as (_ & _ & _ & _ & _ & H); exact H).
  eexists. split; [apply build_A_laplacian_run, Hc|]. split.
  - intros i j Hij. apply offdiag_entry; assumption.
  - intros i. apply diagonal_entry; assumption.
Qed.

Ltac network_by_compute :=
  repeat constructor; vm_compute; lia.

Ltac finite_by_compute :=
  repeat constructor; eexists; reflexivity.

Lemma laplacian_entries_witness :
  conductance_is Chain.alg0 [one; one] /\
  valid_network (network (simulation Chain.alg0)) /\
  Forall finite [one; one] /\
  exists L,
    build_A_laplacian Chain.alg0 = (Chain.alg0, Ok L) /\
    (forall i j, i <> j ->
       entry L i j
       = conductance_between (network (simulation Chain.alg0)) [one; one] i j) /\
    (forall i, entry L i i = (- offdiag_row_sum L i)%S /\ row_sum L i = zero).
Proof.
  assert (H1 : conductance_is Chain.alg0 [one; one])
    by conductance_by_compute.
  assert (H2 : valid_network (network (simulation Chain.alg0)))
    by network_by_compute.
  assert (H3 : Forall finite [one; one]) by finite_by_compute.
  repeat (split; [assumption|]).
  exact (laplacian_entries Chain.alg0 _ H1 H2 H3).
Defined.

(** The numerator of a scalar, to tell computed values apart. *)
Lemma Num_neq (a b : Qc) : Qnum (this a) <> Qnum (this b) -> Num a <> Num b.
Proof. intros H [= E]. apply H. rewrite E. reflexivity. Qed.

(** On the chain, entry (0, 1) of the assembled matrix is +1, not -1. *)
Lemma offdiagonal_entry_is_not_negated :
  ~ (forall self g L i j,
       conductance_is self g ->
       valid_network (network (simulation self)) ->
       Forall finite g ->
       build_A_laplacian self = (self, Ok L) ->
       i <> j ->
       entry L i j
       = (- conductance_between (network (simulation self)) g i j)%S).
Proof.
  intros H.
  assert (H1 : conductance_is Chain.alg0 [one; one])
    by conductance_by_compute.
  assert (H2 : valid_network (network (simulation Chain.alg0)))
    by network_by_compute.
  assert (H3 : Forall finite [one; one]) by finite_by_compute.
  specialize (H Chain.alg0 [one; one] _ 0 1 H1 H2 H3
                (build_A_laplacian_run _ _ H1) ltac:(discriminate)).
  revert H. vm_compute. apply Num_neq. vm_compute. discriminate.
Qed.

(** ** Gathering by index *)

Lemma mapR_Ok {A B} (f : A -> result B) (h : A -> B) (l : list A) :
  (forall a, a ∈ l -> f a = Ok (h a)) -> mapR f l = Ok (map h l).
Proof.
  induction l as [|a l IH]; intros Hf; [reflexivity|].
  simpl. rewrite (Hf a) by left. simpl.
  rewrite IH by (intros b Hb; apply Hf; right; exact Hb). reflexivity.
Qed.

Lemma mapR_fmap {A B C} (f : B -> result C) (k : A -> B) (l : list A) :
  mapR f (map k l) = mapR (fun a => f (k a)) l.
Proof.
  induction l as [|a l IH]; [reflexivity|]. simpl. rewrite IH. reflexivity.
Qed.

Lemma mapR_indices {A B} (l : list A) (f : nat -> result B) (h : A -> B) :
  (forall i a, l !! i = Some a -> f i = Ok (h a)) ->
  mapR f (seq 0 (length l)) = Ok (map h l).
Proof.
  revert f. induction l as [|a l IH]; intros f Hf; [reflexivity|].
  simpl length. rewrite <- cons_seq, <- fmap_S_seq. simpl mapR.
  rewrite (Hf 0 a eq_refl). simpl.
  change (S <$> seq 0 (length l)) with (map S (seq 0 (length l))).
  rewrite mapR_fmap, (IH (fun i => f (S i))); [reflexivity|].
  intros i b Hi. apply (Hf (S i) b). exact Hi.
Qed.

Lemma take_idx_total {A} (d : A) (l : list A) (idx : list nat) :
  Forall (fun i => i < length l) idx ->
  take_idx l idx = Ok (map (fun i => default d (l !! i)) idx).
Proof.
  intros H. unfold take_idx. apply mapR_Ok. intros i Hi.
  apply (proj1 (Forall_forall _ idx) H) in Hi.
  unfold index. destruct (lookup_lt_is_Some_2 l i Hi) as [a ->]. reflexivity.
Qed.

Lemma take_idx_where_from {A} (pre l : list A) (mask : list bool) :
  length mask = length l ->
  take_idx (pre ++ l) (where_from (length pre) mask) = Ok (compress mask l).
Proof.
  revert pre l. induction mask as [|m mask IH]; intros pre [|a l] Hl;
    simpl in *; try discriminate; [reflexivity|].
  injection Hl as Hl.
  assert (IH' := IH (pre ++ [a]) l Hl).
  rewrite <- app_assoc, length_app in IH'. simpl in IH'.
  rewrite Nat.add_1_r in IH'.
  destruct m; [|exact IH'].
  unfold take_idx in *. simpl. unfold index at 1.
  rewrite lookup_app_r by lia. rewrite Nat.sub_diag. simpl.
  rewrite IH'. reflexivity.
Qed.

Lemma take_idx_where {A} (l : list A) (mask : list bool) :
  length mask = length l -> take_idx l (where_ mask) = Ok (compress mask l).
Proof. apply (take_idx_where_from [] l mask). Qed.

Lemma overlay_map {A B} (f h : A -> B) (m : A -> bool) (l : list A) :
  overlay (map f l) (map m l) (map h l)
  = map (fun a => if m a then h a else f a) l.
Proof. induction l as [|a l IH]; simpl; [reflexivity|]. rewrite IH. reflexivity. Qed.

Lemma zip_with_map_same {A B C D} (h : B -> C -> D) (f : A -> B) (k : A -> C)
    (l : list A) :
  zip_with h (map f l) (map k l) = map (fun a => h (f a) (k a)) l.
Proof. induction l as [|a l IH]; simpl; [reflexivity|]. rewrite IH. reflexivity. Qed.

Lemma zip_with_map_zip {A B C D} (h : B -> C -> D) (k : A -> C)
    (w : list B) (l : list A) :
  zip_with h w (map k l) = map (fun aw => h (snd aw) (k (fst aw))) (zip l w).
Proof.
  revert w. induction l as [|a l IH]; intros [|b w]; simpl; try reflexivity.
  rewrite IH. reflexivity.
Qed.

(** ** Rates (C5, C7) *)

Lemma crossing_inner_outer P e :
  crosses P e = true ->
  inside P (inner P e) = true /\ inside P (outer P e) = false.
Proof.
  unfold crosses, inner, outer.
  destruct (inside P (fst e)) eqn:H1, (inside P (snd e)) eqn:H2; simpl;
    intros H; try discriminate; rewrite ?H1, ?H2; split; reflexivity.
Qed.

Lemma crossing_edges net g P :
  length g = length (conns net) ->
  filter (fun eg : nat * nat * scalar => crosses P (fst eg) = true)
         (zip (conns net) g)
  = zip (compress (map (crosses P) (conns net)) (conns net))
        (compress (map (crosses P) (conns net)) g).
Proof.
  intros Hl. rewrite compress_zip.
  replace (map (crosses P) (conns net))
    with (map (fun eg : nat * nat * scalar => crosses P (fst eg))
              (zip (conns net) g)).
  - rewrite compress_map. apply list_filter_iff. intros eg.
    symmetry. apply Is_true_true.
  - rewrite <- (fst_zip (conns net) g) at 2 by lia.
    rewrite <- list_fmap_compose. reflexivity.
Qed.

(** The loop body of [rate] on the boundary edges of a group computes the
    boundary rate of the group. *)
Lemma rate_of_group_run net g x P :
  length g = length (conns net) -> length x = net_Np net ->
  valid_network net ->
  rate_of_group net g x (find_neighbor_throats_flat net P) P
  = Ok (boundary_rate net g x P).
Proof.
  intros Hg Hx Hv. unfold rate_of_group, find_neighbor_throats_flat,
    find_connected_pores.
  set (mask := map (crosses P) (conns net)).
  set (cn := compress mask (conns net)).
  assert (Hcn : forall e, e ∈ cn -> e ∈ conns net).
  { intros e. subst cn mask. rewrite compress_map.
    intros He. apply list_elem_of_filter in He. tauto. }
  rewrite take_idx_where by (subst mask; apply length_map).
  simpl rbind. fold cn.
  set (out := map negb (in1d (map fst cn) P)).
  assert (Hout : out = map (fun e => negb (inside P (fst e))) cn).
  { subst out. unfold in1d, inside. rewrite <- !list_fmap_compose.
    reflexivity. }
  rewrite Hout.
  unfold getitem_mask. rewrite !length_map, Nat.eqb_refl. simpl rbind.
  rewrite setitem_mask_compress by (rewrite !length_map; reflexivity).
  simpl rbind.
  rewrite setitem_mask_compress by (rewrite !length_map; reflexivity).
  simpl rbind. rewrite !overlay_map.
  assert (Hin : map (fun e => if negb (inside P (fst e)) then snd e else fst e)
                  cn = map (inner P) cn).
  { apply list_fmap_ext. intros _ e _. unfold inner.
    destruct (inside P (fst e)); reflexivity. }
  assert (Hou : map (fun e => if negb (inside P (fst e)) then fst e else snd e)
                  cn = map (outer P) cn).
  { apply list_fmap_ext. intros _ e _. unfold outer.
    destruct (inside P (fst e)); reflexivity. }
  rewrite Hin, Hou.
  rewrite (take_idx_total NaN x (map (inner P) cn)).
  2:{ apply Forall_fmap, Forall_forall. intros e He. simpl.
      apply Hcn in He. apply (proj1 (Forall_forall _ _) Hv) in He.
      rewrite Hx. unfold inner. destruct (inside P (fst e)); tauto. }
  simpl rbind.
  rewrite (take_idx_total NaN x (map (outer P) cn)).
  2:{ apply Forall_fmap, Forall_forall. intros e He. simpl.
      apply Hcn in He. apply (proj1 (Forall_forall _ _) Hv) in He.
      rewrite Hx. unfold outer. destruct (inside P (fst e)); tauto. }
  simpl rbind.
  rewrite take_idx_where by (subst mask; rewrite length_map; lia).
  simpl rbind. f_equal. unfold boundary_rate. f_equal.
  rewrite crossing_edges by exact Hg. fold mask. fold cn.
  rewrite <- !list_fmap_compose, zip_with_map_same, zip_with_map_zip.
  reflexivity.
Qed.

Lemma getitem_opt_run self x :
  quantity_is self x ->
  getitem_opt (quantity (settings self)) self = (self, Ok (FloatArr x)).
Proof.
  intros (k & Hk & Hx & _). rewrite Hk. simpl. apply getitem_run, Hx.
Qed.

Section Rate.
Context (self : GenericLinearTransport) (g x : list scalar).
Context (pores : list nat).
Context (Hg : conductance_is self g) (Hx : quantity_is self x).
Context (Hv : valid_network (network (simulation self))).
Context (Hp : Forall (fun i => i < Np self) pores).

Let net := network (simulation self).

Lemma rate_group_run :
  rate pores "group" self = (self, Ok [boundary_rate net g x pores]).
Proof using Hg Hx Hv Hp.
  unfold rate.
  rewrite (bind_Ok get_network _ self self _ eq_refl).
  rewrite (bind_Ok get _ self self self eq_refl).
  erewrite bind_Ok; [|apply phase_item_run, Hg].
  erewrite bind_Ok; [|apply getitem_opt_run, Hx].
  erewrite bind_Ok; [|apply _parse_indices_accepts, Hp].
  rewrite bool_decide_eq_true_2 by reflexivity.
  unfold lift. simpl seq. simpl mapR. simpl as_floats.
  rewrite rate_of_group_run; [reflexivity| | |exact Hv].
  - destruct Hg as (_ & _ & _ & _ & _ & H). exact H.
  - destruct Hx as (_ & _ & _ & H). exact H.
Qed.

Lemma rate_single_run :
  rate pores "single" self
  = (self, Ok (map (fun p => boundary_rate net g x [p]) pores)).
Proof using Hg Hx Hv Hp.
  unfold rate.
  rewrite (bind_Ok get_network _ self self _ eq_refl).
  rewrite (bind_Ok get _ self self self eq_refl).
  erewrite bind_Ok; [|apply phase_item_run, Hg].
  erewrite bind_Ok; [|apply getitem_opt_run, Hx].
  erewrite bind_Ok; [|apply _parse_indices_accepts, Hp].
  rewrite bool_decide_eq_false_2 by discriminate.
  rewrite bool_decide_eq_true_2 by reflexivity.
  unfold lift, find_neighbor_throats. rewrite length_map. f_equal.
  apply mapR_indices. intros i p Hi.
  rewrite list_lookup_fmap, Hi. simpl.
  apply rate_of_group_run; [| |exact Hv].
  - destruct Hg as (_ & _ & _ & _ & _ & H). exact H.
  - destruct Hx as (_ & _ & _ & H). exact H.
Qed.
End Rate.

(** C5: for a valid non-empty node set on a solved object, [rate] returns a
    sequence of length one in group mode, and in the per-node mode (called
    single in the code) one scalar per given node. *)
Theorem rate_lengths self g x pores :
  conductance_is self g ->
  quantity_is self x ->
  valid_network (network (simulation self)) ->
  Forall (fun i => i < Np self) pores ->
  pores <> [] ->
  (exists R, rate pores "group" self = (self, Ok R) /\ length R = 1) /\
  (exists R, rate pores "single" self = (self, Ok R) /\
             length R = length pores).
Proof.
  intros Hg Hx Hv Hp _. split; eexists; split.
  - apply (rate_group_run self g x); assumption.
  - reflexivity.
  - apply (rate_single_run self g x); assumption.
  - apply length_map.
Qed.

(** C7: for a valid non-empty node set on a solved object, [rate] in group
    mode returns the sum, over the edges with exactly one endpoint in the
    set, of the conductance times the quantity at the outer endpoint minus
    the quantity at the inner endpoint, where the inner endpoint is the
    stored first endpoint if that one is in the set and the second one
    otherwise; edges inside the set and edges outside it do not occur. *)
Theorem rate_group_is_boundary_rate self g x pores :
  conductance_is self g ->
  quantity_is self x ->
  valid_network (network (simulation self)) ->
  Forall (fun i => i < Np self) pores ->
  pores <> [] ->
  rate pores "group" self
  = (self, Ok [boundary_rate (network (simulation self)) g x pores]) /\
  forall e, crosses pores e = true ->
    inside pores (inner pores e) = true /\
    inside pores (outer pores e) = false.
Proof.
  intros Hg Hx Hv Hp _. split.
  - apply (rate_group_run self g x); assumption.
  - intros e. apply crossing_inner_outer.
Qed.

Ltac quantity_by_compute :=
  eexists; repeat split; vm_compute; reflexivity.

Ltac pores_by_compute :=
  repeat constructor; vm_compute; lia.

Lemma rate_lengths_witness :
  conductance_is Chain.alg2 [one; one] /\
  quantity_is Chain.alg2 [one; Chain.half; zero] /\
  valid_network (network (simulation Chain.alg2)) /\
  Forall (fun i => i < Np Chain.alg2) [0; 1] /\
  [0; 1] <> [] /\
  (exists R, rate [0; 1] "group" Chain.alg2 = (Chain.alg2, Ok R) /\
             length R = 1) /\
  (exists R, rate [0; 1] "single" Chain.alg2 = (Chain.alg2, Ok R) /\
             length R = length [0; 1]).
Proof.
  assert (H1 : conductance_is Chain.alg2 [one; one])
    by conductance_by_compute.
  assert (H2 : quantity_is Chain.alg2 [one; Chain.half; zero])
    by quantity_by_compute.
  assert (H3 : valid_network (network (simulation Chain.alg2)))
    by network_by_compute.
  assert (H4 : Forall (fun i => i < Np Chain.alg2) [0; 1])
    by pores_by_compute.
  assert (H5 : [0; 1] <> @nil nat) by discriminate.
  repeat (split; [assumption|]).
  exact (rate_lengths Chain.alg2 _ _ [0; 1] H1 H2 H3 H4 H5).
Defined.

Lemma rate_group_is_boundary_rate_witness :
  conductance_is Chain.alg2 [one; one] /\
  quantity_is Chain.alg2 [one; Chain.half; zero] /\
  valid_network (network (simulation Chain.alg2)) /\
  Forall (fun i => i < Np Chain.alg2) [1; 2] /\
  [1; 2] <> [] /\
  rate [1; 2] "group" Chain.alg2
  = (Chain.alg2,
     Ok [boundary_rate (network (simulation Chain.alg2)) [one; one]
           [one; Chain.half; zero] [1; 2]]) /\
  forall e, crosses [1; 2] e = true ->
    inside [1; 2] (inner [1; 2] e) = true /\
    inside [1; 2] (outer [1; 2] e) = false.
Proof.
  assert (H1 : conductance_is Chain.alg2 [one; one])
    by conductance_by_compute.
  assert (H2 : quantity_is Chain.alg2 [one; Chain.half; zero])
    by quantity_by_compute.
  assert (H3 : valid_network (network (simulation Chain.alg2)))
    by network_by_compute.
  assert (H4 : Forall (fun i => i < Np Chain.alg2) [1; 2])
    by pores_by_compute.
  assert (H5 : [1; 2] <> @nil nat) by discriminate.
  repeat (split; [assumption|]).
  exact (rate_group_is_boundary_rate Chain.alg2 _ _ [1; 2] H1 H2 H3 H4 H5).
Defined.

(** On the chain the rate into the last two nodes is one half: the one
    boundary edge (0, 1) is stored with its outer endpoint first. *)
Example rate_chain_tail :
  snd (rate [1; 2] "group" Chain.alg2) = Ok [Chain.half].
Proof. by_compute. Qed.

(** ** The effective property (C1) *)

Lemma sleb_total x y : sleb x y = false -> sleb y x = true.
Proof.
  destruct x as [|a], y as [|b]; simpl; try reflexivity; try discriminate.
  intros H. apply bool_decide_eq_false in H. apply bool_decide_eq_true.
  apply Qclt_le_weak, Qcnot_le_lt, H.
Qed.

Lemma seqb_sym x y : seqb x y = seqb y x.
Proof.
  destruct x as [|a], y as [|b]; simpl; try reflexivity.
  apply bool_decide_ext. split; congruence.
Qed.

Lemma HdRel_insert_unique x y l :
  HdRel slt y l -> slt y x -> HdRel slt y (insert_unique x l).
Proof.
  intros Hl Hx. destruct l as [|z l]; simpl.
  - constructor. exact Hx.
  - destruct (seqb x z); [exact Hl|].
    destruct (sleb x z); constructor; [exact Hx|].
    inversion Hl; assumption.
Qed.

Lemma Sorted_insert_unique x l :
  Sorted slt l -> Sorted slt (insert_unique x l).
Proof.
  induction 1 as [|y l Hs IH Hd]; simpl.
  - repeat constructor.
  - destruct (seqb x y) eqn:He; [constructor; assumption|].
    destruct (sleb x y) eqn:Hle.
    + constructor; [constructor; assumption|]. constructor. split; assumption.
    + constructor; [exact IH|]. apply HdRel_insert_unique; [exact Hd|].
      split; [apply sleb_total, Hle|]. rewrite seqb_sym. exact He.
Qed.

Lemma Sorted_sp_unique l : Sorted slt (sp_unique l).
Proof.
  induction l as [|x l IH]; simpl; [constructor|].
  apply Sorted_insert_unique, IH.
Qed.


Lemma nodes_at_valid values v n :
  length values = n -> Forall (fun i => i < n) (nodes_at values v).
Proof.
  intros <-. unfold nodes_at.
  eapply Forall_impl; [apply where_lt|]. simpl. intros i Hi.
  rewrite length_map in Hi. exact Hi.
Qed.




(** ** What a merge, an overwrite and a removal leave behind *)

Lemma put_lookup_NoDup {A} (l : list A) idx vals i p (v : A) :
  NoDup idx -> idx !! i = Some p -> vals !! i = Some v -> p < length l ->
  put l idx vals !! p = Some v.
Proof.
  revert l vals i.
  induction idx as [|j idx IH]; intros l [|y vals] i Hnd Hi Hv Hlt;
    try (rewrite lookup_nil in Hi; discriminate);
    try (rewrite lookup_nil in Hv; discriminate).
  apply NoDup_cons in Hnd as [Hj Hnd]. simpl.
  destruct i as [|i]; simpl in Hi, Hv.
  - injection Hi as ->. injection Hv as ->.
    rewrite put_lookup_notin by exact Hj. apply list_lookup_insert_eq, Hlt.
  - apply (IH _ _ i); try assumption. rewrite length_insert. exact Hlt.
Qed.

Lemma broadcast_sized {A} (idx : list nat) (vals : list A) :
  length vals = length idx -> broadcast idx vals = vals.
Proof.
  intros H. destruct vals as [|v [|v' vals]]; try reflexivity.
  simpl in *. rewrite <- H. reflexivity.
Qed.

Lemma wf_kind self K :
  wf self -> K ∈ ["dirichlet"; "neumann"] -> kind_wf self K.
Proof. intros (_ & HD & HN) HK. kind_cases HK; assumption. Qed.

(** What a merge leaves at each node of a well-formed store. *)
Lemma observe_merged self K pores vals k p :
  wf self -> K ∈ ["dirichlet"; "neumann"] -> k ∈ ["dirichlet"; "neumann"] ->
  Forall (fun i => i < Np self) pores ->
  let self' :=
    upd ("pore." +:+ K +:+ "_value")
      (FloatArr (put (values_of self K) pores (broadcast pores vals)))
      (upd ("pore." +:+ K) (BoolArr (mark (labels_of self K) pores true)) self)
  in
  label_at self' k p
  = (if decide (k = K /\ p ∈ pores) then true else label_at self k p) /\
  value_at self' k p
  = (if decide (k = K)
     then default NaN (put (values_of self K) pores (broadcast pores vals) !! p)
     else value_at self k p).
Proof.
  intros Hwf HK Hk Hp self'. subst self'.
  pose proof (wf_kind self K Hwf HK) as HwfK.
  rewrite !label_at_labels_of, !value_at_values_of.
  rewrite labels_of_upd_value, labels_of_upd_label, values_of_upd_value
    by assumption.
  destruct (decide (k = K)) as [->|Hne]; simpl.
  - split; [|reflexivity].
    destruct (decide (p ∈ pores)) as [Hin|Hnin].
    + rewrite decide_True by (split; [reflexivity|exact Hin]).
      rewrite mark_lookup_in; [reflexivity|exact Hin|].
      rewrite length_labels_of by exact HwfK.
      apply (proj1 (Forall_forall _ pores) Hp), Hin.
    + rewrite decide_False by tauto.
      rewrite mark_lookup_notin by exact Hnin. reflexivity.
  - rewrite decide_False by tauto.
    rewrite values_of_upd_label by assumption. split; reflexivity.
Qed.

(** X1: on a well-formed store a merge of one value for a kind, at valid
    nodes, returns; afterwards the given nodes carry the label and the value
    of that kind, and every other label and value, of either kind, is as it
    was: conditions accumulate, and the other kind is not touched even at
    the given nodes. *)
Theorem merge_marks_the_nodes self K pores v :
  wf self -> K ∈ ["dirichlet"; "neumann"] ->
  Forall (fun i => i < Np self) pores ->
  let r := set_boundary_conditions pores K [v] "merge" self in
  snd r = Ok tt /\
  forall k p, k ∈ ["dirichlet"; "neumann"] ->
    label_at (fst r) k p
    = (if decide (k = K /\ p ∈ pores) then true else label_at self k p) /\
    value_at (fst r) k p
    = (if decide (k = K /\ p ∈ pores) then v else value_at self k p).
Proof.
  intros Hwf HK Hp r. subst r.
  pose proof (wf_kind self K Hwf HK) as HwfK.
  rewrite (set_boundary_conditions_merge self K pores [v] HK HwfK Hp
             (or_introl eq_refl)).
  cbn [fst snd]. split; [reflexivity|]. intros k p Hk.
  destruct (observe_merged self K pores [v] k p Hwf HK Hk Hp) as [EL EV].
  rewrite EL, EV. split; [reflexivity|].
  destruct (decide (k = K)) as [->|Hne].
  - change (put (values_of self K) pores (broadcast pores [v]))
      with (mark (values_of self K) pores v).
    destruct (decide (p ∈ pores)) as [Hin|Hnin].
    + rewrite decide_True by (split; [reflexivity|exact Hin]).
      rewrite mark_lookup_in; [reflexivity|exact Hin|].
      rewrite length_values_of by exact HwfK.
      apply (proj1 (Forall_forall _ pores) Hp), Hin.
    + rewrite decide_False by tauto.
      rewrite mark_lookup_notin by exact Hnin.
      rewrite value_at_values_of. reflexivity.
  - rewrite decide_False by tauto. reflexivity.
Qed.

Lemma merge_marks_the_nodes_witness :
  wf Chain.alg1 /\
  "neumann" ∈ ["dirichlet"; "neumann"] /\
  Forall (fun i => i < Np Chain.alg1) [0; 1] /\
  let r := set_boundary_conditions [0; 1] "neumann" [one] "merge" Chain.alg1 in
  snd r = Ok tt /\
  forall k p, k ∈ ["dirichlet"; "neumann"] ->
    label_at (fst r) k p
    = (if decide (k = "neumann" /\ p ∈ [0; 1]) then true
       else label_at Chain.alg1 k p) /\
    value_at (fst r) k p
    = (if decide (k = "neumann" /\ p ∈ [0; 1]) then one
       else value_at Chain.alg1 k p).
Proof.
  assert (H1 : wf Chain.alg1) by wf_by_compute.
  assert (H2 : "neumann" ∈ ["dirichlet"; "neumann"]) by by_compute.
  assert (H3 : Forall (fun i => i < Np Chain.alg1) [0; 1])
    by pores_by_compute.
  repeat (split; [assumption|]).
  exact (merge_marks_the_nodes Chain.alg1 "neumann" [0; 1] one H1 H2 H3).
Defined.

(** X2: a merge of one value per node, for distinct valid nodes, returns
    and stores at each node the value given at its position. *)
Theorem merge_stores_each_value self K pores vals :
  wf self -> K ∈ ["dirichlet"; "neumann"] ->
  Forall (fun i => i < Np self) pores ->
  NoDup pores -> length vals = length pores ->
  let r := set_boundary_conditions pores K vals "merge" self in
  snd r = Ok tt /\
  forall i p v, pores !! i = Some p -> vals !! i = Some v ->
    label_at (fst r) K p = true /\ value_at (fst r) K p = v.
Proof.
  intros Hwf HK Hp Hnd Hl r. subst r.
  pose proof (wf_kind self K Hwf HK) as HwfK.
  rewrite (set_boundary_conditions_merge self K pores vals HK HwfK Hp
             (or_intror Hl)).
  cbn [fst snd]. split; [reflexivity|]. intros i p v Hi Hv.
  destruct (observe_merged self K pores vals K p Hwf HK HK Hp) as [EL EV].
  rewrite EL, EV.
  assert (Hin : p ∈ pores) by (eapply list_elem_of_lookup_2; exact Hi).
  rewrite !decide_True by tauto. split; [reflexivity|].
  rewrite broadcast_sized by exact Hl.
  rewrite (put_lookup_NoDup _ pores vals i p v Hnd Hi Hv); [reflexivity|].
  rewrite length_values_of by exact HwfK.
  apply (proj1 (Forall_forall _ pores) Hp), Hin.
Qed.

Lemma merge_stores_each_value_witness :
  wf Chain.alg0 /\
  "dirichlet" ∈ ["dirichlet"; "neumann"] /\
  Forall (fun i => i < Np Chain.alg0) [2; 0] /\
  NoDup [2; 0] /\
  length [zero; one] = length [2; 0] /\
  let r := set_boundary_conditions [2; 0] "dirichlet" [zero; one] "merge"
             Chain.alg0 in
  snd r = Ok tt /\
  forall i p v, [2; 0] !! i = Some p -> [zero; one] !! i = Some v ->
    label_at (fst r) "dirichlet" p = true /\
    value_at (fst r) "dirichlet" p = v.
Proof.
  assert (H1 : wf Chain.alg0) by wf_by_compute.
  assert (H2 : "dirichlet" ∈ ["dirichlet"; "neumann"]) by by_compute.
  assert (H3 : Forall (fun i => i < Np Chain.alg0) [2; 0])
    by pores_by_compute.
  assert (H4 : NoDup [2; 0]) by by_compute.
  assert (H5 : length [zero; one] = length [2; 0]) by reflexivity.
  repeat (split; [assumption|]).
  exact (merge_stores_each_value Chain.alg0 "dirichlet" [2; 0] [zero; one]
           H1 H2 H3 H4 H5).
Defined.

Lemma target_overwrite key init self :
  target key init "overwrite" self = full (Np self) init.
Proof. unfold target. destruct (items self !! key); reflexivity. Qed.

(** An overwrite starts from fresh arrays of the kind. *)
Lemma set_boundary_conditions_overwrite self K pores vals :
  K ∈ ["dirichlet"; "neumann"] ->
  Forall (fun i => i < Np self) pores ->
  length vals = 1 \/ length vals = length pores ->
  set_boundary_conditions pores K vals "overwrite" self
  = (upd ("pore." +:+ K +:+ "_value")
       (FloatArr (put (replicate (Np self) NaN) pores (broadcast pores vals)))
       (upd ("pore." +:+ K)
          (BoolArr (mark (replicate (Np self) false) pores true)) self),
     Ok tt).
Proof.
  intros HK Hp Hsz. unfold set_boundary_conditions.
  assert (HK3 : K ∈ ["dirichlet"; "neumann"; "neumann_group"])
    by (clear -HK; kind_cases HK; by_compute).
  erewrite bind_Ok; [|apply _parse_mode_accepts, HK3].
  erewrite bind_Ok; [|apply _parse_mode_accepts; by_compute].
  erewrite bind_Ok; [|apply _parse_indices_accepts, Hp].
  rewrite bool_decide_eq_false_2 by discriminate.
  rewrite sized_check by exact Hsz.
  erewrite bind_Ok.
  2:{ rewrite store_at_run, target_overwrite. simpl setitem_array.
      rewrite setitem_list_broadcast by (rewrite length_replicate; exact Hp).
      reflexivity. }
  rewrite store_at_run, target_overwrite. simpl setitem_array.
  rewrite setitem_list_run; [reflexivity| |exact Hsz].
  rewrite length_replicate. exact Hp.
Qed.

(** X3: an overwrite of one value for a kind, at valid nodes, returns on any
    store; afterwards exactly the given nodes carry that kind, with the
    given value, and the labels and values of the other kind are as they
    were: the conditions of the other kind are not removed. *)
Theorem overwrite_resets_one_kind self K pores v :
  K ∈ ["dirichlet"; "neumann"] ->
  Forall (fun i => i < Np self) pores ->
  let r := set_boundary_conditions pores K [v] "overwrite" self in
  snd r = Ok tt /\
  forall p,
    label_at (fst r) K p = bool_decide (p ∈ pores) /\
    value_at (fst r) K p = (if decide (p ∈ pores) then v else NaN) /\
    forall k, k ∈ ["dirichlet"; "neumann"] -> k <> K ->
      label_at (fst r) k p = label_at self k p /\
      value_at (fst r) k p = value_at self k p.
Proof.
  intros HK Hp r. subst r.
  rewrite (set_boundary_conditions_overwrite self K pores [v] HK Hp
             (or_introl eq_refl)).
  cbn [fst snd]. split; [reflexivity|]. intros p.
  change (put (replicate (Np self) NaN) pores (broadcast pores [v]))
    with (mark (replicate (Np self) NaN) pores v).
  rewrite !label_at_labels_of, !value_at_values_of.
  rewrite labels_of_upd_value, labels_of_upd_label, values_of_upd_value
    by assumption.
  rewrite !decide_True by reflexivity. simpl as_bools. simpl as_floats.
  split; [|split].
  - case_bool_decide as Hin.
    + rewrite mark_lookup_in; [reflexivity|exact Hin|].
      rewrite length_replicate.
      apply (proj1 (Forall_forall _ pores) Hp), Hin.
    + rewrite mark_lookup_notin by exact Hin.
      destruct (replicate (Np self) false !! p) as [b|] eqn:Hb; [|reflexivity].
      apply lookup_replicate in Hb as [-> _]. reflexivity.
  - destruct (decide (p ∈ pores)) as [Hin|Hin].
    + rewrite mark_lookup_in; [reflexivity|exact Hin|].
      rewrite length_replicate.
      apply (proj1 (Forall_forall _ pores) Hp), Hin.
    + rewrite mark_lookup_notin by exact Hin.
      destruct (replicate (Np self) NaN !! p) as [b|] eqn:Hb; [|reflexivity].
      apply lookup_replicate in Hb as [-> _]. reflexivity.
  - intros k Hk Hne.
    rewrite !label_at_labels_of, !value_at_values_of.
    rewrite labels_of_upd_value, labels_of_upd_label, values_of_upd_value
      by assumption.
    rewrite !decide_False by exact Hne.
    rewrite values_of_upd_label by assumption. split; reflexivity.
Qed.

Lemma overwrite_resets_one_kind_witness :
  "dirichlet" ∈ ["dirichlet"; "neumann"] /\
  Forall (fun i => i < Np Chain.alg1) [1] /\
  let r := set_boundary_conditions [1] "dirichlet" [one] "overwrite"
             Chain.alg1 in
  snd r = Ok tt /\
  forall p,
    label_at (fst r) "dirichlet" p = bool_decide (p ∈ [1]) /\
    value_at (fst r) "dirichlet" p = (if decide (p ∈ [1]) then one else NaN) /\
    forall k, k ∈ ["dirichlet"; "neumann"] -> k <> "dirichlet" ->
      label_at (fst r) k p = label_at Chain.alg1 k p /\
      value_at (fst r) k p = value_at Chain.alg1 k p.
Proof.
  assert (H1 : "dirichlet" ∈ ["dirichlet"; "neumann"]) by by_compute.
  assert (H2 : Forall (fun i => i < Np Chain.alg1) [1]) by pores_by_compute.
  repeat (split; [assumption|]).
  exact (overwrite_resets_one_kind Chain.alg1 "dirichlet" [1] one H1 H2).
Defined.

(** X4: in the mode remove, [set_boundary_conditions] with valid nodes is
    [remove_BC] on those nodes, whatever the kind and the values given: on a
    well-formed store it returns and clears the conditions of both kinds at
    the given nodes, leaving the other nodes as they were. *)
Theorem remove_mode_clears_both_kinds self K pores vals :
  wf self -> K ∈ ["dirichlet"; "neumann"; "neumann_group"] ->
  Forall (fun i => i < Np self) pores ->
  let r := set_boundary_conditions pores K vals "remove" self in
  r = remove_BC (Some pores) self /\
  snd r = Ok tt /\
  forall k p, k ∈ ["dirichlet"; "neumann"] ->
    label_at (fst r) k p
    = (if decide (p ∈ pores) then false else label_at self k p) /\
    value_at (fst r) k p
    = (if decide (p ∈ pores) then NaN else value_at self k p).
Proof.
  intros Hwf HK Hp r.
  assert (Hr : r = remove_BC (Some pores) self).
  { subst r. unfold set_boundary_conditions.
    erewrite bind_Ok; [|apply _parse_mode_accepts, HK].
    erewrite bind_Ok; [|apply _parse_mode_accepts; by_compute].
    erewrite bind_Ok; [|apply _parse_indices_accepts, Hp].
    reflexivity. }
  split; [exact Hr|]. rewrite Hr, (remove_BC_run pores self Hwf Hp).
  cbn [fst snd]. split; [reflexivity|]. intros k p Hk.
  apply observe_removed; assumption.
Qed.

Lemma remove_mode_clears_both_kinds_witness :
  wf Chain.alg1 /\
  "neumann" ∈ ["dirichlet"; "neumann"; "neumann_group"] /\
  Forall (fun i => i < Np Chain.alg1) [0] /\
  let r := set_boundary_conditions [0] "neumann" [one; one] "remove"
             Chain.alg1 in
  r = remove_BC (Some [0]) Chain.alg1 /\
  snd r = Ok tt /\
  forall k p, k ∈ ["dirichlet"; "neumann"] ->
    label_at (fst r) k p
    = (if decide (p ∈ [0]) then false else label_at Chain.alg1 k p) /\
    value_at (fst r) k p
    = (if decide (p ∈ [0]) then NaN else value_at Chain.alg1 k p).
Proof.
  assert (H1 : wf Chain.alg1) by wf_by_compute.
  assert (H2 : "neumann" ∈ ["dirichlet"; "neumann"; "neumann_group"])
    by by_compute.
  assert (H3 : Forall (fun i => i < Np Chain.alg1) [0]) by pores_by_compute.
  repeat (split; [assumption|]).
  exact (remove_mode_clears_both_kinds Chain.alg1 "neumann" [0] [one; one]
           H1 H2 H3).
Defined.

(** X5: [remove_BC] without nodes acts on every node: on a well-formed store
    it returns, no node carries a condition of either kind afterwards, and
    the arrays stay stored under their keys. *)
Theorem remove_BC_of_all_nodes self :
  wf self ->
  let r := remove_BC None self in
  snd r = Ok tt /\
  (forall k p, k ∈ ["dirichlet"; "neumann"] ->
     label_at (fst r) k p = false /\ value_at (fst r) k p = NaN) /\
  forall key, has_key (fst r) key <-> has_key self key.
Proof.
  intros Hwf r.
  assert (Hall : Forall (fun i => i < Np self) (seq 0 (Np self))).
  { apply Forall_forall. intros i Hi. apply elem_of_seq in Hi. lia. }
  assert (Hr : r = remove_BC (Some (seq 0 (Np self))) self) by reflexivity.
  split; [|split].
  - rewrite Hr, (remove_BC_run _ self Hwf Hall). reflexivity.
  - intros k p Hk. rewrite Hr, (remove_BC_run _ self Hwf Hall). cbn [fst].
    destruct (observe_removed self (seq 0 (Np self)) k p Hwf Hall Hk)
      as [EL EV].
    rewrite EL, EV. clear EL EV.
    pose proof (wf_kind self k Hwf Hk) as Hwfk.
    destruct (decide (p ∈ seq 0 (Np self))) as [Hin|Hnin];
      [split; reflexivity|].
    assert (Hge : Np self <= p) by (rewrite elem_of_seq in Hnin; lia).
    rewrite label_at_labels_of, value_at_values_of.
    rewrite (lookup_ge_None_2 (labels_of self k))
      by (rewrite length_labels_of by exact Hwfk; exact Hge).
    rewrite (lookup_ge_None_2 (values_of self k))
      by (rewrite length_values_of by exact Hwfk; exact Hge).
    split; reflexivity.
  - intros key. apply (same_keys_remove_BC None self key).
Qed.

Lemma remove_BC_of_all_nodes_witness :
  wf Chain.alg1 /\
  let r := remove_BC None Chain.alg1 in
  snd r = Ok tt /\
  (forall k p, k ∈ ["dirichlet"; "neumann"] ->
     label_at (fst r) k p = false /\ value_at (fst r) k p = NaN) /\
  forall key, has_key (fst r) key <-> has_key Chain.alg1 key.
Proof.
  assert (H1 : wf Chain.alg1) by wf_by_compute.
  split; [exact H1|]. exact (remove_BC_of_all_nodes Chain.alg1 H1).
Defined.

Lemma setitem_list_out_of_range {A} (l : list A) idx vals :
  ~ Forall (fun i => i < length l) idx ->
  setitem_list l idx vals = Raise IndexError.
Proof.
  intros H. unfold setitem_list.
  destruct (forallb _ idx) eqn:E; [|reflexivity].
  apply forallb_ltb in E. contradiction.
Qed.

Lemma clear_out_of_range K pores self :
  kind_wf self K -> has_key self ("pore." +:+ K) ->
  ~ Forall (fun i => i < Np self) pores ->
  (setitem_at ("pore." +:+ K) pores (BoolArr [false]) ;;;
   setitem_at ("pore." +:+ K +:+ "_value") pores (FloatArr [NaN])) self
  = (self, Raise IndexError).
Proof.
  intros Hwf [a Ha] Hp. apply bind_Raise.
  rewrite setitem_at_run, Ha.
  pose proof (labels_of_lookup self K a Hwf Ha) as ->. simpl.
  rewrite setitem_list_out_of_range; [reflexivity|].
  rewrite length_labels_of by exact Hwf. exact Hp.
Qed.

(** X6: [remove_BC] does not validate its nodes: on a well-formed store
    that holds the arrays of some kind, a node index outside the network
    makes the first assignment fail with [IndexError], before any condition
    is cleared. *)
Theorem remove_BC_index_out_of_range self pores :
  wf self ->
  has_key self "pore.dirichlet" \/ has_key self "pore.neumann" ->
  ~ Forall (fun i => i < Np self) pores ->
  remove_BC (Some pores) self = (self, Raise IndexError).
Proof.
  intros (HP & HD & HN) Hkey Hp. unfold remove_BC.
  rewrite (bind_Ok _ _ self self pores eq_refl).
  unfold bind at 1. rewrite contains_run.
  case_bool_decide as Hd.
  - apply bind_Raise.
    apply (clear_out_of_range "dirichlet" pores self HD Hd Hp).
  - destruct Hkey as [Hkey|Hkey]; [contradiction|].
    erewrite bind_Ok; [|reflexivity].
    unfold bind at 1. rewrite contains_run.
    rewrite bool_decide_eq_true_2 by exact Hkey.
    apply (clear_out_of_range "neumann" pores self HN Hkey Hp).
Qed.

Lemma remove_BC_index_out_of_range_witness :
  wf Chain.alg1 /\
  (has_key Chain.alg1 "pore.dirichlet" \/ has_key Chain.alg1 "pore.neumann") /\
  ~ Forall (fun i => i < Np Chain.alg1) [3] /\
  remove_BC (Some [3]) Chain.alg1 = (Chain.alg1, Raise IndexError).
Proof.
  assert (H1 : wf Chain.alg1) by wf_by_compute.
  assert (H2 : has_key Chain.alg1 "pore.dirichlet" \/
               has_key Chain.alg1 "pore.neumann")
    by (left; eexists; reflexivity).
  assert (H3 : ~ Forall (fun i => i < Np Chain.alg1) [3]).
  { intros H. apply Forall_cons in H as [H _]. vm_compute in H. lia. }
  repeat (split; [assumption|]).
  exact (remove_BC_index_out_of_range Chain.alg1 [3] H1 H2 H3).
Defined.

(** ** The frame of the boundary condition store *)

#[local] Instance same_outside_refl keys : Reflexive (same_outside keys).
Proof. intros s. repeat split; reflexivity. Qed.
#[local] Instance same_outside_trans keys : Transitive (same_outside keys).
Proof.
  intros s1 s2 s3 (A1 & B1 & C1 & D1 & E1) (A2 & B2 & C2 & D2 & E2).
  repeat split; try congruence.
  intros k Hk. rewrite E2, E1 by exact Hk. reflexivity.
Qed.

Lemma same_outside_insert keys key a self :
  key ∈ keys ->
  same_outside keys self (with_items self (<[key := a]> (items self))).
Proof.
  intros Hkey. repeat split; try reflexivity.
  intros k Hk. simpl. apply lookup_insert_ne. intros ->. contradiction.
Qed.

Lemma same_outside_setitem_at keys key idx vals :
  key ∈ keys -> preserves (same_outside keys) (setitem_at key idx vals).
Proof.
  intros Hkey self. rewrite setitem_at_run.
  destruct (items self !! key) as [a|]; [|reflexivity].
  destruct (setitem_array a idx vals); [|reflexivity].
  apply same_outside_insert, Hkey.
Qed.

Lemma same_outside_store_at keys key init vals pores mode :
  key ∈ keys -> preserves (same_outside keys) (store_at key init vals pores mode).
Proof.
  intros Hkey self. rewrite store_at_run.
  destruct (setitem_array _ pores vals); simpl.
  - apply same_outside_insert, Hkey.
  - destruct (reinit key mode self); [|reflexivity].
    apply same_outside_insert, Hkey.
Qed.

Lemma same_outside_remove_BC pores :
  preserves (same_outside bc_keys) (remove_BC pores).
Proof.
  unfold remove_BC.
  preserves_steps ltac:(apply same_outside_setitem_at; by_compute).
Qed.

Lemma same_outside_set_boundary_conditions pores bctype bcvalues mode :
  preserves (same_outside bc_keys)
    (set_boundary_conditions pores bctype bcvalues mode).
Proof.
  unfold set_boundary_conditions. unfold _parse_mode at 1.
  case_bool_decide as HK;
    [|apply preserves_pure; [typeclasses eauto|intros ?; reflexivity]].
  lazymatch goal with
  | |- preserves _ (bind (ret ?a) ?f) =>
      change (preserves (same_outside bc_keys) (f a)); cbv beta
  end.
  preserves_steps ltac:(first [ apply same_outside_remove_BC
                              | apply same_outside_store_at;
                                clear -HK; kind_cases HK; by_compute ]).
Qed.

(** X7: whatever calls of [set_boundary_conditions] and [remove_BC] are
    made, and whether they return or raise, the network, the settings, the
    stored matrix and right-hand side, and every array of the object other
    than the label and value arrays of the three kinds are left as they
    were; a solved quantity field, for one, is never touched. *)
Theorem boundary_calls_touch_only_their_arrays self cs :
  let self' := exec_all self cs in
  simulation self' = simulation self /\
  settings self' = settings self /\
  attr_A self' = attr_A self /\
  attr_b self' = attr_b self /\
  forall key, key ∉ bc_keys -> items self' !! key = items self !! key.
Proof.
  intros self'. subst self'. change (same_outside bc_keys self (exec_all self cs)).
  revert self. induction cs as [|c cs IH]; intros self; [reflexivity|].
  simpl. etransitivity; [|apply IH].
  destruct c as [pores bctype bcvalues mode|pores]; simpl.
  - apply same_outside_set_boundary_conditions.
  - apply same_outside_remove_BC.
Qed.

(** ** The right-hand side after the calls of the store *)

Lemma build_b_run self :
  wf self -> build_b self = (with_b self (rhs self), Ok (rhs self)).
Proof.
  intros (HP & HD & HN).
  set (b0 := replicate (Np self) zero).
  set (b1 := overlay b0 (labels_of self "dirichlet")
               (values_of self "dirichlet")).
  pose proof (length_labels_of self _ HD) as HlD.
  pose proof (length_values_of self _ HD) as HvD.
  assert (Hb0 : length b0 = Np self) by apply length_replicate.
  assert (Hb1 : length b1 = Np self).
  { subst b1. rewrite length_overlay; congruence. }
  unfold build_b.
  rewrite (bind_Ok get _ self self self eq_refl).
  erewrite bind_Ok; [|apply contains_run].
  pose proof (build_b_block "dirichlet" (fun l => l) b0 self
                ltac:(by_compute) HD (HP "dirichlet" ltac:(by_compute))
                Hb0 (fun l => eq_refl)) as E1.
  pose proof (build_b_block "neumann" (map sneg) b1 self
                ltac:(by_compute) HN (HP "neumann" ltac:(by_compute))
                Hb1 (fun l => length_map sneg l)) as E2.
  change ("pore." +:+ "dirichlet" +:+ "_value")
    with "pore.dirichlet_value" in E1.
  change ("pore." +:+ "dirichlet") with "pore.dirichlet" in E1.
  change ("pore." +:+ "neumann" +:+ "_value")
    with "pore.neumann_value" in E2.
  change ("pore." +:+ "neumann") with "pore.neumann" in E2.
  fold b0. erewrite bind_Ok; [|exact E1]. fold b1.
  erewrite bind_Ok; [|apply contains_run].
  erewrite bind_Ok; [|exact E2].
  reflexivity.
Qed.

Lemma length_rhs self : wf self -> length (rhs self) = Np self.
Proof.
  intros (HP & HD & HN). unfold rhs.
  pose proof (length_labels_of self _ HD) as HlD.
  pose proof (length_values_of self _ HD) as HvD.
  pose proof (length_labels_of self _ HN) as HlN.
  pose proof (length_values_of self _ HN) as HvN.
  assert (Hb1 : length (overlay (replicate (Np self) zero)
                          (labels_of self "dirichlet")
                          (values_of self "dirichlet")) = Np self).
  { rewrite length_overlay; rewrite length_replicate; congruence. }
  rewrite length_overlay; [congruence|congruence|].
  rewrite length_map. congruence.
Qed.

Lemma rhs_lookup self p :
  wf self -> p < Np self ->
  rhs self !! p = Some (if label_at self "neumann" p
                        then (- value_at self "neumann" p)%S
                        else if label_at self "dirichlet" p
                             then value_at self "dirichlet" p
                             else zero).
Proof.
  intros (HP & HD & HN) Hp.
  pose proof (length_labels_of self _ HD) as HlD.
  pose proof (length_values_of self _ HD) as HvD.
  pose proof (length_labels_of self _ HN) as HlN.
  pose proof (length_values_of self _ HN) as HvN.
  rewrite !label_at_labels_of, !value_at_values_of.
  destruct (lookup_lt_is_Some_2 (labels_of self "dirichlet") p
              ltac:(lia)) as [mD HmD].
  destruct (lookup_lt_is_Some_2 (values_of self "dirichlet") p
              ltac:(lia)) as [vD HvD'].
  destruct (lookup_lt_is_Some_2 (labels_of self "neumann") p
              ltac:(lia)) as [mN HmN].
  destruct (lookup_lt_is_Some_2 (values_of self "neumann") p
              ltac:(lia)) as [vN HvN'].
  rewrite HmD, HvD', HmN, HvN'. simpl. unfold rhs.
  erewrite overlay_lookup; [| |exact HmN|].
  2:{ erewrite overlay_lookup; [reflexivity| |exact HmD|exact HvD'].
      apply lookup_replicate_2. exact Hp. }
  2:{ rewrite list_lookup_fmap, HvN'. reflexivity. }
  destruct mN; reflexivity.
Qed.

Lemma Np_exec_all self cs : Np (exec_all self cs) = Np self.
Proof.
  unfold Np. f_equal. f_equal.
  revert self. induction cs as [|c cs IH]; intros self; [reflexivity|].
  simpl. rewrite IH.
  destruct c as [pores bctype bcvalues mode|pores]; simpl.
  - apply same_outside_set_boundary_conditions.
  - apply same_outside_remove_BC.
Qed.

(** X8: on an object that starts without boundary conditions, after any
    sequence of [set_boundary_conditions] and [remove_BC] calls, failed ones
    included, every stored label array is a boolean array and every stored
    value array a float array over all nodes, labels and values are stored
    together, and [build_b] returns a vector with one entry per node: it
    cannot fail on a state the store can reach. *)
Theorem build_b_after_any_calls self cs :
  fresh self ->
  let self' := exec_all self cs in
  wf self' /\
  exists b, build_b self' = (with_b self' b, Ok b) /\ length b = Np self.
Proof.
  intros Hf self'.
  assert (Hwf : wf self') by (apply wf_exec_all, Hf).
  split; [exact Hwf|]. exists (rhs self'). split.
  - apply build_b_run, Hwf.
  - rewrite length_rhs by exact Hwf. apply Np_exec_all.
Qed.

Lemma build_b_after_any_calls_witness :
  fresh Chain.alg0 /\
  let self' := exec_all Chain.alg0
                 [SetBC [0; 1] "dirichlet" [one] "merge";
                  SetBC [1] "neumann" [] "merge";
                  RemoveBC (Some [0; 7]);
                  SetBC [2] "neumann_group" [zero] "overwrite"] in
  wf self' /\
  exists b, build_b self' = (with_b self' b, Ok b) /\ length b = Np Chain.alg0.
Proof.
  assert (H : fresh Chain.alg0)
    by (intros kind Hk; kind_cases Hk; split; reflexivity).
  split; [exact H|].
  exact (build_b_after_any_calls Chain.alg0 _ H).
Defined.

(** X9: a value given to [set_neumann_BC] reaches the right-hand side
    negated, and a value given to [set_dirchlet_BC] reaches it as it is
    unless the node carries a Neumann condition, whose negated value then
    stands in its place: on a well-formed store, after either call on valid
    nodes [build_b] returns, with these entries at the given nodes. *)
Theorem boundary_values_reach_the_rhs self pores v :
  wf self ->
  Forall (fun i => i < Np self) pores ->
  (let s := fst (set_neumann_BC pores [v] self) in
   exists b, build_b s = (with_b s b, Ok b) /\
     forall p, p ∈ pores -> b !! p = Some (- v)%S) /\
  (let s := fst (set_dirchlet_BC pores [v] self) in
   exists b, build_b s = (with_b s b, Ok b) /\
     forall p, p ∈ pores ->
       b !! p = Some (if label_at self "neumann" p
                      then (- value_at self "neumann" p)%S else v)).
Proof.
  intros Hwf Hp.
  assert (Hstep : forall K, K ∈ ["dirichlet"; "neumann"] ->
    let s := fst (set_boundary_conditions pores K [v] "merge" self) in
    wf s /\ Np s = Np self /\
    forall k p, k ∈ ["dirichlet"; "neumann"] ->
      label_at s k p
      = (if decide (k = K /\ p ∈ pores) then true else label_at self k p) /\
      value_at s k p
      = (if decide (k = K /\ p ∈ pores) then v else value_at self k p)).
  { intros K HK s. subst s.
    pose proof (wf_kind self K Hwf HK) as HwfK.
    rewrite (set_boundary_conditions_merge self K pores [v] HK HwfK Hp
               (or_introl eq_refl)).
    cbn [fst]. split; [|split; [reflexivity|]].
    - apply wf_merged; [exact Hwf|exact HK|left; reflexivity].
    - intros k p Hk.
      destruct (observe_merged self K pores [v] k p Hwf HK Hk Hp) as [EL EV].
      rewrite EL, EV. split; [reflexivity|].
      destruct (decide (k = K)) as [->|Hne].
      + change (put (values_of self K) pores (broadcast pores [v]))
          with (mark (values_of self K) pores v).
        destruct (decide (p ∈ pores)) as [Hin|Hnin].
        * rewrite decide_True by (split; [reflexivity|exact Hin]).
          rewrite mark_lookup_in; [reflexivity|exact Hin|].
          rewrite length_values_of by exact HwfK.
          apply (proj1 (Forall_forall _ pores) Hp), Hin.
        * rewrite decide_False by tauto.
          rewrite mark_lookup_notin by exact Hnin.
          rewrite value_at_values_of. reflexivity.
      + rewrite decide_False by tauto. reflexivity. }
  split.
  - intros s. subst s. unfold set_neumann_BC.
    destruct (Hstep "neumann" ltac:(by_compute)) as (Hwf1 & HNp & Hobs).
    eexists. split; [apply build_b_run, Hwf1|]. intros p Hin.
    rewrite rhs_lookup; [|exact Hwf1|].
    2:{ rewrite HNp. apply (proj1 (Forall_forall _ pores) Hp), Hin. }
    destruct (Hobs "neumann" p ltac:(by_compute)) as [-> ->].
    rewrite !decide_True by (split; [reflexivity|exact Hin]). reflexivity.
  - intros s. subst s. unfold set_dirchlet_BC.
    destruct (Hstep "dirichlet" ltac:(by_compute)) as (Hwf1 & HNp & Hobs).
    eexists. split; [apply build_b_run, Hwf1|]. intros p Hin.
    rewrite rhs_lookup; [|exact Hwf1|].
    2:{ rewrite HNp. apply (proj1 (Forall_forall _ pores) Hp), Hin. }
    destruct (Hobs "neumann" p ltac:(by_compute)) as [-> ->].
    destruct (Hobs "dirichlet" p ltac:(by_compute)) as [-> ->].
    rewrite !decide_False by (intros [? _]; discriminate).
    rewrite !decide_True by (split; [reflexivity|exact Hin]). reflexivity.
Qed.

Lemma boundary_values_reach_the_rhs_witness :
  let self := exec_all Chain.alg0 [SetBC [1] "neumann" [one] "merge"] in
  wf self /\
  Forall (fun i => i < Np self) [0; 1] /\
  (let s := fst (set_neumann_BC [0; 1] [Chain.half] self) in
   exists b, build_b s = (with_b s b, Ok b) /\
     forall p, p ∈ [0; 1] -> b !! p = Some (- Chain.half)%S) /\
  (let s := fst (set_dirchlet_BC [0; 1] [Chain.half] self) in
   exists b, build_b s = (with_b s b, Ok b) /\
     forall p, p ∈ [0; 1] ->
       b !! p = Some (if label_at self "neumann" p
                      then (- value_at self "neumann" p)%S else Chain.half)).
Proof.
  intros self.
  assert (H1 : wf self) by wf_by_compute.
  assert (H2 : Forall (fun i => i < Np self) [0; 1]) by pores_by_compute.
  repeat (split; [assumption|]).
  exact (boundary_values_reach_the_rhs self [0; 1] Chain.half H1 H2).
Defined.

Lemma set_boundary_conditions_InvalidArgument_witness :
  snd (set_boundary_conditions [0] "dirichlet" [one; zero] "overwrite"
         Chain.alg1) = Raise InvalidArgument /\
  fst (set_boundary_conditions [0] "dirichlet" [one; zero] "overwrite"
         Chain.alg1) = Chain.alg1.
Proof.
  assert (H : snd (set_boundary_conditions [0] "dirichlet" [one; zero]
                     "overwrite" Chain.alg1) = Raise InvalidArgument)
    by reflexivity.
  split; [exact H|].
  exact (set_boundary_conditions_InvalidArgument _ _ _ _ _ H).
Defined.

(** ** Rates of groups and of their nodes *)

Lemma sp_sum_indicator {A} (f : A -> scalar) (c : A -> bool) (l : list A) :
  sp_sum (map f (filter (fun a => c a = true) l))
  = sp_sum (map (fun a => if c a then f a else zero) l).
Proof.
  induction l as [|a l IH]; [reflexivity|].
  rewrite filter_cons, map_cons, sp_sum_cons, <- IH.
  destruct (c a) eqn:Hc.
  - rewrite decide_True by reflexivity. rewrite map_cons, sp_sum_cons.
    reflexivity.
  - rewrite decide_False by discriminate. rewrite sadd_zero_l. reflexivity.
Qed.

Lemma boundary_rate_flux net g x P :
  boundary_rate net g x P = sp_sum (map (flux x P) (zip (conns net) g)).
Proof.
  unfold boundary_rate.
  exact (sp_sum_indicator _ (fun eg => crosses P (fst eg)) _).
Qed.

Lemma sp_sum_map_zero {A} (l : list A) :
  sp_sum (map (fun _ => zero) l) = zero.
Proof.
  induction l as [|a l IH]; [reflexivity|].
  rewrite map_cons, sp_sum_cons, IH. apply sadd_zero_l.
Qed.

Lemma sp_sum_map_sadd {A} (f h : A -> scalar) (l : list A) :
  sp_sum (map (fun a => (f a + h a)%S) l)
  = (sp_sum (map f l) + sp_sum (map h l))%S.
Proof.
  induction l as [|a l IH]; [symmetry; apply sadd_zero_l|].
  rewrite !map_cons, !sp_sum_cons, IH.
  rewrite <- !sadd_assoc. f_equal.
  rewrite !sadd_assoc. f_equal. apply sadd_comm.
Qed.

(** Sums over nodes and over edges can be exchanged. *)
Lemma sp_sum_exchange {A B} (F : A -> B -> scalar) (P : list A) (E : list B) :
  sp_sum (map (fun p => sp_sum (map (F p) E)) P)
  = sp_sum (map (fun e => sp_sum (map (fun p => F p e) P)) E).
Proof.
  induction P as [|p P IH].
  - simpl map at 1. rewrite sp_sum_nil.
    symmetry. exact (sp_sum_map_zero E).
  - rewrite map_cons, sp_sum_cons, IH, <- sp_sum_map_sadd. reflexivity.
Qed.

Lemma sp_sum_map_ext {A} (f h : A -> scalar) (l : list A) :
  (forall a, a ∈ l -> f a = h a) -> sp_sum (map f l) = sp_sum (map h l).
Proof.
  intros H. f_equal. apply list_fmap_ext. intros i a Ha.
  apply H. eapply list_elem_of_lookup_2. exact Ha.
Qed.

Lemma inside_cons P p u :
  inside (p :: P) u = bool_decide (u = p) || inside P u.
Proof.
  unfold inside. apply eq_true_iff_eq.
  rewrite orb_true_iff, !bool_decide_eq_true. apply elem_of_cons.
Qed.

Lemma inside_nil u : inside [] u = false.
Proof. unfold inside. apply bool_decide_eq_false, not_elem_of_nil. Qed.

(** The contributions of one edge to the nodes of a group add up to its
    contribution to the group: across an edge inside the group the two
    fluxes cancel. *)
Lemma flux_nodes x P e :
  NoDup P -> finite (snd e) ->
  finite (default NaN (x !! fst (fst e))) ->
  finite (default NaN (x !! snd (fst e))) ->
  sp_sum (map (fun p => flux x [p] e) P) = flux x P e.
Proof.
  destruct e as [[u v] w]. simpl fst. simpl snd.
  intros Hnd [qw ->] [qu Hu] [qv Hv].
  induction P as [|p P IH].
  - unfold flux, crosses. simpl fst. simpl snd. rewrite !inside_nil.
    reflexivity.
  - apply NoDup_cons in Hnd as [Hp Hnd]. specialize (IH Hnd).
    rewrite map_cons, sp_sum_cons, IH. clear IH.
    assert (Hpin : inside P p = false)
      by (apply bool_decide_eq_false; exact Hp).
    unfold flux, crosses, inner, outer. simpl fst. simpl snd.
    rewrite !inside_cons, !inside_nil, !orb_false_r.
    destruct (decide (u = p)) as [->|Hup], (decide (v = p)) as [->|Hvp];
      rewrite ?(bool_decide_eq_true_2 (p = p)) by reflexivity;
      rewrite ?(bool_decide_eq_false_2 (u = p)) by assumption;
      rewrite ?(bool_decide_eq_false_2 (v = p)) by assumption;
      rewrite ?Hpin; simpl orb; simpl xorb.
    + reflexivity.
    + destruct (inside P v); simpl negb; cbv iota; rewrite ?Hu, ?Hv;
        unfold zero; cbn [sadd ssub smul]; f_equal; ring.
    + destruct (inside P u); simpl xorb; cbv iota; rewrite ?Hu, ?Hv;
        unfold zero; cbn [sadd ssub smul]; f_equal; ring.
    + rewrite sadd_zero_l. reflexivity.
Qed.

Lemma lookup_finite (x : list scalar) i :
  Forall finite x -> i < length x -> finite (default NaN (x !! i)).
Proof.
  intros Hx Hi. destruct (lookup_lt_is_Some_2 x i Hi) as [a Ha].
  rewrite Ha. simpl. apply (proj1 (Forall_forall finite x) Hx).
  eapply list_elem_of_lookup_2. exact Ha.
Qed.

Lemma boundary_rate_nodes net g x P :
  valid_network net -> length x = net_Np net ->
  Forall finite g -> Forall finite x -> NoDup P ->
  sp_sum (map (fun p => boundary_rate net g x [p]) P)
  = boundary_rate net g x P.
Proof.
  intros Hv Hx Hg Hfx Hnd.
  rewrite boundary_rate_flux.
  erewrite (sp_sum_map_ext _ (fun p => sp_sum (map (fun e => flux x [p] e)
                                                   (zip (conns net) g))))
    by (intros p _; apply boundary_rate_flux).
  rewrite (sp_sum_exchange (fun p e => flux x [p] e)).
  apply sp_sum_map_ext. intros [e w] He.
  pose proof (elem_of_zip_l _ _ _ _ He) as Hc.
  pose proof (elem_of_zip_r _ _ _ _ He) as Hw.
  apply (proj1 (Forall_forall _ _) Hv) in Hc as [H1 H2].
  apply flux_nodes; [exact Hnd| | |].
  - apply (proj1 (Forall_forall finite g) Hg), Hw.
  - apply lookup_finite; [exact Hfx|]. simpl. lia.
  - apply lookup_finite; [exact Hfx|]. simpl. lia.
Qed.

(** X11: on a solved object with a conductance and a quantity field free of
    [NaN], for distinct valid nodes, the rate of the group is the sum of the
    rates of its nodes taken one by one: the flows across the edges inside
    the group cancel. *)
Theorem rate_group_is_sum_of_single self g x pores :
  conductance_is self g ->
  quantity_is self x ->
  valid_network (network (simulation self)) ->
  Forall (fun i => i < Np self) pores ->
  NoDup pores -> Forall finite g -> Forall finite x ->
  exists R r,
    rate pores "single" self = (self, Ok R) /\
    rate pores "group" self = (self, Ok [r]) /\
    length R = length pores /\
    sp_sum R = r.
Proof.
  intros Hg Hx Hv Hp Hnd Hfg Hfx.
  eexists _, _. split; [|split; [|split]].
  - apply (rate_single_run self g x); assumption.
  - apply (rate_group_run self g x); assumption.
  - apply length_map.
  - apply boundary_rate_nodes; try assumption.
    destruct Hx as (_ & _ & _ & H). exact H.
Qed.

Lemma rate_group_is_sum_of_single_witness :
  conductance_is Chain.alg2 [one; one] /\
  quantity_is Chain.alg2 [one; Chain.half; zero] /\
  valid_network (network (simulation Chain.alg2)) /\
  Forall (fun i => i < Np Chain.alg2) [1; 2] /\
  NoDup [1; 2] /\ Forall finite [one; one] /\
  Forall finite [one; Chain.half; zero] /\
  exists R r,
    rate [1; 2] "single" Chain.alg2 = (Chain.alg2, Ok R) /\
    rate [1; 2] "group" Chain.alg2 = (Chain.alg2, Ok [r]) /\
    length R = length [1; 2] /\
    sp_sum R = r.
Proof.
  assert (H1 : conductance_is Chain.alg2 [one; one])
    by conductance_by_compute.
  assert (H2 : quantity_is Chain.alg2 [one; Chain.half; zero])
    by quantity_by_compute.
  assert (H3 : valid_network (network (simulation Chain.alg2)))
    by network_by_compute.
  assert (H4 : Forall (fun i => i < Np Chain.alg2) [1; 2])
    by pores_by_compute.
  assert (H5 : NoDup [1; 2]) by by_compute.
  assert (H6 : Forall finite [one; one]) by finite_by_compute.
  assert (H7 : Forall finite [one; Chain.half; zero]) by finite_by_compute.
  repeat (split; [assumption|]).
  exact (rate_group_is_sum_of_single Chain.alg2 _ _ [1; 2]
           H1 H2 H3 H4 H5 H6 H7).
Defined.

(** X12: on a solved object the rate of a group that holds every node of
    the network is zero, whatever the fields are: no edge crosses its
    boundary. *)
Theorem rate_of_all_nodes_is_zero self g x pores :
  conductance_is self g ->
  quantity_is self x ->
  valid_network (network (simulation self)) ->
  Forall (fun i => i < Np self) pores ->
  (forall i, i < Np self -> i ∈ pores) ->
  rate pores "group" self = (self, Ok [zero]).
Proof.
  intros Hg Hx Hv Hp Hall.
  rewrite (rate_group_run self g x pores Hg Hx Hv Hp).
  f_equal. f_equal. f_equal. unfold boundary_rate.
  rewrite filter_never; [reflexivity|].
  intros [e w] He Hc. simpl in Hc.
  apply elem_of_zip_l in He.
  apply (proj1 (Forall_forall _ _) Hv) in He as [H1 H2].
  unfold crosses, inside in Hc.
  rewrite !bool_decide_eq_true_2 in Hc by (apply Hall; assumption).
  discriminate Hc.
Qed.

Lemma rate_of_all_nodes_is_zero_witness :
  conductance_is Chain.alg2 [one; one] /\
  quantity_is Chain.alg2 [one; Chain.half; zero] /\
  valid_network (network (simulation Chain.alg2)) /\
  Forall (fun i => i < Np Chain.alg2) [2; 0; 1] /\
  (forall i, i < Np Chain.alg2 -> i ∈ [2; 0; 1]) /\
  rate [2; 0; 1] "group" Chain.alg2 = (Chain.alg2, Ok [zero]).
Proof.
  assert (H1 : conductance_is Chain.alg2 [one; one])
    by conductance_by_compute.
  assert (H2 : quantity_is Chain.alg2 [one; Chain.half; zero])
    by quantity_by_compute.
  assert (H3 : valid_network (network (simulation Chain.alg2)))
    by network_by_compute.
  assert (H4 : Forall (fun i => i < Np Chain.alg2) [2; 0; 1])
    by pores_by_compute.
  assert (H5 : forall i, i < Np Chain.alg2 -> i ∈ [2; 0; 1]).
  { intros i Hi. change (Np Chain.alg2) with 3 in Hi.
    destruct i as [|[|[|i]]]; [| | |lia]; by_compute. }
  repeat (split; [assumption|]).
  exact (rate_of_all_nodes_is_zero Chain.alg2 _ _ [2; 0; 1] H1 H2 H3 H4 H5).
Defined.

(** X13: [rate] knows the modes group and single only: with any other
    mode it never returns, and on a solved object with valid nodes it fails
    with [UnboundLocalError], the throats of the groups never having been
    assigned, and leaves the object as it was. *)
Theorem rate_unknown_mode self g x pores mode :
  conductance_is self g ->
  quantity_is self x ->
  Forall (fun i => i < Np self) pores ->
  mode <> "group" -> mode <> "single" ->
  rate pores mode self = (self, Raise UnboundLocalError).
Proof.
  intros Hg Hx Hp Hm1 Hm2. unfold rate.
  rewrite (bind_Ok get_network _ self self _ eq_refl).
  rewrite (bind_Ok get _ self self self eq_refl).
  erewrite bind_Ok; [|apply phase_item_run, Hg].
  erewrite bind_Ok; [|apply getitem_opt_run, Hx].
  erewrite bind_Ok; [|apply _parse_indices_accepts, Hp].
  rewrite !bool_decide_eq_false_2 by assumption.
  reflexivity.
Qed.

Lemma rate_unknown_mode_witness :
  conductance_is Chain.alg2 [one; one] /\
  quantity_is Chain.alg2 [one; Chain.half; zero] /\
  Forall (fun i => i < Np Chain.alg2) [0] /\
  "individual" <> "group" /\ "individual" <> "single" /\
  rate [0] "individual" Chain.alg2 = (Chain.alg2, Raise UnboundLocalError).
Proof.
  assert (H1 : conductance_is Chain.alg2 [one; one])
    by conductance_by_compute.
  assert (H2 : quantity_is Chain.alg2 [one; Chain.half; zero])
    by quantity_by_compute.
  assert (H3 : Forall (fun i => i < Np Chain.alg2) [0]) by pores_by_compute.
  assert (H4 : "individual" <> "group") by discriminate.
  assert (H5 : "individual" <> "single") by discriminate.
  repeat (split; [assumption|]).
  exact (rate_unknown_mode Chain.alg2 _ _ [0] "individual" H1 H2 H3 H4 H5).
Defined.

(** ** The exceptions of the rate and of the effective property *)

Lemma mapR_Raise {A B} (f : A -> result B) (l : list A) e :
  mapR f l = Raise e -> exists a, a ∈ l /\ f a = Raise e.
Proof.
  induction l as [|a l IH]; simpl; [discriminate|].
  destruct (f a) as [b|e'] eqn:Ha; simpl.
  - destruct (mapR f l) as [bs|e'']; simpl; [discriminate|].
    intros [= <-]. destruct (IH eq_refl) as (a' & Hin & Ha').
    exists a'. split; [right; exact Hin|exact Ha'].
  - intros [= <-]. exists a. split; [left|exact Ha].
Qed.

Lemma take_idx_exn {A} (l : list A) idx e :
  take_idx l idx = Raise e -> numpy_error e.
Proof.
  intros H. apply mapR_Raise in H as (i & _ & H).
  unfold index in H. destruct (l !! i); [discriminate|].
  injection H as <-. right. left. reflexivity.
Qed.

Lemma getitem_mask_exn {A} (l : list A) mask e :
  getitem_mask l mask = Raise e -> numpy_error e.
Proof.
  unfold getitem_mask. destruct (_ =? _); [discriminate|].
  intros [= <-]. right. left. reflexivity.
Qed.

Lemma setitem_mask_exn {A} (l : list A) mask vals e :
  setitem_mask l mask vals = Raise e -> numpy_error e.
Proof.
  unfold setitem_mask, setitem_list, numpy_error.
  repeat case_match; intros; simplify_eq; auto.
Qed.

Lemma rate_of_group_exn net cond quant throats P e :
  rate_of_group net cond quant throats P = Raise e -> numpy_error e.
Proof.
  unfold rate_of_group, find_connected_pores.
  repeat lazymatch goal with
  | |- rbind ?r _ = Raise _ -> _ =>
      let E := fresh "E" in
      destruct r eqn:E; simpl rbind;
      [|intros [= <-];
        first [ apply take_idx_exn in E
              | apply getitem_mask_exn in E
              | apply setitem_mask_exn in E ]; exact E]
  end.
  discriminate.
Qed.

Lemma raises_only_lift {A} (E : exn -> Prop) (r : result A) :
  (forall e, r = Raise e -> E e) -> raises_only E (lift r).
Proof. intros H self e. unfold lift. simpl. apply H. Qed.

Lemma raises_only_weaken {A} (E E' : exn -> Prop) (m : M A) :
  (forall e, E e -> E' e) -> raises_only E m -> raises_only E' m.
Proof. intros H Hm self e He. apply H, (Hm self), He. Qed.

(** The exceptions of [rate]: those of numpy and of the dictionaries, a
    rejected node index, and the unassigned throats of an unknown mode. *)
Lemma raises_only_rate pores mode :
  raises_only (fun e => e <> PreconditionViolation) (rate pores mode).
Proof.
  assert (Hnp : forall e, numpy_error e -> e <> PreconditionViolation)
    by (intros e [->|[->| ->]]; discriminate).
  unfold rate.
  repeat lazymatch goal with
  | |- raises_only _ (bind _ _) => apply raises_only_bind; [|intros ?]
  | |- raises_only _ (if ?c then _ else _) => destruct c
  | |- raises_only _ (lift _) => apply raises_only_lift
  | |- raises_only _ _ =>
      intros ? ?;
      unfold get_network, get, phase_item, getitem_opt, getitem, raise,
        _parse_indices;
      repeat case_match; simpl; intros; simplify_eq; discriminate
  end.
  - intros e H. apply mapR_Raise in H as (i & _ & H).
    apply Hnp. eapply rate_of_group_exn, H.
  - intros e H. apply mapR_Raise in H as (i & _ & H).
    repeat case_match; simplify_eq; try discriminate;
      apply Hnp; eapply rate_of_group_exn; eassumption.
Qed.

Lemma fst_lift_mapR {A B} (f : A -> result B) l self :
  fst (lift (mapR f l) self) = self.
Proof. reflexivity. Qed.

(** [rate] only reads. *)
Lemma rate_reads pores mode : preserves eq (rate pores mode).
Proof.
  unfold rate.
  preserves_steps ltac:(fail).
  all: apply preserves_pure; [typeclasses eauto|intros self].
  all: unfold get_network, get, phase_item, getitem_opt, getitem, raise, lift;
    repeat case_match; reflexivity.
Qed.

(** X14: [_calc_eff_prop] never changes the object, and it fails with
    [PreconditionViolation] exactly when no array is stored under the
    quantity key of the settings, that is, when the algorithm has not been
    run: none of its later steps can raise that exception. *)
Theorem effective_property_requires_a_run self :
  fst (_calc_eff_prop self) = self /\
  (snd (_calc_eff_prop self) = Raise PreconditionViolation <->
   ~ exists k, quantity (settings self) = Some k /\ has_key self k).
Proof.
  split.
  - symmetry. revert self.
    change (preserves eq _calc_eff_prop). unfold _calc_eff_prop.
    preserves_steps ltac:(apply rate_reads).
    all: apply preserves_pure; [typeclasses eauto|intros self].
    all: unfold get_network, get, contains_opt, contains, ret, pores_, bind,
           getitem, raise, lift;
      repeat case_match; simplify_eq; reflexivity.
  - unfold _calc_eff_prop.
    rewrite (bind_Ok get_network _ self self _ eq_refl).
    rewrite (bind_Ok get _ self self self eq_refl).
    destruct (quantity (settings self)) as [k|] eqn:Hq; simpl contains_opt.
    2:{ split; [|reflexivity]. intros _ (k & H & _). discriminate H. }
    erewrite bind_Ok; [|apply contains_run].
    case_bool_decide as Hk.
    + lazymatch goal with
      | |- context [(if negb true then ?r else ?m) ?s] =>
          change ((if negb true then r else m) s) with (m s)
      end.
      split; [|intros H; exfalso; apply H; exists k; split; [reflexivity|exact Hk]].
      intros H. exfalso. revert H.
      lazymatch goal with
      | |- snd (?m ?s) = _ -> _ =>
          assert (Hm : raises_only (fun e => e <> PreconditionViolation) m)
      end.
      { repeat lazymatch goal with
        | |- raises_only _ (bind _ _) => apply raises_only_bind; [|intros ?]
        | |- raises_only _ (rate _ _) => apply raises_only_rate
        | |- raises_only _ (lift _) => apply raises_only_lift
        | |- raises_only _ _ =>
            intros ? ?; unfold pores_, bind, getitem, ret;
            repeat case_match; simpl; intros; simplify_eq; discriminate
        end.
        - intros e H. apply take_idx_exn in H as [->|[->| ->]]; discriminate.
        - unfold amax. intros e H. case_match; simplify_eq. discriminate.
        - unfold amin. intros e H. case_match; simplify_eq. discriminate.
        - unfold index. intros e H. case_match; simplify_eq. discriminate.
        - unfold index. intros e H. case_match; simplify_eq. discriminate. }
      intros H. exact (Hm self _ H eq_refl).
    + split; [|reflexivity].
      intros _ (k' & [= <-] & H). contradiction.
Qed.

(** ** The effective property for any number of Dirichlet values *)

(** [_calc_eff_prop] on a solved object with Dirichlet arrays over all
    nodes, step by step. *)
Lemma _calc_eff_prop_run self g x labels values :
  conductance_is self g ->
  quantity_is self x ->
  valid_network (network (simulation self)) ->
  items self !! "pore.dirichlet" = Some (BoolArr labels) ->
  items self !! "pore.dirichlet_value" = Some (FloatArr values) ->
  length labels = Np self -> length values = Np self ->
  let net := network (simulation self) in
  let BCs := sp_unique (compress labels values) in
  _calc_eff_prop self
  = (self,
     hi <~ amax BCs ;;
     lo <~ amin BCs ;;
     b0 <~ index BCs 0 ;;
     b1 <~ index BCs 1 ;;
     Ok (boundary_rate net g x (nodes_at values hi)
         * domain_length net (nodes_at values hi) (nodes_at values lo)
         / domain_area net (nodes_at values hi)
         / (b0 - b1))%S).
Proof.
  intros Hg Hx Hv Hlab Hval Hll Hlv net BCs.
  unfold _calc_eff_prop.
  rewrite (bind_Ok get_network _ self self _ eq_refl).
  rewrite (bind_Ok get _ self self self eq_refl).
  assert (Hsolved : contains_opt (quantity (settings self)) self
                    = (self, Ok true)).
  { destruct Hx as (k & Hk & Hk' & _). rewrite Hk. simpl.
    rewrite contains_run, bool_decide_eq_true_2 by (eexists; exact Hk').
    reflexivity. }
  erewrite bind_Ok; [|exact Hsolved].
  lazymatch goal with
  | |- (if negb true then _ else ?m) ?s = ?r => change (m s = r)
  end.
  assert (HPs : pores_ "pore.dirichlet" self = (self, Ok (where_ labels))).
  { unfold pores_. erewrite bind_Ok; [|apply getitem_run, Hlab]. reflexivity. }
  erewrite bind_Ok; [|exact HPs].
  erewrite bind_Ok; [|apply getitem_run, Hval].
  simpl as_floats.
  unfold bind at 1, lift at 1.
  rewrite take_idx_where by congruence. fold BCs.
  unfold bind at 1, lift at 1.
  destruct (amax BCs) as [hi|e]; [|reflexivity]. simpl rbind.
  unfold bind at 1, lift at 1.
  destruct (amin BCs) as [lo|e]; [|reflexivity]. simpl rbind.
  fold (nodes_at values hi). fold (nodes_at values lo).
  assert (Hin : Forall (fun i => i < Np self) (nodes_at values hi))
    by (apply nodes_at_valid, Hlv).
  erewrite bind_Ok; [|apply (rate_group_run self g x _ Hg Hx Hv Hin)].
  unfold bind, lift, ret.
  destruct (index BCs 0) as [b0|e]; [|reflexivity]. simpl rbind.
  destruct (index BCs 1) as [b1|e]; [|reflexivity]. simpl rbind.
  rewrite sp_sum_cons, sp_sum_nil, sadd_zero_r. reflexivity.
Qed.

(** X15: on a solved object whose Dirichlet arrays mark no node,
    [_calc_eff_prop] fails with [ValueError]: the largest of no boundary
    values is asked for. *)
Theorem effective_property_without_dirichlet_nodes self g x labels values :
  conductance_is self g ->
  quantity_is self x ->
  valid_network (network (simulation self)) ->
  items self !! "pore.dirichlet" = Some (BoolArr labels) ->
  items self !! "pore.dirichlet_value" = Some (FloatArr values) ->
  length labels = Np self -> length values = Np self ->
  compress labels values = [] ->
  _calc_eff_prop self = (self, Raise ValueError).
Proof.
  intros Hg Hx Hv Hlab Hval Hll Hlv Hnone.
  rewrite (_calc_eff_prop_run self g x labels values) by assumption.
  rewrite Hnone. reflexivity.
Qed.

Lemma effective_property_without_dirichlet_nodes_witness :
  let self := solved_chain [SetBC [0] "dirichlet" [one] "merge"; RemoveBC None]
                [one; one; one] in
  conductance_is self [one; one] /\
  quantity_is self [one; one; one] /\
  valid_network (network (simulation self)) /\
  items self !! "pore.dirichlet" = Some (BoolArr [false; false; false]) /\
  items self !! "pore.dirichlet_value" = Some (FloatArr [NaN; NaN; NaN]) /\
  length [false; false; false] = Np self /\
  length [NaN; NaN; NaN] = Np self /\
  compress [false; false; false] [NaN; NaN; NaN] = [] /\
  _calc_eff_prop self = (self, Raise ValueError).
Proof.
  intros self.
  assert (H1 : conductance_is self [one; one]) by conductance_by_compute.
  assert (H2 : quantity_is self [one; one; one]) by quantity_by_compute.
  assert (H3 : valid_network (network (simulation self)))
    by network_by_compute.
  assert (H4 : items self !! "pore.dirichlet"
               = Some (BoolArr [false; false; false])) by reflexivity.
  assert (H5 : items self !! "pore.dirichlet_value"
               = Some (FloatArr [NaN; NaN; NaN])) by reflexivity.
  assert (H6 : length [false; false; false] = Np self) by reflexivity.
  assert (H7 : length [NaN; NaN; NaN] = Np self) by reflexivity.
  assert (H8 : compress [false; false; false] [NaN; NaN; NaN] = [])
    by reflexivity.
  repeat (split; [assumption|]).
  exact (effective_property_without_dirichlet_nodes self _ _ _ _
           H1 H2 H3 H4 H5 H6 H7 H8).
Defined.

Lemma sp_unique_constant (q : Qc) (l : list scalar) :
  l <> [] -> Forall (fun v => v = Num q) l -> sp_unique l = [Num q].
Proof.
  intros Hne Hl. induction Hl as [|v l -> Hl IH]; [contradiction|].
  simpl. destruct l as [|v' l].
  - reflexivity.
  - rewrite IH by discriminate. simpl.
    rewrite bool_decide_eq_true_2 by reflexivity. reflexivity.
Qed.

(** X16: on a solved object all of whose Dirichlet nodes hold one and the
    same number, [_calc_eff_prop] fails with [IndexError]: there is no
    second boundary value to subtract. *)
Theorem effective_property_with_one_value self g x labels values q :
  conductance_is self g ->
  quantity_is self x ->
  valid_network (network (simulation self)) ->
  items self !! "pore.dirichlet" = Some (BoolArr labels) ->
  items self !! "pore.dirichlet_value" = Some (FloatArr values) ->
  length labels = Np self -> length values = Np self ->
  compress labels values <> [] ->
  Forall (fun v => v = Num q) (compress labels values) ->
  _calc_eff_prop self = (self, Raise IndexError).
Proof.
  intros Hg Hx Hv Hlab Hval Hll Hlv Hne Hall.
  rewrite (_calc_eff_prop_run self g x labels values) by assumption.
  rewrite (sp_unique_constant q) by assumption. reflexivity.
Qed.

Lemma effective_property_with_one_value_witness :
  let self := solved_chain [SetBC [0; 2] "dirichlet" [one] "merge"]
                [one; one; one] in
  conductance_is self [one; one] /\
  quantity_is self [one; one; one] /\
  valid_network (network (simulation self)) /\
  items self !! "pore.dirichlet" = Some (BoolArr [true; false; true]) /\
  items self !! "pore.dirichlet_value" = Some (FloatArr [one; NaN; one]) /\
  length [true; false; true] = Np self /\
  length [one; NaN; one] = Np self /\
  compress [true; false; true] [one; NaN; one] <> [] /\
  Forall (fun v => v = Num 1%Qc) (compress [true; false; true] [one; NaN; one]) /\
  _calc_eff_prop self = (self, Raise IndexError).
Proof.
  intros self.
  assert (H1 : conductance_is self [one; one]) by conductance_by_compute.
  assert (H2 : quantity_is self [one; one; one]) by quantity_by_compute.
  assert (H3 : valid_network (network (simulation self)))
    by network_by_compute.
  assert (H4 : items self !! "pore.dirichlet"
               = Some (BoolArr [true; false; true])) by reflexivity.
  assert (H5 : items self !! "pore.dirichlet_value"
               = Some (FloatArr [one; NaN; one])) by reflexivity.
  assert (H6 : length [true; false; true] = Np self) by reflexivity.
  assert (H7 : length [one; NaN; one] = Np self) by reflexivity.
  assert (H8 : compress [true; false; true] [one; NaN; one] <> [])
    by discriminate.
  assert (H9 : Forall (fun v => v = Num 1%Qc)
                 (compress [true; false; true] [one; NaN; one]))
    by (repeat constructor).
  repeat (split; [assumption|]).
  exact (effective_property_with_one_value self _ _ _ _ _
           H1 H2 H3 H4 H5 H6 H7 H8 H9).
Defined.

Lemma slt_Num_trans a b z :
  slt (Num a) (Num b) -> slt (Num b) z -> slt (Num a) z.
Proof.
  intros [H1 H1'] [H2 H2']. destruct z as [|c]; [split; reflexivity|].
  simpl in *.
  apply bool_decide_eq_true in H1, H2.
  apply bool_decide_eq_false in H1', H2'.
  assert (Hab : (a < b)%Qc).
  { destruct (Qcle_lt_or_eq _ _ H1) as [H|H]; [exact H|contradiction]. }
  pose proof (Qclt_le_trans _ _ _ Hab H2) as Hac.
  split.
  - apply bool_decide_eq_true, Qclt_le_weak, Hac.
  - apply bool_decide_eq_false. intros ->. exact (Qclt_not_eq _ _ Hac eq_refl).
Qed.

(** In a strictly sorted list of numbers the first is the smallest and the
    last the largest. *)
Lemma amin_sorted a l :
  Sorted slt (Num a :: l) -> Forall finite l -> foldl smin (Num a) l = Num a.
Proof.
  induction l as [|y l IH]; intros Hs Hf; [reflexivity|].
  apply Forall_cons in Hf as [[b ->] Hf].
  inversion Hs as [|? ? Hs' Hd]; subst.
  inversion Hd as [|? ? Hab]; subst.
  simpl. destruct Hab as [Hle Hne]. simpl in Hle. rewrite Hle.
  apply IH; [|exact Hf].
  inversion Hs' as [|? ? Hs'' Hd']; subst.
  constructor; [exact Hs''|].
  destruct l as [|z l]; constructor.
  inversion Hd' as [|? ? Hbz]; subst.
  apply (slt_Num_trans a b z); [split; assumption|exact Hbz].
Qed.

Lemma default_last_cons {A} (d d' y : A) (l : list A) :
  default d (last (y :: l)) = default d' (last (y :: l)).
Proof.
  revert y. induction l as [|z l IH]; intros y; [reflexivity|]. apply (IH z).
Qed.

Lemma amax_sorted a l :
  Sorted slt (Num a :: l) -> Forall finite l ->
  foldl smax (Num a) l = default (Num a) (last l).
Proof.
  revert a. induction l as [|y l IH]; intros a Hs Hf; [reflexivity|].
  apply Forall_cons in Hf as [[b ->] Hf].
  inversion Hs as [|? ? Hs' Hd]; subst.
  inversion Hd as [|? ? [Hle _]]; subst.
  simpl foldl. simpl in Hle. simpl smax. rewrite Hle.
  rewrite (IH b Hs' Hf). destruct l as [|z l]; [reflexivity|].
  apply (default_last_cons (Num b) (Num a) z l).
Qed.

(** X17: on a solved object whose Dirichlet nodes hold two or more distinct
    numbers, [_calc_eff_prop] returns the group rate into the nodes that
    hold the largest value times the domain length, divided by the domain
    area times (smallest value minus second smallest value): with more than
    two distinct values the divisor is not the difference between the
    outlet and the inlet value. *)
Theorem effective_property_divides_by_two_smallest
    self g x labels values b0 b1 rest :
  conductance_is self g ->
  quantity_is self x ->
  valid_network (network (simulation self)) ->
  items self !! "pore.dirichlet" = Some (BoolArr labels) ->
  items self !! "pore.dirichlet_value" = Some (FloatArr values) ->
  length labels = Np self -> length values = Np self ->
  sp_unique (compress labels values) = Num b0 :: Num b1 :: rest ->
  Forall finite rest ->
  let net := network (simulation self) in
  let inlets := nodes_at values (default (Num b1) (last rest)) in
  let outlets := nodes_at values (Num b0) in
  let A := domain_area net inlets in
  let L := domain_length net inlets outlets in
  exists r,
    rate inlets "group" self = (self, Ok [r]) /\
    _calc_eff_prop self = (self, Ok (r * L / (A * (Num b0 - Num b1)))%S).
Proof.
  intros Hg Hx Hv Hlab Hval Hll Hlv Hbc Hfin net inlets outlets A L.
  assert (Hin : Forall (fun i => i < Np self) inlets)
    by (apply nodes_at_valid, Hlv).
  eexists. split; [apply (rate_group_run self g x _ Hg Hx Hv Hin)|].
  rewrite (_calc_eff_prop_run self g x labels values) by assumption.
  pose proof (Sorted_sp_unique (compress labels values)) as Hs.
  rewrite Hbc in Hs |- *.
  assert (Hf : Forall finite (Num b1 :: rest))
    by (constructor; [eexists; reflexivity|exact Hfin]).
  unfold amax, amin.
  rewrite (amax_sorted b0 _ Hs Hf), (amin_sorted b0 _ Hs Hf).
  simpl rbind. rewrite sdiv_sdiv.
  replace (default (Num b0) (last (Num b1 :: rest)))
    with (default (Num b1) (last rest)).
  2:{ destruct rest as [|z rest]; [reflexivity|].
      apply (default_last_cons (Num b1) (Num b0) z rest). }
  reflexivity.
Qed.

Lemma effective_property_divides_by_two_smallest_witness :
  let self := solved_chain
                [SetBC [0; 1; 2] "dirichlet" [one; Chain.half; zero] "merge"]
                [one; Chain.half; zero] in
  let b1 := (1 / (1 + 1))%Qc in
  conductance_is self [one; one] /\
  quantity_is self [one; Chain.half; zero] /\
  valid_network (network (simulation self)) /\
  items self !! "pore.dirichlet" = Some (BoolArr [true; true; true]) /\
  items self !! "pore.dirichlet_value"
  = Some (FloatArr [one; Chain.half; zero]) /\
  length [true; true; true] = Np self /\
  length [one; Chain.half; zero] = Np self /\
  sp_unique (compress [true; true; true] [one; Chain.half; zero])
  = Num 0%Qc :: Num b1 :: [Num 1%Qc] /\
  Forall finite [Num 1%Qc] /\
  let net := network (simulation self) in
  let inlets := nodes_at [one; Chain.half; zero]
                  (default (Num b1) (last [Num 1%Qc])) in
  let outlets := nodes_at [one; Chain.half; zero] (Num 0%Qc) in
  let A := domain_area net inlets in
  let L := domain_length net inlets outlets in
  exists r,
    rate inlets "group" self = (self, Ok [r]) /\
    _calc_eff_prop self = (self, Ok (r * L / (A * (Num 0%Qc - Num b1)))%S).
Proof.
  intros self b1.
  assert (H1 : conductance_is self [one; one]) by conductance_by_compute.
  assert (H2 : quantity_is self [one; Chain.half; zero])
    by quantity_by_compute.
  assert (H3 : valid_network (network (simulation self)))
    by network_by_compute.
  assert (H4 : items self !! "pore.dirichlet"
               = Some (BoolArr [true; true; true])) by reflexivity.
  assert (H5 : items self !! "pore.dirichlet_value"
               = Some (FloatArr [one; Chain.half; zero])) by reflexivity.
  assert (H6 : length [true; true; true] = Np self) by reflexivity.
  assert (H7 : length [one; Chain.half; zero] = Np self) by reflexivity.
  assert (H8 : sp_unique (compress [true; true; true] [one; Chain.half; zero])
               = Num 0%Qc :: Num b1 :: [Num 1%Qc]) by by_compute.
  assert (H9 : Forall finite [Num 1%Qc]) by finite_by_compute.
  repeat (split; [assumption|]).
  exact (effective_property_divides_by_two_smallest self _ _ _ _ _ _ _
           H1 H2 H3 H4 H5 H6 H7 H8 H9).
Defined.

(** ** The rows of the linear system *)

Lemma smul_one_l (v : scalar) : (one * v)%S = v.
Proof. destruct v as [|q]; [reflexivity|]. unfold one, smul. f_equal. ring. Qed.

Lemma filter_ext_in {A} (P Q : A -> Prop)
    `{!forall x, Decision (P x), !forall x, Decision (Q x)} (l : list A) :
  (forall x, x ∈ l -> (P x <-> Q x)) -> filter P l = filter Q l.
Proof.
  intros HPQ. induction l as [|a l IH]; [reflexivity|].
  rewrite !filter_cons.
  rewrite IH by (intros x Hx; apply HPQ; right; exact Hx).
  pose proof (HPQ a (list_elem_of_here _ _)) as Ha.
  destruct (decide (P a)) as [HP|HP], (decide (Q a)) as [HQ|HQ];
    try reflexivity; tauto.
Qed.

Lemma filter_all {A} (P : A -> Prop) `{!forall x, Decision (P x)}
    (l : list A) :
  (forall x, x ∈ l -> P x) -> filter P l = l.
Proof.
  induction l as [|a l IH]; intros Hl; [reflexivity|].
  rewrite filter_cons_True by (apply Hl; left).
  rewrite IH by (intros x Hx; apply Hl; right; exact Hx). reflexivity.
Qed.

Lemma filter_fmap {A B} (f : A -> B) (P : B -> Prop)
    `{!forall y, Decision (P y)} (l : list A) :
  filter P (map f l) = map f (filter (fun a => P (f a)) l).
Proof.
  induction l as [|a l IH]; [reflexivity|].
  rewrite map_cons, !filter_cons, IH.
  destruct (decide (P (f a))); reflexivity.
Qed.

Lemma NoDup_dirichlet_nodes self : NoDup (dirichlet_nodes self).
Proof.
  unfold dirichlet_nodes. destruct (items self !! "pore.dirichlet").
  - apply where_NoDup.
  - constructor.
Qed.

Lemma shape_build_A_dirichlet A self A' self' :
  build_A_dirichlet A self = (self', Ok A') -> shape A' = shape A.
Proof.
  unfold build_A_dirichlet, bind, getitem.
  destruct (items self !! "pore.dirichlet"); [|discriminate].
  intros [= _ <-]. reflexivity.
Qed.

(** [build_A] when the conductance is bound. *)
Lemma build_A_run self g :
  conductance_is self g ->
  exists A,
    build_A self = (with_A self A, Ok A) /\
    shape A = Np self /\
    triples A = system_triples self g.
Proof.
  intros Hg.
  pose proof (build_A_laplacian_run self g Hg) as HL.
  set (L := laplacian _) in HL.
  assert (HwfL : coo_wf L).
  { apply coo_wf_laplacian, coo_wf_adjacency. rewrite length_map.
    destruct Hg as (_ & _ & _ & _ & _ & H). exact H. }
  unfold build_A, system_triples, dirichlet_nodes. fold L.
  destruct (items self !! "pore.dirichlet") as [a|] eqn:Ha.
  - destruct (build_A_dirichlet_run L a self Ha HwfL) as (A & HA & HT).
    exists A. split; [|split; [|exact HT]].
    + erewrite bind_Ok; [|exact HL].
      erewrite bind_Ok; [|apply contains_run].
      erewrite bind_Ok by (destruct (bool_decide _); reflexivity).
      erewrite bind_Ok; [|apply contains_run].
      rewrite Ha, bool_decide_eq_true_2 by (eexists; reflexivity).
      erewrite bind_Ok; [|exact HA]. reflexivity.
    + rewrite (shape_build_A_dirichlet _ _ _ _ HA). reflexivity.
  - exists L. split; [|split; [reflexivity|]].
    + erewrite bind_Ok; [|exact HL].
      erewrite bind_Ok; [|apply contains_run].
      erewrite bind_Ok by (destruct (bool_decide _); reflexivity).
      erewrite bind_Ok; [|apply contains_run].
      rewrite Ha, bool_decide_eq_false_2 by (intros [? ?]; discriminate).
      reflexivity.
    + simpl map. rewrite app_nil_r. symmetry. apply filter_all.
      intros t _. apply not_elem_of_nil.
Qed.

Lemma row_entries_dirichlet self g A p :
  triples A = system_triples self g -> p ∈ dirichlet_nodes self ->
  row_entries A p = [(p, p, one)].
Proof.
  intros HT Hp. unfold row_entries. rewrite HT. unfold system_triples.
  rewrite filter_app.
  rewrite (filter_diag_NoDup _ (fun _ => one) p (NoDup_dirichlet_nodes self) Hp).
  rewrite list_filter_filter, filter_never; [reflexivity|].
  intros t _ [Ht Hn]. apply Hn. rewrite Ht. exact Hp.
Qed.

Lemma row_entries_free self g A r :
  triples A = system_triples self g -> r ∉ dirichlet_nodes self ->
  row_entries A r
  = row_entries
      (laplacian (adjacency (network (simulation self)) (map sneg g))) r.
Proof.
  intros HT Hr. unfold row_entries. rewrite HT. unfold system_triples.
  rewrite filter_app.
  rewrite (filter_diag_notin _ (fun _ => one) r Hr), app_nil_r.
  apply list_filter_filter_l. intros t ->. exact Hr.
Qed.

(** A row of the Laplacian: the edges at the node, towards its neighbours,
    then the diagonal. *)
Lemma row_entries_laplacian net g i :
  length g = length (conns net) -> valid_network net -> i < net_Np net ->
  row_entries (laplacian (adjacency net (map sneg g))) i
  = filter (fun t => fst (fst t) = i /\ snd (fst t) <> i) (both_ways net g)
    ++ [(i, i, degree (adjacency net (map sneg g)) i)].
Proof.
  intros Hl Hv Hi. unfold row_entries.
  rewrite triples_network_laplacian by exact Hl.
  rewrite filter_app. f_equal.
  - rewrite list_filter_filter. apply filter_ext_in. intros t Ht.
    destruct (both_ways_valid net g t Hv Ht) as [Hlt _].
    unfold kept. split.
    + intros [Hr Hk]. split; [exact Hr|]. intros Hc.
      rewrite Hr, Hc in Hk.
      rewrite bool_decide_eq_true_2 in Hk by reflexivity.
      rewrite Hr in Hlt. apply Nat.leb_gt in Hlt. rewrite Hlt in Hk. exact Hk.
    + intros [Hr Hc]. split; [exact Hr|]. rewrite Hr.
      rewrite bool_decide_eq_false_2 by exact Hc. exact I.
  - apply (filter_diag_NoDup (seq 0 (net_Np net))); [apply NoDup_seq|].
    apply elem_of_seq. lia.
Qed.

Lemma degree_offdiag net g i :
  length g = length (conns net) -> Forall finite g ->
  degree (adjacency net (map sneg g)) i
  = (- tsum (fun t => fst (fst t) = i /\ snd (fst t) <> i)
            (both_ways net g))%S.
Proof.
  intros Hl Hg.
  rewrite degree_tsum, triples_adjacency by exact Hl.
  rewrite !tsum_negate by (intros [[r c] x]; reflexivity).
  rewrite both_ways_symmetric.
  rewrite (tsum_split (fun t => fst (fst t) = i) (fun t => snd (fst t) = i)).
  apply degree_balance; apply finite_tsum, both_ways_finite, Hg.
Qed.

(** Conductance times neighbour value, summed, minus the summed conductance
    times the node's own value, is the sum of conductance times difference. *)
Lemma sp_sum_shift (F : list (nat * nat * scalar)) (x : list scalar) xi :
  Forall (fun t => finite (snd t) /\
                   finite (default NaN (x !! snd (fst t)))) F ->
  finite xi ->
  (sp_sum (map (fun t => snd t * default NaN (x !! snd (fst t))) F)
   + (- sp_sum (map snd F)) * xi)%S
  = sp_sum (map (fun t => (snd t * (default NaN (x !! snd (fst t)) - xi))%S) F).
Proof.
  intros HF [q ->]. induction HF as [|t F [[w Hw] [c Hc]] HF IH].
  - unfold sp_sum, zero. simpl. f_equal; ring.
  - rewrite !map_cons, !sp_sum_cons, <- IH, Hw, Hc. clear IH.
    assert (H1 : finite (sp_sum (map (fun t => (snd t
                  * default NaN (x !! snd (fst t)))%S) F))).
    { apply finite_sp_sum, Forall_fmap.
      eapply Forall_impl; [exact HF|]. simpl.
      intros t' [[w' ->] [c' ->]]. eexists. reflexivity. }
    assert (H2 : finite (sp_sum (map snd F))).
    { apply finite_sp_sum, Forall_fmap.
      eapply Forall_impl; [exact HF|]. simpl. tauto. }
    destruct H1 as [s1 ->], H2 as [s2 ->].
    cbn [sadd ssub smul sneg]. f_equal. ring.
Qed.

(** The row of a node without Dirichlet condition, applied to a field, is
    the net rate into the node. *)
Lemma row_product_laplacian net g x i :
  length g = length (conns net) -> valid_network net ->
  Forall finite g -> Forall finite x -> length x = net_Np net ->
  i < net_Np net ->
  row_product (laplacian (adjacency net (map sneg g))) x i
  = boundary_rate net g x [i].
Proof.
  intros Hl Hv Hg Hfx Hx Hi. unfold row_product.
  rewrite row_entries_laplacian by assumption.
  set (F := filter _ (both_ways net g)).
  rewrite map_app, sp_sum_app. simpl map at 2.
  rewrite sp_sum_cons, sp_sum_nil, sadd_zero_r. simpl fst. simpl snd.
  rewrite degree_offdiag by assumption.
  change (tsum _ (both_ways net g)) with (sp_sum (map snd F)).
  rewrite sp_sum_shift.
  2:{ apply Forall_forall. intros t Ht. subst F.
      apply list_elem_of_filter in Ht as [_ Ht]. split.
      - apply (proj1 (Forall_forall _ _) (both_ways_finite net g Hg)), Ht.
      - apply lookup_finite; [exact Hfx|].
        destruct (both_ways_valid net g t Hv Ht) as [_ H]. lia. }
  2:{ apply lookup_finite; [exact Hfx|lia]. }
  rewrite boundary_rate_flux. fold (edges net g).
  subst F. unfold both_ways.
  rewrite filter_app, filter_fmap, map_app, sp_sum_app.
  rewrite <- list_fmap_compose.
  set (psi := fun t : nat * nat * scalar =>
                (snd t * (default NaN (x !! snd (fst t))
                          - default NaN (x !! i)))%S).
  rewrite (list_filter_iff _
             (fun t => bool_decide (fst (fst t) = i /\ snd (fst t) <> i) = true)
             (edges net g))
    by (intros t; rewrite bool_decide_eq_true; reflexivity).
  rewrite (list_filter_iff (fun a => fst (fst (swap_triple a)) = i /\ _)
             (fun t => bool_decide (fst (fst (swap_triple t)) = i
                                    /\ snd (fst (swap_triple t)) <> i) = true)
             (edges net g))
    by (intros t; rewrite bool_decide_eq_true; reflexivity).
  rewrite (sp_sum_indicator psi), (sp_sum_indicator (psi ∘ swap_triple)).
  rewrite <- sp_sum_map_sadd.
  apply sp_sum_map_ext. intros [[u v] w] _.
  unfold flux, crosses, inner, outer, psi, swap_triple, compose.
  simpl fst. simpl snd.
  rewrite !inside_cons, !inside_nil, !orb_false_r.
  destruct (decide (u = i)) as [->|Hu], (decide (v = i)) as [->|Hv'].
  - rewrite !bool_decide_eq_false_2 by tauto.
    rewrite bool_decide_eq_true_2 by reflexivity. apply sadd_zero_l.
  - rewrite (bool_decide_eq_true_2 (i = i /\ v <> i)) by tauto.
    rewrite (bool_decide_eq_false_2 (v = i /\ i <> i)) by tauto.
    rewrite (bool_decide_eq_true_2 (i = i)) by reflexivity.
    rewrite (bool_decide_eq_false_2 (v = i)) by exact Hv'.
    apply sadd_zero_r.
  - rewrite (bool_decide_eq_false_2 (u = i /\ i <> i)) by tauto.
    rewrite (bool_decide_eq_true_2 (i = i /\ u <> i)) by tauto.
    rewrite (bool_decide_eq_true_2 (i = i)) by reflexivity.
    rewrite (bool_decide_eq_false_2 (u = i)) by exact Hu.
    apply sadd_zero_l.
  - rewrite !bool_decide_eq_false_2 by tauto. apply sadd_zero_l.
Qed.

Lemma elem_of_where_from i mask j :
  j ∈ where_from i mask <-> i <= j /\ mask !! (j - i) = Some true.
Proof.
  revert i. induction mask as [|m mask IH]; intros i; simpl.
  - rewrite elem_of_nil, lookup_nil. split; [tauto|]. intros [_ H].
    discriminate H.
  - assert (Hstep : j ∈ where_from (S i) mask <->
                    i < j /\ (m :: mask) !! (j - i) = Some true).
    { rewrite IH. split.
      - intros [Hle H]. split; [lia|].
        replace (j - i) with (S (j - S i)) by lia. exact H.
      - intros [Hlt H]. split; [lia|].
        replace (j - i) with (S (j - S i)) in H by lia. exact H. }
    destruct m.
    + rewrite elem_of_cons, Hstep. split.
      * intros [->|[Hlt H]]; [|split; [lia|exact H]].
        split; [lia|]. rewrite Nat.sub_diag. reflexivity.
      * intros [Hle H]. destruct (decide (j = i)) as [->|Hne]; [left; reflexivity|].
        right. split; [lia|exact H].
    + rewrite Hstep. split.
      * intros [Hlt H]. split; [lia|exact H].
      * intros [Hle H]. split; [|exact H].
        destruct (decide (j = i)) as [->|Hne]; [|lia].
        rewrite Nat.sub_diag in H. discriminate H.
Qed.

Lemma elem_of_where mask j : j ∈ where_ mask <-> mask !! j = Some true.
Proof.
  unfold where_. rewrite elem_of_where_from, Nat.sub_0_r.
  split; [tauto|]. intros H. split; [lia|exact H].
Qed.

Lemma dirichlet_nodes_label self p :
  p ∈ dirichlet_nodes self <-> label_at self "dirichlet" p = true.
Proof.
  unfold dirichlet_nodes, label_at.
  change ("pore." +:+ "dirichlet") with "pore.dirichlet".
  destruct (items self !! "pore.dirichlet") as [a|].
  - unfold toindices. rewrite elem_of_where.
    destruct (as_bools a !! p) as [[|]|]; simpl; split; congruence.
  - rewrite elem_of_nil. split; [tauto|discriminate].
Qed.

Lemma not_dirichlet_nodes_label self p :
  p ∉ dirichlet_nodes self <-> label_at self "dirichlet" p = false.
Proof.
  rewrite dirichlet_nodes_label.
  destruct (label_at self "dirichlet" p); split; congruence.
Qed.

Lemma row_product_dirichlet self g A x p :
  triples A = system_triples self g -> p ∈ dirichlet_nodes self ->
  row_product A x p = default NaN (x !! p).
Proof.
  intros HT Hp. unfold row_product.
  rewrite (row_entries_dirichlet self g A p HT Hp).
  simpl map. rewrite sp_sum_cons, sp_sum_nil, sadd_zero_r.
  apply smul_one_l.
Qed.

Lemma row_product_free self g A x i :
  conductance_is self g ->
  valid_network (network (simulation self)) ->
  Forall finite g -> Forall finite x -> length x = Np self ->
  triples A = system_triples self g ->
  i < Np self -> i ∉ dirichlet_nodes self ->
  row_product A x i = boundary_rate (network (simulation self)) g x [i].
Proof.
  intros Hg Hv Hfg Hfx Hx HT Hi Hn. unfold row_product.
  rewrite (row_entries_free self g A i HT Hn).
  apply row_product_laplacian; try assumption.
  destruct Hg as (_ & _ & _ & _ & _ & H). exact H.
Qed.

(** X18: when the conductance is bound, [build_A] returns a square matrix
    over the nodes whose row at a Dirichlet node acts on any vector as the
    identity: the product of the row with the vector is the entry of the
    vector at the node. *)
Theorem dirichlet_rows_are_identity self g :
  conductance_is self g ->
  exists A,
    build_A self = (with_A self A, Ok A) /\
    shape A = Np self /\
    forall x p, label_at self "dirichlet" p = true ->
      row_product A x p = default NaN (x !! p).
Proof.
  intros Hg. destruct (build_A_run self g Hg) as (A & HA & Hs & HT).
  exists A. split; [exact HA|]. split; [exact Hs|].
  intros x p Hp. apply (row_product_dirichlet self g); [exact HT|].
  apply dirichlet_nodes_label, Hp.
Qed.

Lemma dirichlet_rows_are_identity_witness :
  conductance_is Chain.alg1 [one; one] /\
  exists A,
    build_A Chain.alg1 = (with_A Chain.alg1 A, Ok A) /\
    shape A = Np Chain.alg1 /\
    forall x p, label_at Chain.alg1 "dirichlet" p = true ->
      row_product A x p = default NaN (x !! p).
Proof.
  assert (H : conductance_is Chain.alg1 [one; one])
    by conductance_by_compute.
  split; [exact H|]. exact (dirichlet_rows_are_identity Chain.alg1 _ H).
Defined.

(** X19: when the conductance is bound and free of [NaN], on a network
    whose edges join its nodes, the row of the matrix [build_A] returns at a
    node without Dirichlet condition, multiplied with a field of numbers,
    gives the net rate into that node, as [rate] computes it: the sum over
    the edges at the node of conductance times (neighbour value minus own
    value). *)
Theorem free_rows_are_balances self g :
  conductance_is self g ->
  valid_network (network (simulation self)) ->
  Forall finite g ->
  exists A,
    build_A self = (with_A self A, Ok A) /\
    forall x i, length x = Np self -> Forall finite x -> i < Np self ->
      label_at self "dirichlet" i = false ->
      row_product A x i = boundary_rate (network (simulation self)) g x [i].
Proof.
  intros Hg Hv Hfg. destruct (build_A_run self g Hg) as (A & HA & Hs & HT).
  exists A. split; [exact HA|].
  intros x i Hx Hfx Hi Hn. apply (row_product_free self g); try assumption.
  apply not_dirichlet_nodes_label, Hn.
Qed.

Lemma free_rows_are_balances_witness :
  conductance_is Chain.alg1 [one; one] /\
  valid_network (network (simulation Chain.alg1)) /\
  Forall finite [one; one] /\
  exists A,
    build_A Chain.alg1 = (with_A Chain.alg1 A, Ok A) /\
    forall x i, length x = Np Chain.alg1 -> Forall finite x ->
      i < Np Chain.alg1 ->
      label_at Chain.alg1 "dirichlet" i = false ->
      row_product A x i
      = boundary_rate (network (simulation Chain.alg1)) [one; one] x [i].
Proof.
  assert (H1 : conductance_is Chain.alg1 [one; one])
    by conductance_by_compute.
  assert (H2 : valid_network (network (simulation Chain.alg1)))
    by network_by_compute.
  assert (H3 : Forall finite [one; one]) by finite_by_compute.
  repeat (split; [assumption|]).
  exact (free_rows_are_balances Chain.alg1 _ H1 H2 H3).
Defined.

(** What an exact solution of the system satisfies at each node. *)
Lemma solution_conditions self g A x :
  wf self ->
  conductance_is self g ->
  valid_network (network (simulation self)) ->
  Forall finite g ->
  shape A = Np self -> triples A = system_triples self g ->
  solves A (rhs self) x -> Forall finite x ->
  forall p, p < Np self ->
    if label_at self "dirichlet" p
    then x !! p = Some (if label_at self "neumann" p
                        then (- value_at self "neumann" p)%S
                        else value_at self "dirichlet" p)
    else boundary_rate (network (simulation self)) g x [p]
         = (if label_at self "neumann" p
            then (- value_at self "neumann" p)%S else zero).
Proof.
  intros Hwf Hg Hv Hfg Hs HT [Hlen Hmv] Hfx p Hp.
  assert (Hrow : Some (row_product A x p) = rhs self !! p).
  { rewrite <- Hmv. unfold matvec. rewrite list_lookup_fmap.
    rewrite lookup_seq_lt by (rewrite Hs; exact Hp). reflexivity. }
  rewrite rhs_lookup in Hrow by assumption.
  injection Hrow as Hrow.
  destruct (label_at self "dirichlet" p) eqn:Hd.
  - rewrite (row_product_dirichlet self g A x p HT) in Hrow
      by (apply dirichlet_nodes_label, Hd).
    destruct (lookup_lt_is_Some_2 x p ltac:(lia)) as [v Hv'].
    rewrite Hv' in Hrow |- *. simpl in Hrow. rewrite Hrow. reflexivity.
  - rewrite <- Hrow. symmetry.
    apply (row_product_free self g A x p); try assumption; [lia|].
    apply not_dirichlet_nodes_label, Hd.
Qed.

(** X20: on a well-formed store with a bound conductance free of [NaN],
    any field of numbers that solves the system of [build_A] and [build_b]
    exactly holds, at a node with a Dirichlet label, the Dirichlet value
    (the negated Neumann value if the node carries a Neumann label too),
    and has, at every other node, a net rate into the node equal to the
    negated Neumann value, or to zero where no condition is set. *)
Theorem exact_solution_meets_the_conditions self g A b x :
  wf self ->
  conductance_is self g ->
  valid_network (network (simulation self)) ->
  Forall finite g ->
  snd (build_A self) = Ok A -> snd (build_b self) = Ok b ->
  solves A b x -> Forall finite x ->
  forall p, p < Np self ->
    if label_at self "dirichlet" p
    then x !! p = Some (if label_at self "neumann" p
                        then (- value_at self "neumann" p)%S
                        else value_at self "dirichlet" p)
    else boundary_rate (network (simulation self)) g x [p]
         = (if label_at self "neumann" p
            then (- value_at self "neumann" p)%S else zero).
Proof.
  intros Hwf Hg Hv Hfg HA Hb Hsol Hfx.
  destruct (build_A_run self g Hg) as (A' & HA' & Hs & HT).
  rewrite HA' in HA. injection HA as <-.
  rewrite (build_b_run self Hwf) in Hb. injection Hb as <-.
  apply (solution_conditions self g A' x); assumption.
Qed.

Lemma exact_solution_meets_the_conditions_witness :
  let A := returned (mk_coo [] [] [] 0) (snd (build_A Chain.alg1)) in
  let b := returned [] (snd (build_b Chain.alg1)) in
  let x := [one; Chain.half; zero] in
  wf Chain.alg1 /\
  conductance_is Chain.alg1 [one; one] /\
  valid_network (network (simulation Chain.alg1)) /\
  Forall finite [one; one] /\
  snd (build_A Chain.alg1) = Ok A /\ snd (build_b Chain.alg1) = Ok b /\
  solves A b x /\ Forall finite x /\
  forall p, p < Np Chain.alg1 ->
    if label_at Chain.alg1 "dirichlet" p
    then x !! p = Some (if label_at Chain.alg1 "neumann" p
                        then (- value_at Chain.alg1 "neumann" p)%S
                        else value_at Chain.alg1 "dirichlet" p)
    else boundary_rate (network (simulation Chain.alg1)) [one; one] x [p]
         = (if label_at Chain.alg1 "neumann" p
            then (- value_at Chain.alg1 "neumann" p)%S else zero).
Proof.
  intros A b x.
  assert (H1 : wf Chain.alg1) by wf_by_compute.
  assert (H2 : conductance_is Chain.alg1 [one; one])
    by conductance_by_compute.
  assert (H3 : valid_network (network (simulation Chain.alg1)))
    by network_by_compute.
  assert (H4 : Forall finite [one; one]) by finite_by_compute.
  assert (H5 : snd (build_A Chain.alg1) = Ok A) by (vm_compute; reflexivity).
  assert (H6 : snd (build_b Chain.alg1) = Ok b) by (vm_compute; reflexivity).
  assert (H7 : solves A b x) by (split; [reflexivity|by_compute]).
  assert (H8 : Forall finite x)
    by (repeat constructor; eexists; vm_compute; reflexivity).
  repeat (split; [assumption|]).
  exact (exact_solution_meets_the_conditions Chain.alg1 _ A b x
           H1 H2 H3 H4 H5 H6 H7 H8).
Defined.

Lemma conductance_between_symmetric net g i j :
  conductance_between net g i j = conductance_between net g j i.
Proof.
  unfold conductance_between. f_equal. f_equal.
  apply list_fmap_ext. intros _ e _. unfold joins. apply orb_comm.
Qed.

(** X21: when the conductance is bound, the matrix assembled before the
    editing is symmetric, and the editing breaks the symmetry: between a
    Dirichlet node and a node without Dirichlet condition, the entry on the
    row of the Dirichlet node is zero, while the entry on the row of the
    other node keeps the conductance between the two. *)
Theorem dirichlet_editing_breaks_symmetry self g :
  conductance_is self g ->
  exists L A,
    build_A_laplacian self = (self, Ok L) /\
    build_A self = (with_A self A, Ok A) /\
    (forall i j, i <> j -> entry L i j = entry L j i) /\
    (forall p j, label_at self "dirichlet" p = true ->
       label_at self "dirichlet" j = false ->
       entry A p j = zero /\
       entry A j p
       = conductance_between (network (simulation self)) g j p).
Proof.
  intros Hg.
  assert (Hl : length g = length (conns (network (simulation self))))
    by (destruct Hg as (_ & _ & _ & _ & _ & H); exact H).
  destruct (build_A_run self g Hg) as (A & HA & Hs & HT).
  eexists _, A. split; [apply build_A_laplacian_run, Hg|].
  split; [exact HA|]. split.
  - intros i j Hij. rewrite !offdiag_entry by (try exact Hl; congruence).
    apply conductance_between_symmetric.
  - intros p j Hp Hj.
    apply dirichlet_nodes_label in Hp.
    apply not_dirichlet_nodes_label in Hj.
    assert (Hne : j <> p) by (intros ->; contradiction).
    rewrite !entry_tsum, HT. unfold system_triples.
    rewrite !tsum_app. split.
    + rewrite tsum_filter, tsum_never.
      2:{ intros t _ [[Hr _] Hn]. apply Hn. rewrite Hr. exact Hp. }
      rewrite (tsum_diag_never _ (fun _ => one))
        by (simpl; intros q [-> Hq]; congruence).
      apply sadd_zero_l.
    + rewrite (tsum_diag_never _ (fun _ => one))
        by (simpl; intros q [-> Hq]; congruence).
      rewrite sadd_zero_r, tsum_filter.
      rewrite <- (offdiag_entry _ g j p Hl Hne), entry_tsum.
      apply tsum_ext. intros t _. split; [tauto|].
      intros [Hr Hc]. split; [tauto|]. rewrite Hr. exact Hj.
Qed.

Lemma dirichlet_editing_breaks_symmetry_witness :
  conductance_is Chain.alg1 [one; one] /\
  exists L A,
    build_A_laplacian Chain.alg1 = (Chain.alg1, Ok L) /\
    build_A Chain.alg1 = (with_A Chain.alg1 A, Ok A) /\
    (forall i j, i <> j -> entry L i j = entry L j i) /\
    (forall p j, label_at Chain.alg1 "dirichlet" p = true ->
       label_at Chain.alg1 "dirichlet" j = false ->
       entry A p j = zero /\
       entry A j p
       = conductance_between (network (simulation Chain.alg1)) [one; one] j p).
Proof.
  assert (H : conductance_is Chain.alg1 [one; one])
    by conductance_by_compute.
  split; [exact H|]. exact (dirichlet_editing_breaks_symmetry Chain.alg1 _ H).
Defined.

(** ** Setup *)

Lemma existsb_isnan (g : list scalar) :
  existsb isnan g = false <-> Forall finite g.
Proof.
  induction g as [|v g IH]; simpl.
  - split; [constructor|reflexivity].
  - rewrite orb_false_iff, IH, Forall_cons. unfold finite.
    destruct v as [|q]; simpl; split.
    + intros [H _]. discriminate H.
    + intros [[q H] _]. discriminate H.
    + intros [_ H]. split; [eexists; reflexivity|exact H].
    + intros [_ H]. split; [reflexivity|exact H].
Qed.

Section SetupRun.
Context (_parse_prop : string -> string -> result string).
Context (self : GenericLinearTransport) (cname qname ck qk : string).
Context (ph : gmap string ndarray) (g : list scalar).
Context (Hc : _parse_prop cname "throat" = Ok ck).
Context (Hq : _parse_prop qname "pore" = Ok qk).
Context (Hph : phases (simulation self) !! phase (settings self) = Some ph).
Context (Hg : ph !! ck = Some (FloatArr g)).

(** [setup] up to the check of the conductance. *)
Lemma setup_run :
  setup _parse_prop cname qname self
  = (with_settings self (mk_settings (phase (settings self)) (Some ck) (Some qk)),
     if existsb isnan g then Raise PreconditionViolation else Ok tt).
Proof using Hc Hq Hph Hg.
  unfold setup. unfold bind at 1, lift at 1. rewrite Hc.
  unfold bind at 1, set_conductance at 1.
  unfold bind at 1, lift at 1. rewrite Hq.
  unfold bind at 1, set_quantity at 1.
  unfold bind at 1, get at 1.
  unfold bind, phase_item. simpl. rewrite Hph, Hg. simpl.
  destruct (existsb isnan g); reflexivity.
Qed.

End SetupRun.

(** X22: when both names are accepted and the phase holds a float array
    without [NaN] under the conductance name, one value per edge, [setup]
    returns, binds both keys, leaves the arrays of the object as they were,
    and the conductance is bound as the other methods require it. *)
Theorem setup_binds_the_conductance
    _parse_prop self cname qname ck qk ph g :
  _parse_prop cname "throat" = Ok ck ->
  _parse_prop qname "pore" = Ok qk ->
  phases (simulation self) !! phase (settings self) = Some ph ->
  ph !! ck = Some (FloatArr g) ->
  length g = length (conns (network (simulation self))) ->
  Forall finite g ->
  exists self',
    setup _parse_prop cname qname self = (self', Ok tt) /\
    conductance_is self' g /\
    quantity (settings self') = Some qk /\
    items self' = items self.
Proof.
  intros Hc Hq Hph Hg Hl Hf.
  eexists. split; [|split; [|split]].
  - rewrite (setup_run _parse_prop self cname qname ck qk ph g Hc Hq Hph Hg).
    rewrite (proj2 (existsb_isnan g) Hf). reflexivity.
  - exists ph, ck. repeat split; assumption.
  - reflexivity.
  - reflexivity.
Qed.

Lemma setup_binds_the_conductance_witness :
  let parse := fun (name element : string) => Ok name in
  let self := mk_alg Chain.sim (mk_settings "water" None None) ∅ None None in
  parse "throat.conductance" "throat" = Ok "throat.conductance" /\
  parse "pore.quantity" "pore" = Ok "pore.quantity" /\
  phases (simulation self) !! phase (settings self) = Some Chain.water /\
  Chain.water !! "throat.conductance" = Some (FloatArr [one; one]) /\
  length [one; one] = length (conns (network (simulation self))) /\
  Forall finite [one; one] /\
  exists self',
    setup parse "throat.conductance" "pore.quantity" self = (self', Ok tt) /\
    conductance_is self' [one; one] /\
    quantity (settings self') = Some "pore.quantity" /\
    items self' = items self.
Proof.
  intros parse self.
  assert (H1 : parse "throat.conductance" "throat" = Ok "throat.conductance")
    by reflexivity.
  assert (H2 : parse "pore.quantity" "pore" = Ok "pore.quantity")
    by reflexivity.
  assert (H3 : phases (simulation self) !! phase (settings self)
               = Some Chain.water) by reflexivity.
  assert (H4 : Chain.water !! "throat.conductance" = Some (FloatArr [one; one]))
    by reflexivity.
  assert (H5 : length [one; one] = length (conns (network (simulation self))))
    by reflexivity.
  assert (H6 : Forall finite [one; one]) by finite_by_compute.
  repeat (split; [assumption|]).
  exact (setup_binds_the_conductance parse self _ _ _ _ _ _
           H1 H2 H3 H4 H5 H6).
Defined.

(** X23: when the conductance array holds a [NaN], [setup] fails with
    [PreconditionViolation] only after it has bound both keys: the settings
    of the object are changed by the failed call, and [build_A], which does
    not check the conductance again, assembles a matrix from it. *)
Theorem setup_fails_after_binding
    _parse_prop self cname qname ck qk ph g :
  _parse_prop cname "throat" = Ok ck ->
  _parse_prop qname "pore" = Ok qk ->
  phases (simulation self) !! phase (settings self) = Some ph ->
  ph !! ck = Some (FloatArr g) ->
  length g = length (conns (network (simulation self))) ->
  ~ Forall finite g ->
  exists self' A,
    setup _parse_prop cname qname self = (self', Raise PreconditionViolation) /\
    settings self'
    = mk_settings (phase (settings self)) (Some ck) (Some qk) /\
    build_A self' = (with_A self' A, Ok A).
Proof.
  intros Hc Hq Hph Hg Hl Hf.
  set (self' := with_settings self
                  (mk_settings (phase (settings self)) (Some ck) (Some qk))).
  assert (Hcond : conductance_is self' g)
    by (exists ph, ck; repeat split; assumption).
  destruct (build_A_run self' g Hcond) as (A & HA & _).
  exists self', A. split; [|split; [reflexivity|exact HA]].
  rewrite (setup_run _parse_prop self cname qname ck qk ph g Hc Hq Hph Hg).
  destruct (existsb isnan g) eqn:E; [reflexivity|].
  apply existsb_isnan in E. contradiction.
Qed.

Lemma setup_fails_after_binding_witness :
  let parse := fun (name element : string) => Ok name in
  let ph : gmap string ndarray := {[ "throat.g" := FloatArr [one; NaN] ]} in
  let self := mk_alg (mk_simulation Chain.net {[ "water" := ph ]})
                (mk_settings "water" None None) ∅ None None in
  parse "throat.g" "throat" = Ok "throat.g" /\
  parse "pore.quantity" "pore" = Ok "pore.quantity" /\
  phases (simulation self) !! phase (settings self) = Some ph /\
  ph !! "throat.g" = Some (FloatArr [one; NaN]) /\
  length [one; NaN] = length (conns (network (simulation self))) /\
  ~ Forall finite [one; NaN] /\
  exists self' A,
    setup parse "throat.g" "pore.quantity" self
    = (self', Raise PreconditionViolation) /\
    settings self'
    = mk_settings (phase (settings self)) (Some "throat.g")
        (Some "pore.quantity") /\
    build_A self' = (with_A self' A, Ok A).
Proof.
  intros parse ph self.
  assert (H1 : parse "throat.g" "throat" = Ok "throat.g") by reflexivity.
  assert (H2 : parse "pore.quantity" "pore" = Ok "pore.quantity")
    by reflexivity.
  assert (H3 : phases (simulation self) !! phase (settings self) = Some ph)
    by reflexivity.
  assert (H4 : ph !! "throat.g" = Some (FloatArr [one; NaN])) by reflexivity.
  assert (H5 : length [one; NaN] = length (conns (network (simulation self))))
    by reflexivity.
  assert (H6 : ~ Forall finite [one; NaN]).
  { intros H. apply Forall_cons in H as [_ H].
    apply Forall_cons in H as [[q H] _]. discriminate H. }
  repeat (split; [assumption|]).
  exact (setup_fails_after_binding parse self _ _ _ _ _ _
           H1 H2 H3 H4 H5 H6).
Defined.

(** ** The solve *)

Lemma build_A_result self A :
  snd (build_A self) = Ok A -> build_A self = (with_A self A, Ok A).
Proof.
  unfold build_A, build_A_laplacian, build_A_dirichlet, bind, get_network,
    get, phase_item, lift, contains, when, ret, getitem, set_A.
  repeat case_match; simplify_eq; simpl; intros; simplify_eq; reflexivity.
Qed.

Lemma build_A_laplacian_pure self :
  build_A_laplacian self = (self, snd (build_A_laplacian self)).
Proof.
  unfold build_A_laplacian, bind, get_network, get, phase_item, lift, ret.
  repeat case_match; simplify_eq; reflexivity.
Qed.

Lemma build_A_laplacian_frame s1 s2 :
  simulation s1 = simulation s2 -> settings s1 = settings s2 ->
  snd (build_A_laplacian s1) = snd (build_A_laplacian s2).
Proof.
  intros H1 H2.
  unfold build_A_laplacian, bind, get_network, get, phase_item, lift, ret.
  rewrite H1, H2.
  repeat case_match; simplify_eq; simpl; congruence.
Qed.

Lemma build_A_dirichlet_frame L s1 s2 :
  items s1 !! "pore.dirichlet" = items s2 !! "pore.dirichlet" ->
  snd (build_A_dirichlet L s1) = snd (build_A_dirichlet L s2).
Proof.
  intros H. unfold build_A_dirichlet, bind, getitem. rewrite H.
  destruct (items s2 !! "pore.dirichlet"); reflexivity.
Qed.

Lemma build_A_snd self :
  snd (build_A self)
  = match snd (build_A_laplacian self) with
    | Ok L =>
        if bool_decide (is_Some (items self !! "pore.dirichlet"))
        then snd (build_A_dirichlet L self) else Ok L
    | Raise e => Raise e
    end.
Proof.
  unfold build_A.
  pose proof (build_A_laplacian_pure self) as HL.
  destruct (snd (build_A_laplacian self)) as [L|e].
  - erewrite bind_Ok; [|exact HL].
    erewrite bind_Ok; [|apply contains_run].
    erewrite bind_Ok by (destruct (bool_decide _); reflexivity).
    erewrite bind_Ok; [|apply contains_run].
    destruct (bool_decide (is_Some (items self !! "pore.dirichlet"))).
    + unfold bind at 1.
      destruct (build_A_dirichlet L self) as [s [A|e]]; reflexivity.
    + reflexivity.
  - erewrite bind_Raise; [|exact HL]. reflexivity.
Qed.

(** [build_A] reads the network, the settings and the Dirichlet labels. *)
Lemma build_A_frame s1 s2 :
  simulation s1 = simulation s2 -> settings s1 = settings s2 ->
  items s1 !! "pore.dirichlet" = items s2 !! "pore.dirichlet" ->
  snd (build_A s1) = snd (build_A s2).
Proof.
  intros H1 H2 H3. rewrite !build_A_snd.
  rewrite (build_A_laplacian_frame s1 s2 H1 H2), H3.
  destruct (snd (build_A_laplacian s2)) as [L|e]; [|reflexivity].
  rewrite (build_A_dirichlet_frame L s1 s2 H3). reflexivity.
Qed.

Lemma not_bc_key k K :
  k ∉ bc_keys -> K ∈ ["dirichlet"; "neumann"] ->
  k <> "pore." +:+ K /\ k <> "pore." +:+ K +:+ "_value".
Proof.
  intros Hk HK. split; intros ->; apply Hk; kind_cases HK; by_compute.
Qed.

(** An array stored under another key does not change the store. *)
Lemma store_upd_other k a self :
  k ∉ bc_keys ->
  (forall K, K ∈ ["dirichlet"; "neumann"] ->
     labels_of (upd k a self) K = labels_of self K /\
     values_of (upd k a self) K = values_of self K) /\
  (wf self -> wf (upd k a self)).
Proof.
  intros Hk.
  assert (Hlook : forall K, K ∈ ["dirichlet"; "neumann"] ->
            items (upd k a self) !! ("pore." +:+ K)
            = items self !! ("pore." +:+ K) /\
            items (upd k a self) !! ("pore." +:+ K +:+ "_value")
            = items self !! ("pore." +:+ K +:+ "_value")).
  { intros K HK. destruct (not_bc_key k K Hk HK) as [N1 N2].
    unfold upd. simpl. rewrite !lookup_insert_ne by congruence. tauto. }
  split.
  - intros K HK. destruct (Hlook K HK) as [E1 E2].
    unfold labels_of, values_of. rewrite E1, E2. split; reflexivity.
  - intros (HP & HD & HN).
    assert (Hkw : forall K, K ∈ ["dirichlet"; "neumann"] ->
              kind_wf self K -> kind_wf (upd k a self) K).
    { intros K HK [W1 W2]. destruct (Hlook K HK) as [E1 E2].
      split; intros a'; [rewrite E1; apply W1|rewrite E2; apply W2]. }
    split; [|split].
    + intros K HK. destruct (Hlook K HK) as [E1 E2].
      unfold has_key. rewrite E1, E2. apply HP, HK.
    + apply Hkw; [by_compute|exact HD].
    + apply Hkw; [by_compute|exact HN].
Qed.

Section RunSteps.
Context (spsolve : coo_matrix -> list scalar -> result (list scalar)).

(** [run] once the matrix is assembled. *)
Lemma run_steps self A :
  wf self -> build_A self = (with_A self A, Ok A) ->
  run spsolve self
  = match spsolve A (rhs self) with
    | Ok x =>
        setitem_opt (quantity (settings self)) (FloatArr x)
          (with_b (with_A self A) (rhs self))
    | Raise e => (with_b (with_A self A) (rhs self), Raise e)
    end.
Proof.
  intros Hwf HA. unfold run.
  erewrite bind_Ok; [|exact HA].
  erewrite bind_Ok; [|exact (build_b_run (with_A self A) Hwf)].
  change (rhs (with_A self A)) with (rhs self).
  unfold bind at 1, lift at 1.
  destruct (spsolve A (rhs self)) as [x|e]; reflexivity.
Qed.

End RunSteps.

(** X24: on a well-formed store with a bound conductance free of [NaN]
    and a bound quantity key, if the solver returns a field of numbers that
    solves the assembled system exactly, [run] returns, stores the matrix,
    the right-hand side and, under the quantity key, the field; the field
    then holds the Dirichlet value at each Dirichlet node (the negated
    Neumann value if the node carries a Neumann label too), and [rate] at
    any other single node returns the negated Neumann value, or zero where
    no condition is set. *)
Theorem run_writes_the_solution spsolve self g k A b x :
  wf self ->
  conductance_is self g ->
  valid_network (network (simulation self)) ->
  Forall finite g ->
  quantity (settings self) = Some k ->
  snd (build_A self) = Ok A -> snd (build_b self) = Ok b ->
  spsolve A b = Ok x -> solves A b x -> Forall finite x ->
  let self' := upd k (FloatArr x) (with_b (with_A self A) b) in
  run spsolve self = (self', Ok tt) /\
  quantity_is self' x /\
  forall p, p < Np self ->
    if label_at self "dirichlet" p
    then x !! p = Some (if label_at self "neumann" p
                        then (- value_at self "neumann" p)%S
                        else value_at self "dirichlet" p)
    else rate [p] "single" self'
         = (self', Ok [if label_at self "neumann" p
                       then (- value_at self "neumann" p)%S else zero]).
Proof.
  intros Hwf Hg Hv Hfg Hk HA Hb Hsp Hsol Hfx self'.
  destruct (build_A_run self g Hg) as (A' & HA' & Hs & HT).
  rewrite HA' in HA. injection HA as <-.
  rewrite (build_b_run self Hwf) in Hb. injection Hb as Hb.
  subst b. subst self'.
  assert (Hx : quantity_is
                 (upd k (FloatArr x) (with_b (with_A self A') (rhs self))) x).
  { exists k. split; [exact Hk|]. split.
    - unfold upd. simpl. apply lookup_insert_eq.
    - destruct Hsol as [Hlen _]. rewrite Hlen. exact Hs. }
  split; [|split; [exact Hx|]].
  - rewrite (run_steps spsolve self A' Hwf HA'), Hsp, Hk. reflexivity.
  - intros p Hp.
    pose proof (solution_conditions self g A' x Hwf Hg Hv Hfg Hs HT Hsol Hfx
                  p Hp) as Hcond.
    destruct (label_at self "dirichlet" p); [exact Hcond|].
    rewrite <- Hcond.
    refine (rate_single_run _ g x [p] _ Hx _ _).
    + exact Hg.
    + exact Hv.
    + constructor; [exact Hp|constructor].
Qed.

Lemma run_writes_the_solution_witness :
  let spsolve := fun (_ : coo_matrix) (_ : list scalar) =>
                   Ok [one; Chain.half; zero] in
  let A := returned (mk_coo [] [] [] 0) (snd (build_A Chain.alg1)) in
  let b := returned [] (snd (build_b Chain.alg1)) in
  let x := [one; Chain.half; zero] in
  wf Chain.alg1 /\
  conductance_is Chain.alg1 [one; one] /\
  valid_network (network (simulation Chain.alg1)) /\
  Forall finite [one; one] /\
  quantity (settings Chain.alg1) = Some "pore.quantity" /\
  snd (build_A Chain.alg1) = Ok A /\ snd (build_b Chain.alg1) = Ok b /\
  spsolve A b = Ok x /\ solves A b x /\ Forall finite x /\
  let self' := upd "pore.quantity" (FloatArr x)
                 (with_b (with_A Chain.alg1 A) b) in
  run spsolve Chain.alg1 = (self', Ok tt) /\
  quantity_is self' x /\
  forall p, p < Np Chain.alg1 ->
    if label_at Chain.alg1 "dirichlet" p
    then x !! p = Some (if label_at Chain.alg1 "neumann" p
                        then (- value_at Chain.alg1 "neumann" p)%S
                        else value_at Chain.alg1 "dirichlet" p)
    else rate [p] "single" self'
         = (self', Ok [if label_at Chain.alg1 "neumann" p
                       then (- value_at Chain.alg1 "neumann" p)%S else zero]).
Proof.
  intros spsolve A b x.
  assert (H1 : wf Chain.alg1) by wf_by_compute.
  assert (H2 : conductance_is Chain.alg1 [one; one])
    by conductance_by_compute.
  assert (H3 : valid_network (network (simulation Chain.alg1)))
    by network_by_compute.
  assert (H4 : Forall finite [one; one]) by finite_by_compute.
  assert (H5 : quantity (settings Chain.alg1) = Some "pore.quantity")
    by reflexivity.
  assert (H6 : snd (build_A Chain.alg1) = Ok A) by (vm_compute; reflexivity).
  assert (H7 : snd (build_b Chain.alg1) = Ok b) by (vm_compute; reflexivity).
  assert (H8 : spsolve A b = Ok x) by reflexivity.
  assert (H9 : solves A b x) by (split; [reflexivity|by_compute]).
  assert (H10 : Forall finite x)
    by (repeat constructor; eexists; vm_compute; reflexivity).
  repeat (split; [assumption|]).
  exact (run_writes_the_solution spsolve Chain.alg1 _ _ A b x
           H1 H2 H3 H4 H5 H6 H7 H8 H9 H10).
Defined.

(** X25: when the solver fails, [run] fails with the solver's exception
    and writes no quantity field: the arrays of the object are as they were,
    while the matrix and the right-hand side of the failed solve stay
    stored. *)
Theorem run_solver_failure spsolve self g A b e :
  wf self ->
  conductance_is self g ->
  snd (build_A self) = Ok A -> snd (build_b self) = Ok b ->
  spsolve A b = Raise e ->
  let r := run spsolve self in
  snd r = Raise e /\
  items (fst r) = items self /\
  attr_A (fst r) = Some A /\ attr_b (fst r) = Some b.
Proof.
  intros Hwf Hg HA Hb Hsp r. subst r.
  rewrite (build_b_run self Hwf) in Hb. injection Hb as Hb. subst b.
  rewrite (run_steps spsolve self A Hwf (build_A_result self A HA)), Hsp.
  repeat split; reflexivity.
Qed.

Lemma run_solver_failure_witness :
  let spsolve := fun (_ : coo_matrix) (_ : list scalar) =>
                   @Raise (list scalar) ValueError in
  let A := returned (mk_coo [] [] [] 0) (snd (build_A Chain.alg1)) in
  let b := returned [] (snd (build_b Chain.alg1)) in
  wf Chain.alg1 /\
  conductance_is Chain.alg1 [one; one] /\
  snd (build_A Chain.alg1) = Ok A /\ snd (build_b Chain.alg1) = Ok b /\
  spsolve A b = Raise ValueError /\
  let r := run spsolve Chain.alg1 in
  snd r = Raise ValueError /\
  items (fst r) = items Chain.alg1 /\
  attr_A (fst r) = Some A /\ attr_b (fst r) = Some b.
Proof.
  intros spsolve A b.
  assert (H1 : wf Chain.alg1) by wf_by_compute.
  assert (H2 : conductance_is Chain.alg1 [one; one])
    by conductance_by_compute.
  assert (H3 : snd (build_A Chain.alg1) = Ok A) by (vm_compute; reflexivity).
  assert (H4 : snd (build_b Chain.alg1) = Ok b) by (vm_compute; reflexivity).
  assert (H5 : spsolve A b = Raise ValueError) by reflexivity.
  repeat (split; [assumption|]).
  exact (run_solver_failure spsolve Chain.alg1 _ A b ValueError
           H1 H2 H3 H4 H5).
Defined.

(** X26: on a well-formed store with a bound conductance and a quantity
    key that is none of the keys of the boundary condition store, a [run]
    that returned can be repeated: the second [run] assembles the same
    system, returns, and leaves the object exactly as the first left it. *)
Theorem run_twice spsolve self g k :
  wf self ->
  conductance_is self g ->
  quantity (settings self) = Some k ->
  k ∉ bc_keys ->
  snd (run spsolve self) = Ok tt ->
  run spsolve (fst (run spsolve self)) = run spsolve self.
Proof.
  intros Hwf Hg Hk Hnk Hok.
  destruct (build_A_run self g Hg) as (A & HA & _).
  rewrite (run_steps spsolve self A Hwf HA) in Hok |- *.
  destruct (spsolve A (rhs self)) as [x|e] eqn:Hsp; [|discriminate Hok].
  rewrite Hk. simpl setitem_opt. unfold setitem_full. cbn [fst].
  set (s1 := with_b (with_A self A) (rhs self)).
  change (with_items s1 (<[k:=FloatArr x]> (items s1)))
    with (upd k (FloatArr x) s1).
  destruct (store_upd_other k (FloatArr x) s1 Hnk) as [Hobs Hwf1].
  specialize (Hwf1 Hwf).
  assert (Hrhs : rhs (upd k (FloatArr x) s1) = rhs self).
  { unfold rhs.
    destruct (Hobs "dirichlet" ltac:(by_compute)) as [-> ->].
    destruct (Hobs "neumann" ltac:(by_compute)) as [-> ->]. reflexivity. }
  assert (HA1 : build_A (upd k (FloatArr x) s1)
                = (with_A (upd k (FloatArr x) s1) A, Ok A)).
  { apply build_A_result.
    rewrite (build_A_frame (upd k (FloatArr x) s1) self); try reflexivity.
    - rewrite HA. reflexivity.
    - unfold upd. simpl. apply lookup_insert_ne.
      intros ->. apply Hnk. by_compute. }
  rewrite (run_steps spsolve _ A Hwf1 HA1), Hrhs, Hsp.
  change (quantity (settings (upd k (FloatArr x) s1)))
    with (quantity (settings self)).
  rewrite Hk. simpl setitem_opt. unfold setitem_full, upd, with_items.
  simpl. rewrite insert_insert_eq. reflexivity.
Qed.

Lemma run_twice_witness :
  let spsolve := fun (_ : coo_matrix) (_ : list scalar) =>
                   Ok [one; Chain.half; zero] in
  wf Chain.alg1 /\
  conductance_is Chain.alg1 [one; one] /\
  quantity (settings Chain.alg1) = Some "pore.quantity" /\
  ("pore.quantity" ∉ bc_keys) /\
  snd (run spsolve Chain.alg1) = Ok tt /\
  run spsolve (fst (run spsolve Chain.alg1)) = run spsolve Chain.alg1.
Proof.
  intros spsolve.
  assert (H1 : wf Chain.alg1) by wf_by_compute.
  assert (H2 : conductance_is Chain.alg1 [one; one])
    by conductance_by_compute.
  assert (H3 : quantity (settings Chain.alg1) = Some "pore.quantity")
    by reflexivity.
  assert (H4 : "pore.quantity" ∉ bc_keys) by by_compute.
  assert (H5 : snd (run spsolve Chain.alg1) = Ok tt)
    by (vm_compute; reflexivity).
  repeat (split; [assumption|]).
  exact (run_twice spsolve Chain.alg1 _ _ H1 H2 H3 H4 H5).
Defined.
